(** * Knowledge graph service of the Obsidian MCP server

    A shallow embedding of [KnowledgeGraphService] (the class in
    [src/services/DataviewService.ts], lines 393-710) and the properties of
    its graph builder, link resolver, traversals, analyzer and scorer.

    Conventions of the embedding:
    - a JavaScript string is a [string]; its characters are the code units
      U+0000..U+00FF, which is the range on which [toLowerCase] and the
      regular expression class [\s] are written out below;
    - a JavaScript number that counts or scores is a [Z];
    - [Map<string, V>] iterates in insertion order, so it is an association
      list in which [set] on a present key overwrites in place and
      [set] on a fresh key appends;
    - [Set<string>] that is only ever tested for membership is a
      [gset string]; the [related] set, which is read back in insertion
      order, is a duplicate-free list;
    - optional fields ([tags?], [links?], [backlinks?]) are [option]s. *)

From Stdlib Require Import ZArith String Ascii.
From stdpp Require Import base option list sets gmap strings relations sorting.

Local Open Scope string_scope.
Local Open Scope list_scope.
Local Open Scope Z_scope.

(* [set_solver] and [naive_solver] clear hypotheses that may be gone. *)
#[local] Set Warnings "-clear-no-such-hyp".

(** ** JavaScript primitives used by the service *)

Module JS.

(** [s.endsWith(suffix)] *)
Definition endsWith (s suffix : string) : bool :=
  let n := String.length s in
  let m := String.length suffix in
  (m <=? n)%nat && String.eqb (substring (n - m) m s) suffix.

(** [s.lastIndexOf(c)] for a one-character needle; [-1] when absent. *)
Fixpoint lastIndexOf (c : ascii) (s : string) : Z :=
  match s with
  | EmptyString => -1
  | String a rest =>
      let r := lastIndexOf c rest in
      if r =? -1 then (if Ascii.eqb a c then 0 else -1) else r + 1
  end.

(** [s.substring(0, e)] for [0 <= e]. *)
Definition substring0 (s : string) (e : Z) : string :=
  substring 0 (Z.to_nat e) s.

(** [toLowerCase] on one code unit: A-Z, and the Latin-1 capitals
    U+00C0..U+00DE except the multiplication sign U+00D7. *)
Definition lower_char (c : ascii) : ascii :=
  let n := nat_of_ascii c in
  if ((65 <=? n) && (n <=? 90))%nat then ascii_of_nat (n + 32)
  else if ((192 <=? n) && (n <=? 222) && negb (n =? 215))%nat
       then ascii_of_nat (n + 32)
  else c.

Fixpoint toLowerCase (s : string) : string :=
  match s with
  | EmptyString => EmptyString
  | String c rest => String (lower_char c) (toLowerCase rest)
  end.

(** The class [\s] on the modelled range: TAB, LF, VT, FF, CR, SPACE and
    NO-BREAK SPACE. *)
Definition is_space (c : ascii) : bool :=
  let n := nat_of_ascii c in
  ((9 <=? n) && (n <=? 13) || (n =? 32) || (n =? 160))%nat.

(** [s.split(/\s+/)]: the pieces between maximal runs of white space.  A
    leading or trailing run leaves an empty first or last piece, and the
    empty string splits into one empty piece.  [cur] is the piece being
    read, [in_run] tells that the previous character was white space. *)
Fixpoint split_ws_aux (cur : string) (in_run : bool) (s : string)
  : list string :=
  match s with
  | EmptyString => [cur]
  | String c rest =>
      if is_space c then
        if in_run then split_ws_aux cur true rest
        else cur :: split_ws_aux EmptyString true rest
      else split_ws_aux (cur +:+ String c EmptyString) false rest
  end.

Definition split_ws (s : string) : list string :=
  split_ws_aux EmptyString false s.

(** [a.slice(0, e)]: a negative [e] counts from the end. *)
Definition slice0 {A} (a : list A) (e : Z) : list A :=
  let len := Z.of_nat (length a) in
  let final := if e <? 0 then Z.max (len + e) 0 else Z.min e len in
  take (Z.to_nat final) a.

(** [a.sort(cmp)]: the sort is stable, so with a consistent comparator the
    result is the one of a stable insertion sort: [x] stays in front of
    [y] unless [cmp x y > 0]. *)
Section Sort.
Context {A : Type} (cmp : A -> A -> Z).

Fixpoint sort_insert (x : A) (l : list A) : list A :=
  match l with
  | [] => [x]
  | y :: l' => if cmp x y <=? 0 then x :: y :: l' else y :: sort_insert x l'
  end.

Fixpoint sort (l : list A) : list A :=
  match l with
  | [] => []
  | x :: l' => sort_insert x (sort l')
  end.
End Sort.

End JS.

(** ** Insertion-ordered maps *)

Section OrderedMap.
Context {V : Type}.

Fixpoint map_get (m : list (string * V)) (k : string) : option V :=
  match m with
  | [] => None
  | (k', v) :: m' => if String.eqb k' k then Some v else map_get m' k
  end.

Definition map_has (m : list (string * V)) (k : string) : bool :=
  match map_get m k with Some _ => true | None => false end.

Fixpoint map_set (m : list (string * V)) (k : string) (v : V)
  : list (string * V) :=
  match m with
  | [] => [(k, v)]
  | (k', v') :: m' =>
      if String.eqb k' k then (k, v) :: m' else (k', v') :: map_set m' k v
  end.

Definition map_values (m : list (string * V)) : list V := m.*2.
End OrderedMap.

(** ** Data model ([src/types/index.ts])

    The fields the service never reads ([Note.frontmatter], [createdAt],
    [modifiedAt], [Link.text]) are left out. *)

Inductive LinkType := internal | embed | external.

Definition LinkType_str (t : LinkType) : string :=
  match t with
  | internal => "internal"
  | embed => "embed"
  | external => "external"
  end.

Module Link.
Record t := mk {
  source : string;
  target : string;
  type : LinkType;
}.
End Link.

Module Note.
Record t := mk {
  path : string;
  title : string;
  content : string;
  tags : option (list string);
  links : option (list Link.t);
  backlinks : option (list Link.t);
}.
End Note.

Inductive NodeType := note_node | tag_node | folder_node.

#[global] Instance NodeType_eq_dec : EqDecision NodeType.
Proof. solve_decision. Defined.

Module Metadata.
Record t := mk {
  tags : option (list string);
  wordCount : Z;
  linkCount : Z;
}.
End Metadata.

Module GraphNode.
Record t := mk {
  id : string;
  title : string;
  type : NodeType;
  metadata : option Metadata.t;
}.
End GraphNode.

Module GraphEdge.
Record t := mk {
  source : string;
  target : string;
  type : string;
  weight : Z;
}.
End GraphEdge.

Module KnowledgeGraph.
Record t := mk {
  nodes : list GraphNode.t;
  edges : list GraphEdge.t;
}.
End KnowledgeGraph.

(** [a?.length || 0] *)
Definition opt_length {A} (o : option (list A)) : Z :=
  match o with
  | Some l => Z.of_nat (length l)
  | None => 0
  end.

(** ** The service *)

(** The private field [notes : Map<string, Note>]. *)
Abbreviation snapshot := (list (string * Note.t)).

(** [updateNotes]: clear, then [set(note.path, note)] for each note. *)
Definition updateNotes (notes : list Note.t) : snapshot :=
  foldl (fun m note => map_set m (Note.path note) note) [] notes.

(** [getFolder] *)
Definition getFolder (path : string) : string :=
  let lastSlash := JS.lastIndexOf "/"%char path in
  if lastSlash =? -1 then "." else JS.substring0 path lastSlash.

(** [resolveNotePath] *)
Definition resolve_match (linkTarget normalized : string)
    (e : string * Note.t) : bool :=
  String.eqb (Note.title e.2) linkTarget
  || JS.endsWith e.1 ("/" +:+ normalized).

Definition resolveNotePath (notes : snapshot) (linkTarget : string) : string :=
  let normalized :=
    if JS.endsWith linkTarget ".md" then linkTarget else linkTarget +:+ ".md" in
  if map_has notes normalized then normalized
  else match List.find (resolve_match linkTarget normalized) notes with
       | Some (path, _) => path
       | None => normalized
       end.

(** *** [buildGraph] *)

Record build_state := mk_build {
  b_nodes : list GraphNode.t;
  b_edges : list GraphEdge.t;
  b_tagNodes : gmap string GraphNode.t;
  b_folderNodes : gmap string GraphNode.t;
}.

Definition link_edge (notes : snapshot) (note : Note.t) (link : Link.t)
  : GraphEdge.t :=
  GraphEdge.mk (Note.path note)
               (resolveNotePath notes (Link.target link))
               (LinkType_str (Link.type link)) 1.

Definition add_tag (note : Note.t) (st : build_state) (tag : string)
  : build_state :=
  let st1 :=
    match b_tagNodes st !! tag with
    | Some _ => st
    | None =>
        let tagNode := GraphNode.mk ("tag:" +:+ tag) tag tag_node None in
        mk_build (b_nodes st ++ [tagNode]) (b_edges st)
                 (<[tag := tagNode]> (b_tagNodes st)) (b_folderNodes st)
    end in
  mk_build (b_nodes st1)
           (b_edges st1 ++
              [GraphEdge.mk (Note.path note) ("tag:" +:+ tag) "tagged-with" 1])
           (b_tagNodes st1) (b_folderNodes st1).

Definition add_folder (note : Note.t) (st : build_state) : build_state :=
  let folder := getFolder (Note.path note) in
  if negb (String.eqb folder "") && negb (String.eqb folder ".") then
    let st1 :=
      match b_folderNodes st !! folder with
      | Some _ => st
      | None =>
          let folderNode :=
            GraphNode.mk ("folder:" +:+ folder) folder folder_node None in
          mk_build (b_nodes st ++ [folderNode]) (b_edges st)
                   (b_tagNodes st) (<[folder := folderNode]> (b_folderNodes st))
      end in
    mk_build (b_nodes st1)
             (b_edges st1 ++
                [GraphEdge.mk (Note.path note) ("folder:" +:+ folder)
                              "in-folder" 1])
             (b_tagNodes st1) (b_folderNodes st1)
  else st.

Definition note_graph_node (note : Note.t) : GraphNode.t :=
  GraphNode.mk (Note.path note) (Note.title note) note_node
    (Some (Metadata.mk (Note.tags note)
                       (Z.of_nat (String.length (Note.content note)))
                       (opt_length (Note.links note)))).

(** One turn of the loop over [this.notes.values()]. *)
Definition build_note (notes : snapshot) (st : build_state) (note : Note.t)
  : build_state :=
  let st1 := mk_build (b_nodes st ++ [note_graph_node note]) (b_edges st)
                      (b_tagNodes st) (b_folderNodes st) in
  let st2 :=
    match Note.links note with
    | Some ls =>
        foldl (fun s link =>
                 mk_build (b_nodes s) (b_edges s ++ [link_edge notes note link])
                          (b_tagNodes s) (b_folderNodes s)) st1 ls
    | None => st1
    end in
  let st3 :=
    match Note.tags note with
    | Some ts => foldl (add_tag note) st2 ts
    | None => st2
    end in
  add_folder note st3.

Definition build_loop (notes : snapshot) (vals : list Note.t)
    (st : build_state) : build_state :=
  foldl (build_note notes) st vals.

Definition buildGraph (notes : snapshot) : KnowledgeGraph.t :=
  let st := build_loop notes (map_values notes) (mk_build [] [] ∅ ∅) in
  KnowledgeGraph.mk (b_nodes st) (b_edges st).

(** *** [getRelatedNotes] *)

Record trav_state := mk_trav {
  t_related : list string;
  t_visited : gset string;
}.

(** [related.add(path)] on a set kept in insertion order. *)
Definition set_add (path : string) (s : list string) : list string :=
  if bool_decide (path ∈ s) then s else s ++ [path].

(** The closure [traverse].  Each call goes one level deeper and the guard
    [depth > maxDepth] stops the descent, so the recursion is written on a
    [fuel] that [getRelatedNotes] sets above the number of levels (see
    [traverse_fuel]: the fuel never runs out before the guard applies). *)
Fixpoint traverse (fuel : nat) (notes : snapshot) (maxDepth : Z)
    (path : string) (depth : Z) (st : trav_state) : trav_state :=
  match fuel with
  | O => st
  | S fuel' =>
      if (depth >? maxDepth) || bool_decide (path ∈ t_visited st) then st
      else
        let st1 := mk_trav (t_related st) ({[path]} ∪ t_visited st) in
        match map_get notes path with
        | None => st1
        | Some note =>
            let st2 :=
              if depth >? 0
              then mk_trav (set_add path (t_related st1)) (t_visited st1)
              else st1 in
            let st3 :=
              match Note.links note with
              | Some ls =>
                  foldl (fun s link =>
                           traverse fuel' notes maxDepth
                             (resolveNotePath notes (Link.target link))
                             (depth + 1) s) st2 ls
              | None => st2
              end in
            match Note.backlinks note with
            | Some bs =>
                foldl (fun s backlink =>
                         traverse fuel' notes maxDepth
                           (Link.source backlink) (depth + 1) s) st3 bs
            | None => st3
            end
        end
  end.

(** The set [related] when the traversal returns. *)
Definition related (notes : snapshot) (notePath : string) (maxDepth : Z)
  : list string :=
  t_related
    (traverse (Z.to_nat (maxDepth + 2)) notes maxDepth notePath 0
              (mk_trav [] ∅)).

Definition getRelatedNotes (notes : snapshot) (notePath : string)
    (maxDepth : Z) : list Note.t :=
  omap (map_get notes) (related notes notePath maxDepth).

(** *** [findPath] *)

(** The body of the [for] loop over [note.links]. *)
Definition enqueue_link (notes : snapshot) (visited : gset string)
    (route : list string) (queue : list (string * list string))
    (link : Link.t) : list (string * list string) :=
  let target := resolveNotePath notes (Link.target link) in
  if bool_decide (target ∈ visited) then queue
  else queue ++ [(target, route ++ [target])].

(** The [while] loop, one turn per unit of fuel.  [None] is "out of fuel",
    [Some r] is the value returned ([r = None] for [null]). *)
Fixpoint findPath_loop (fuel : nat) (notes : snapshot) (toPath : string)
    (queue : list (string * list string)) (visited : gset string)
  : option (option (list string)) :=
  match fuel with
  | O => None
  | S fuel' =>
      match queue with
      | [] => Some None
      | (path, route) :: queue' =>
          if String.eqb path toPath then Some (Some route)
          else if bool_decide (path ∈ visited)
          then findPath_loop fuel' notes toPath queue' visited
          else
            let visited' := {[path]} ∪ visited in
            match map_get notes path with
            | None => findPath_loop fuel' notes toPath queue' visited'
            | Some note =>
                let queue'' :=
                  match Note.links note with
                  | Some ls =>
                      foldl (enqueue_link notes visited' route) queue' ls
                  | None => queue'
                  end in
                findPath_loop fuel' notes toPath queue'' visited'
            end
      end
  end.

(** Every turn takes one entry off the queue, and entries are only added
    when a note is expanded for the first time: the loop makes at most one
    turn per link of the snapshot, one for the start and one to see the
    queue empty. *)
Definition findPath_fuel (notes : snapshot) : nat :=
  (2 + sum_list ((fun e => length (default [] (Note.links e.2))) <$> notes))%nat.

Definition findPath (notes : snapshot) (fromPath toPath : string)
  : option (list string) :=
  match findPath_loop (findPath_fuel notes) notes toPath
                      [(fromPath, [fromPath])] ∅ with
  | Some r => r
  | None => None
  end.

(** *** [analyzeGraph] *)

Module GraphAnalysis.
Record t := mk {
  totalNodes : Z;
  totalEdges : Z;
  mostConnectedNodes : list (string * Z);
  orphanNotes : list string;
}.
End GraphAnalysis.

Definition linkCount (note : Note.t) : Z :=
  opt_length (Note.links note) + opt_length (Note.backlinks note).

Definition analyze_note (st : list (string * Z) * list string)
    (note : Note.t) : list (string * Z) * list string :=
  let connectionCounts := map_set st.1 (Note.path note) (linkCount note) in
  if linkCount note =? 0
  then (connectionCounts, st.2 ++ [Note.path note])
  else (connectionCounts, st.2).

Definition analyzeGraph (notes : snapshot) : GraphAnalysis.t :=
  let st := foldl analyze_note ([], []) (map_values notes) in
  let mostConnected :=
    JS.slice0 (JS.sort (fun a b => b.2 - a.2) st.1) 10 in
  let graph := buildGraph notes in
  GraphAnalysis.mk
    (Z.of_nat (length (filter (fun n => GraphNode.type n = note_node)
                              (KnowledgeGraph.nodes graph))))
    (Z.of_nat (length (KnowledgeGraph.edges graph)))
    mostConnected
    st.2.

(** *** [suggestRelatedNotes]

    [noteWords] is a [Set] that is only asked [has], and the arrays are only
    asked [includes]: both are the list membership test [includes]. *)

(** [scores.set(p, (scores.get(p) || 0) + d)] *)
Definition bump (scores : list (string * Z)) (p : string) (d : Z)
  : list (string * Z) :=
  map_set scores p (default 0 (map_get scores p) + d).

Definition includes (l : list string) (x : string) : bool :=
  bool_decide (x ∈ l).

Definition score_tags (notePath : string) (noteTags : list string)
    (scores : list (string * Z)) (otherNote : Note.t) : list (string * Z) :=
  if String.eqb (Note.path otherNote) notePath then scores
  else match Note.tags otherNote with
       | Some otherTags =>
           let sharedTags := List.filter (includes otherTags) noteTags in
           if Z.of_nat (length sharedTags) >? 0
           then bump scores (Note.path otherNote)
                     (Z.of_nat (length sharedTags) * 10)
           else scores
       | None => scores
       end.

Definition common_word (noteWords : list string) (word : string) : bool :=
  includes noteWords word && (Z.of_nat (String.length word) >? 3).

Definition score_title (notePath : string) (noteWords : list string)
    (scores : list (string * Z)) (otherNote : Note.t) : list (string * Z) :=
  if String.eqb (Note.path otherNote) notePath then scores
  else
    let otherWords := JS.split_ws (JS.toLowerCase (Note.title otherNote)) in
    let commonWords := List.filter (common_word noteWords) otherWords in
    if Z.of_nat (length commonWords) >? 0
    then bump scores (Note.path otherNote) (Z.of_nat (length commonWords) * 5)
    else scores.

Definition score_folder (notePath folder : string)
    (scores : list (string * Z)) (otherNote : Note.t) : list (string * Z) :=
  if String.eqb (Note.path otherNote) notePath then scores
  else if String.eqb (getFolder (Note.path otherNote)) folder
       then bump scores (Note.path otherNote) 3
       else scores.

Definition suggest_scores (notes : snapshot) (notePath : string)
    (note : Note.t) : list (string * Z) :=
  let scores0 : list (string * Z) := [] in
  let scores1 :=
    match Note.tags note with
    | Some noteTags =>
        foldl (score_tags notePath noteTags) scores0 (map_values notes)
    | None => scores0
    end in
  let noteWords := JS.split_ws (JS.toLowerCase (Note.title note)) in
  let scores2 :=
    foldl (score_title notePath noteWords) scores1 (map_values notes) in
  let folder := getFolder notePath in
  foldl (score_folder notePath folder) scores2 (map_values notes).

Definition suggestRelatedNotes (notes : snapshot) (notePath : string)
    (limit : Z) : list (string * Z) :=
  match map_get notes notePath with
  | None => []
  | Some note =>
      JS.slice0 (JS.sort (fun a b => b.2 - a.2)
                         (suggest_scores notes notePath note)) limit
  end.

(** * Properties *)

(** ** Insertion-ordered maps *)

Section OrderedMapFacts.
Context {V : Type}.
Implicit Types (m : list (string * V)) (k : string) (v : V).

Lemma map_get_Some_elem m k v : map_get m k = Some v -> (k, v) ∈ m.
Proof.
  induction m as [|[k' v'] m IH]; simpl; [done|].
  destruct (String.eqb_spec k' k) as [->|Hne].
  - intros [= ->]. left.
  - intros H. right. auto.
Qed.

Lemma map_get_None m k : map_get m k = None <-> k ∉ m.*1.
Proof.
  induction m as [|[k' v'] m IH]; simpl.
  - split; [intros _; apply not_elem_of_nil | done].
  - rewrite not_elem_of_cons.
    destruct (String.eqb_spec k' k) as [->|Hne].
    + split; [done | by intros [? _]].
    + rewrite IH. split; [by intros ?; split; [congruence|] | by intros [_ ?]].
Qed.

Lemma map_get_is_Some m k : is_Some (map_get m k) <-> k ∈ m.*1.
Proof.
  destruct (map_get m k) eqn:E.
  - split; [intros _|eauto].
    apply map_get_Some_elem in E. apply list_elem_of_fmap. by exists (k, v).
  - apply map_get_None in E. split; [by intros [? ?]|done].
Qed.

Lemma map_get_NoDup m k v : NoDup m.*1 -> (k, v) ∈ m -> map_get m k = Some v.
Proof.
  induction m as [|[k' v'] m IH]; simpl; intros Hnd Hin.
  - by apply elem_of_nil in Hin.
  - apply NoDup_cons in Hnd as [Hk' Hnd].
    apply elem_of_cons in Hin as [[= <- <-]|Hin].
    + by rewrite String.eqb_refl.
    + destruct (String.eqb_spec k' k) as [->|Hne]; [|auto].
      exfalso. apply Hk'. apply list_elem_of_fmap. by exists (k, v).
Qed.

Lemma map_has_true m k : map_has m k = true <-> k ∈ m.*1.
Proof.
  unfold map_has. rewrite <- map_get_is_Some.
  destruct (map_get m k); split; try done; eauto; by intros [? ?].
Qed.

Lemma map_set_fresh m k v : k ∉ m.*1 -> map_set m k v = m ++ [(k, v)].
Proof.
  induction m as [|[k' v'] m IH]; simpl; [done|].
  rewrite not_elem_of_cons. intros [Hne Hk].
  destruct (String.eqb_spec k' k) as [->|_]; [done|]. by rewrite IH.
Qed.

Lemma map_set_keys_in m k v : k ∈ m.*1 -> (map_set m k v).*1 = m.*1.
Proof.
  induction m as [|[k' v'] m IH]; intros Hin.
  - by apply elem_of_nil in Hin.
  - cbn [map_set]. destruct (String.eqb_spec k' k) as [->|Hne]; [done|].
    cbn in *. apply elem_of_cons in Hin as [->|Hin]; [done|].
    by rewrite IH.
Qed.

Lemma map_set_NoDup m k v : NoDup m.*1 -> NoDup (map_set m k v).*1.
Proof.
  intros Hnd. destruct (decide (k ∈ m.*1)) as [Hin|Hin].
  - by rewrite map_set_keys_in.
  - rewrite map_set_fresh, fmap_app by done.
    apply NoDup_app. split_and!; [done | | apply NoDup_singleton].
    intros x Hx ->%list_elem_of_singleton. done.
Qed.

Lemma map_get_set m k v k' :
  map_get (map_set m k v) k' =
  if String.eqb k k' then Some v else map_get m k'.
Proof.
  induction m as [|[k0 v0] m IH]; simpl; [done|].
  destruct (String.eqb_spec k0 k) as [->|Hne]; simpl.
  - destruct (String.eqb_spec k k'); done.
  - rewrite IH. destruct (String.eqb_spec k0 k') as [->|]; [|done].
    destruct (String.eqb_spec k k'); congruence.
Qed.

Lemma map_set_elem m k v k' v' :
  (k', v') ∈ map_set m k v -> (k', v') = (k, v) ∨ (k', v') ∈ m.
Proof.
  induction m as [|[k0 v0] m IH]; simpl.
  - rewrite list_elem_of_singleton. auto.
  - destruct (String.eqb_spec k0 k) as [->|Hne];
      rewrite !elem_of_cons; naive_solver.
Qed.
End OrderedMapFacts.

(** ** Snapshots installed by [updateNotes] *)

(** Keys are distinct and every note is stored under its own path. *)
Definition snapshot_wf (notes : snapshot) : Prop :=
  NoDup notes.*1 ∧ ∀ k n, (k, n) ∈ notes -> k = Note.path n.

Lemma updateNotes_wf (ns : list Note.t) : snapshot_wf (updateNotes ns).
Proof.
  unfold updateNotes.
  assert (Hgen : ∀ m, snapshot_wf m ->
            snapshot_wf (foldl (fun m note => map_set m (Note.path note) note)
                               m ns)).
  { induction ns as [|n ns IH]; simpl; [done|].
    intros m [Hnd Hk]. apply IH. split; [by apply map_set_NoDup|].
    intros k n' [[= -> ->]|Hin]%map_set_elem; [done | by apply Hk]. }
  apply Hgen. split; [constructor | by intros ?? ?%elem_of_nil].
Qed.

Lemma snapshot_get_value (notes : snapshot) (n : Note.t) :
  snapshot_wf notes -> n ∈ map_values notes ->
  map_get notes (Note.path n) = Some n.
Proof.
  intros [Hnd Hk] Hin. apply map_get_NoDup; [done|].
  apply list_elem_of_fmap in Hin as [[k n'] [-> Hin]]. simpl.
  by rewrite <- (Hk _ _ Hin).
Qed.

Lemma snapshot_get_path (notes : snapshot) (p : string) (n : Note.t) :
  snapshot_wf notes -> map_get notes p = Some n ->
  Note.path n = p ∧ n ∈ map_values notes.
Proof.
  intros [Hnd Hk] Hget. apply map_get_Some_elem in Hget.
  split; [symmetry; by apply Hk|].
  apply list_elem_of_fmap. by exists (p, n).
Qed.

Lemma snapshot_paths_NoDup (notes : snapshot) :
  snapshot_wf notes -> NoDup (Note.path <$> map_values notes).
Proof.
  intros [Hnd Hk]. unfold map_values.
  replace (Note.path <$> notes.*2) with notes.*1; [done|].
  rewrite <- list_fmap_compose. apply list_fmap_ext.
  intros i [k n] Hi. simpl. apply Hk. eapply list_elem_of_lookup_2, Hi.
Qed.

(** ** String primitives *)

Definition ends_with (s suffix : string) : Prop :=
  ∃ pre, s = pre +:+ suffix.

Lemma substring_all (s : string) : substring 0 (String.length s) s = s.
Proof. induction s as [|c s IH]; simpl; [done | by rewrite IH]. Qed.

Lemma substring_app_r (pre s : string) :
  substring (String.length pre) (String.length s) (pre +:+ s) = s.
Proof. induction pre as [|c pre IH]; simpl; [apply substring_all | done]. Qed.

Lemma substring_split (s : string) (k : nat) :
  (k <= String.length s)%nat ->
  s = substring 0 k s +:+ substring k (String.length s - k) s.
Proof.
  revert k. induction s as [|c s IH]; intros [|k] Hk; simpl in *;
    try done; try lia.
  - by rewrite substring_all.
  - change (String c s =
            String c (substring 0 k s +:+ substring k (String.length s - k) s)).
    f_equal. apply IH. lia.
Qed.

Lemma string_app_length (a b : string) :
  String.length (a +:+ b) = (String.length a + String.length b)%nat.
Proof. induction a as [|c a IH]; simpl; [done | by rewrite IH]. Qed.

Lemma endsWith_spec (s suffix : string) :
  JS.endsWith s suffix = true <-> ends_with s suffix.
Proof.
  unfold JS.endsWith, ends_with. rewrite andb_true_iff, Nat.leb_le, String.eqb_eq.
  split.
  - intros [Hle Hsub].
    exists (substring 0 (String.length s - String.length suffix) s).
    pose proof (substring_split s (String.length s - String.length suffix))
      as Hs.
    replace (String.length s - (String.length s - String.length suffix))%nat
      with (String.length suffix) in Hs by lia.
    rewrite Hsub in Hs. apply Hs. lia.
  - intros [pre ->]. rewrite string_app_length. split; [lia|].
    replace (String.length pre + String.length suffix - String.length suffix)%nat
      with (String.length pre) by lia.
    apply substring_app_r.
Qed.

Lemma endsWith_false (s suffix : string) :
  JS.endsWith s suffix = false <-> ¬ ends_with s suffix.
Proof.
  rewrite <- endsWith_spec. destruct (JS.endsWith s suffix); naive_solver.
Qed.

(** ** Link resolver *)

(** The normalized form of a raw link target. *)
Definition normalize (linkTarget : string) : string :=
  if JS.endsWith linkTarget ".md" then linkTarget else linkTarget +:+ ".md".

Lemma normalize_spec (t : string) :
  (ends_with t ".md" ∧ normalize t = t) ∨
  (¬ ends_with t ".md" ∧ normalize t = t +:+ ".md").
Proof.
  unfold normalize. destruct (JS.endsWith t ".md") eqn:E.
  - left. by apply endsWith_spec in E.
  - right. by apply endsWith_false in E.
Qed.

(** A note answers a raw target when its title is the target or its path
    ends with a slash followed by the normalized target. *)
Definition answers (t : string) (n : Note.t) : Prop :=
  Note.title n = t ∨ ends_with (Note.path n) ("/" +:+ normalize t).

Lemma resolve_match_answers (notes : snapshot) (t : string) k n :
  snapshot_wf notes -> (k, n) ∈ notes ->
  resolve_match t (normalize t) (k, n) = true <-> answers t n.
Proof.
  intros [_ Hk] Hin. unfold resolve_match, answers. simpl.
  rewrite orb_true_iff, String.eqb_eq, endsWith_spec, (Hk _ _ Hin). done.
Qed.

Lemma find_first {A} (f : A -> bool) (l1 l2 : list A) (x : A) :
  (∀ y, y ∈ l1 -> f y = false) -> f x = true ->
  List.find f (l1 ++ x :: l2) = Some x.
Proof.
  intros Hl1 Hx. induction l1 as [|y l1 IH]; simpl.
  - by rewrite Hx.
  - rewrite (Hl1 y) by left. apply IH. intros z Hz. apply Hl1. by right.
Qed.

Lemma find_none {A} (f : A -> bool) (l : list A) :
  (∀ y, y ∈ l -> f y = false) -> List.find f l = None.
Proof.
  induction l as [|y l IH]; simpl; [done|]. intros Hl.
  rewrite (Hl y) by left. apply IH. intros z Hz. apply Hl. by right.
Qed.

(** C4: the resolver normalizes the raw target by appending ".md" when that
    suffix is absent; when a note has the normalized string as its path the
    result is the normalized string; otherwise it is the path of the first
    note, in iteration order, whose title is the raw target or whose path
    ends with "/" followed by the normalized string; and when no note
    answers, it is the normalized string itself. *)
Theorem resolveNotePath_spec (ns : list Note.t) (t : string) :
  let notes := updateNotes ns in
  ((ends_with t ".md" ∧ normalize t = t) ∨
   (¬ ends_with t ".md" ∧ normalize t = t +:+ ".md")) ∧
  ((∃ n, n ∈ map_values notes ∧ Note.path n = normalize t) ->
   resolveNotePath notes t = normalize t) ∧
  ((¬ ∃ n, n ∈ map_values notes ∧ Note.path n = normalize t) ->
   (∀ before n after,
      map_values notes = before ++ n :: after ->
      (∀ n', n' ∈ before -> ¬ answers t n') ->
      answers t n ->
      resolveNotePath notes t = Note.path n) ∧
   ((∀ n, n ∈ map_values notes -> ¬ answers t n) ->
    resolveNotePath notes t = normalize t)).
Proof.
  intros notes. pose proof (updateNotes_wf ns) as Hwf. fold notes in Hwf.
  split; [apply normalize_spec|].
  unfold resolveNotePath. fold (normalize t). split.
  - intros (n & Hin & Hp).
    assert (map_has notes (normalize t) = true) as ->; [|done].
    apply map_has_true. rewrite <- Hp.
    apply map_get_is_Some. rewrite (snapshot_get_value notes n); eauto.
  - intros Hno.
    assert (map_has notes (normalize t) = false) as ->.
    { destruct (map_has notes (normalize t)) eqn:E; [|done].
      exfalso. apply Hno. apply map_has_true, map_get_is_Some in E as [n Hn].
      apply snapshot_get_path in Hn as [? ?]; eauto. }
    split.
    + intros before n after Hsplit Hbefore Hn.
      unfold map_values in Hsplit.
      apply fmap_app_inv in Hsplit as (l1 & l2' & Hb & Hrest & Hnotes).
      symmetry in Hrest.
      apply fmap_cons_inv in Hrest as ([k n0] & l2 & Hn0 & Hafter & ->).
      simpl in Hn0. subst n0.
      assert ((k, n) ∈ notes) as Hkn.
      { rewrite Hnotes. apply elem_of_app. right. left. }
      rewrite Hnotes, (find_first _ l1 l2 (k, n)).
      * destruct Hwf as [_ Hk]. by apply Hk.
      * intros [k' n'] Hin'.
        assert ((k', n') ∈ notes) as Hkn'.
        { rewrite Hnotes. apply elem_of_app. by left. }
        destruct (resolve_match t (normalize t) (k', n')) eqn:E; [|done].
        exfalso. apply (Hbefore n').
        -- rewrite Hb. apply list_elem_of_fmap. by exists (k', n').
        -- by apply (resolve_match_answers notes t k' n').
      * by apply (resolve_match_answers notes t k n).
    + intros Hnone. rewrite find_none; [done|].
      intros [k n] Hin.
      destruct (resolve_match t (normalize t) (k, n)) eqn:E; [|done].
      exfalso. apply (Hnone n).
      * apply list_elem_of_fmap. by exists (k, n).
      * by apply (resolve_match_answers notes t k n).
Qed.

(** ** Sorting and slicing *)

Section SortFacts.
Context {A : Type} (cmp : A -> A -> Z).

Lemma sort_insert_perm (x : A) (l : list A) : JS.sort_insert cmp x l ≡ₚ x :: l.
Proof.
  induction l as [|y l IH]; simpl; [done|].
  destruct (cmp x y <=? 0); [done|]. by rewrite IH, Permutation_swap.
Qed.

Lemma sort_perm (l : list A) : JS.sort cmp l ≡ₚ l.
Proof.
  induction l as [|x l IH]; simpl; [done|]. by rewrite sort_insert_perm, IH.
Qed.

Lemma sort_elem (x : A) (l : list A) : x ∈ JS.sort cmp l <-> x ∈ l.
Proof. by rewrite sort_perm. Qed.

Lemma slice0_elem (x : A) (l : list A) (e : Z) : x ∈ JS.slice0 l e -> x ∈ l.
Proof.
  unfold JS.slice0. intros (i & Hi & _)%elem_of_take.
  by eapply list_elem_of_lookup_2.
Qed.

Lemma slice0_length (l : list A) (e : Z) :
  0 <= e -> Z.of_nat (length (JS.slice0 l e)) <= e.
Proof.
  intros He. unfold JS.slice0. rewrite length_take.
  destruct (Z.ltb_spec e 0); lia.
Qed.
End SortFacts.

(** ** [findPath] on equal endpoints *)

(** C9: for every snapshot and every id [x], whether or not a note with
    path [x] exists, [findPath(x, x)] returns the one-element sequence
    [[x]]. *)
Theorem findPath_same (ns : list Note.t) (x : string) :
  findPath (updateNotes ns) x x = Some [x].
Proof.
  unfold findPath, findPath_fuel. simpl. by rewrite String.eqb_refl.
Qed.

(** ** Graph analyzer *)

Definition orphan (n : Note.t) : Prop :=
  opt_length (Note.links n) + opt_length (Note.backlinks n) = 0.

#[global] Instance orphan_dec (n : Note.t) : Decision (orphan n).
Proof. unfold orphan. apply _. Defined.

Lemma analyze_orphans (vals : list Note.t) st :
  (foldl analyze_note st vals).2 = st.2 ++ (Note.path <$> filter orphan vals).
Proof.
  revert st. induction vals as [|n vals IH]; intros st; simpl.
  - by rewrite app_nil_r.
  - rewrite IH. unfold analyze_note, linkCount. rewrite filter_cons.
    destruct (Z.eqb_spec (opt_length (Note.links n) +
                          opt_length (Note.backlinks n)) 0) as [E|E]; simpl.
    + rewrite decide_True by done. by rewrite <- app_assoc.
    + by rewrite decide_False.
Qed.

Lemma analyze_counts (vals : list Note.t) st :
  NoDup (st.1.*1 ++ (Note.path <$> vals)) ->
  (foldl analyze_note st vals).1 =
  st.1 ++ ((fun n => (Note.path n, linkCount n)) <$> vals).
Proof.
  revert st. induction vals as [|n vals IH]; intros st Hnd; simpl.
  - by rewrite app_nil_r.
  - assert (Note.path n ∉ st.1.*1) as Hfresh.
    { apply NoDup_app in Hnd as (_ & Hd & _). intros Hin.
      apply (Hd _ Hin). left. }
    assert ((analyze_note st n).1 = st.1 ++ [(Note.path n, linkCount n)]) as E.
    { unfold analyze_note. rewrite map_set_fresh by done.
      by destruct (linkCount n =? 0). }
    rewrite IH, E; [by rewrite <- app_assoc|].
    rewrite E, fmap_app, <- app_assoc. exact Hnd.
Qed.

(** C8: [orphanNotes] holds exactly the paths of the notes whose count of
    outgoing links plus count of backlinks is zero; a note with a link
    record is never an orphan, whatever the record resolves to; and every
    link record, parallel ones included, counts toward the connection
    total. *)
Theorem analyzeGraph_orphans (ns : list Note.t) :
  let notes := updateNotes ns in
  let a := analyzeGraph notes in
  GraphAnalysis.orphanNotes a =
    (Note.path <$> filter orphan (map_values notes)) ∧
  (∀ p, p ∈ GraphAnalysis.orphanNotes a <->
        ∃ n, map_get notes p = Some n ∧
             opt_length (Note.links n) + opt_length (Note.backlinks n) = 0) ∧
  (∀ n l ls, n ∈ map_values notes -> Note.links n = Some (l :: ls) ->
             Note.path n ∉ GraphAnalysis.orphanNotes a) ∧
  (∀ id c, (id, c) ∈ GraphAnalysis.mostConnectedNodes a ->
           ∃ n, map_get notes id = Some n ∧
                c = opt_length (Note.links n) + opt_length (Note.backlinks n)).
Proof.
  intros notes a. pose proof (updateNotes_wf ns) as Hwf. fold notes in Hwf.
  assert (GraphAnalysis.orphanNotes a =
          Note.path <$> filter orphan (map_values notes)) as Horph.
  { unfold a, analyzeGraph. simpl. by rewrite analyze_orphans. }
  assert (∀ p, p ∈ GraphAnalysis.orphanNotes a <->
            ∃ n, map_get notes p = Some n ∧ orphan n) as Hiff.
  { intros p. rewrite Horph, list_elem_of_fmap. split.
    - intros (n & -> & [Ho Hin]%list_elem_of_filter).
      exists n. split; [by apply snapshot_get_value | done].
    - intros (n & Hget & Ho). apply snapshot_get_path in Hget as [<- Hin]; [|done].
      exists n. split; [done|]. by apply list_elem_of_filter. }
  split_and!; [done | done | |].
  - intros n l ls Hin Hl [n' [Hget Ho]]%Hiff.
    rewrite (snapshot_get_value notes n) in Hget by done.
    injection Hget as <-. unfold orphan in Ho. rewrite Hl in Ho. simpl in Ho.
    destruct (Note.backlinks n); simpl in Ho; lia.
  - intros id c Hin. unfold a, analyzeGraph in Hin. simpl in Hin.
    apply slice0_elem, sort_elem in Hin.
    rewrite analyze_counts in Hin.
    + simpl in Hin. apply list_elem_of_fmap in Hin as (n & [= -> ->] & Hn).
      exists n. split; [by apply snapshot_get_value | done].
    + simpl. by apply snapshot_paths_NoDup.
Qed.

(** ** Graph builder *)

Definition ids (st : build_state) : list string := GraphNode.id <$> b_nodes st.

Definition is_note_node (n : GraphNode.t) : Prop := GraphNode.type n = note_node.

Definition synthetic (e : GraphEdge.t) : Prop :=
  GraphEdge.type e = "tagged-with" ∨ GraphEdge.type e = "in-folder".

(** What the builder maintains: the endpoints it is responsible for are
    node ids, and the two bookkeeping maps only hold created nodes. *)
Record build_inv (st : build_state) : Prop := {
  inv_source : ∀ e, e ∈ b_edges st -> GraphEdge.source e ∈ ids st;
  inv_target : ∀ e, e ∈ b_edges st -> synthetic e ->
                    GraphEdge.target e ∈ ids st;
  inv_tags : ∀ tag, is_Some (b_tagNodes st !! tag) -> "tag:" +:+ tag ∈ ids st;
  inv_folders : ∀ f, is_Some (b_folderNodes st !! f) ->
                     "folder:" +:+ f ∈ ids st;
}.

(** How one step relates the state before and after: nodes are only
    appended, [k] edges are appended, and no note node is added. *)
Record build_step (st st' : build_state) (k : nat) : Prop := {
  step_ids : ∀ x, x ∈ ids st -> x ∈ ids st';
  step_notes : filter is_note_node (b_nodes st') =
               filter is_note_node (b_nodes st);
  step_edges : length (b_edges st') = (length (b_edges st) + k)%nat;
}.

Lemma build_step_refl st : build_step st st 0.
Proof. split; [done | done | lia]. Qed.

Lemma build_step_trans st1 st2 st3 k1 k2 :
  build_step st1 st2 k1 -> build_step st2 st3 k2 ->
  build_step st1 st3 (k1 + k2).
Proof.
  intros [A1 B1 C1] [A2 B2 C2]. split; [auto | congruence | lia].
Qed.

Lemma LinkType_str_not_synthetic (t : LinkType) s tgt w :
  ¬ synthetic (GraphEdge.mk s tgt (LinkType_str t) w).
Proof. unfold synthetic. destruct t; simpl; intros [?|?]; discriminate. Qed.

Definition add_link (notes : snapshot) (note : Note.t) (s : build_state)
    (link : Link.t) : build_state :=
  mk_build (b_nodes s) (b_edges s ++ [link_edge notes note link])
           (b_tagNodes s) (b_folderNodes s).

Lemma add_link_step notes note st link :
  build_step st (add_link notes note st link) 1.
Proof.
  split; simpl; [done | done | by rewrite length_app].
Qed.

Lemma add_link_inv notes note st link :
  Note.path note ∈ ids st -> build_inv st ->
  build_inv (add_link notes note st link).
Proof.
  intros Hp [A B C D]. split; simpl; try done.
  - intros e [He | ->%list_elem_of_singleton]%elem_of_app; [by apply A | done].
  - intros e [He | ->%list_elem_of_singleton]%elem_of_app Hs; [by apply B|].
    by apply LinkType_str_not_synthetic in Hs.
Qed.

Lemma add_tag_step note st tag : build_step st (add_tag note st tag) 1.
Proof.
  unfold add_tag. destruct (b_tagNodes st !! tag); split; simpl;
    rewrite ?length_app; try done.
  - intros x Hx. unfold ids. simpl. rewrite fmap_app. apply elem_of_app. by left.
  - rewrite filter_app, filter_cons_False, filter_nil, app_nil_r; done.
Qed.

Lemma add_tag_inv note st tag :
  Note.path note ∈ ids st -> build_inv st -> build_inv (add_tag note st tag).
Proof.
  intros Hp [A B C D]. unfold add_tag.
  destruct (b_tagNodes st !! tag) eqn:E; split; simpl; unfold ids; simpl;
    rewrite ?fmap_app; try setoid_rewrite elem_of_app; try done.
  - intros e [He | ->%list_elem_of_singleton]; [by apply A | done].
  - intros e [He | ->%list_elem_of_singleton] Hs; [by apply B|].
    simpl. apply C. by rewrite E.
  - intros e [He | ->%list_elem_of_singleton]; left; [by apply A | done].
  - intros e [He | ->%list_elem_of_singleton] Hs; [left; by apply B|].
    right. simpl. left.
  - intros t Ht. destruct (decide (tag = t)) as [->|Hne].
    + right. simpl. left.
    + left. apply C. by rewrite lookup_insert_ne in Ht.
  - intros f Hf. left. by apply D.
Qed.

Definition has_folder (note : Note.t) : bool :=
  negb (String.eqb (getFolder (Note.path note)) "")
  && negb (String.eqb (getFolder (Note.path note)) ".").

Lemma add_folder_step note st :
  build_step st (add_folder note st) (if has_folder note then 1 else 0).
Proof.
  unfold add_folder, has_folder.
  destruct (negb _ && negb _); [|apply build_step_refl].
  destruct (b_folderNodes st !! getFolder (Note.path note)); split; simpl;
    rewrite ?length_app; try done.
  - intros x Hx. unfold ids. simpl. rewrite fmap_app. apply elem_of_app. by left.
  - rewrite filter_app, filter_cons_False, filter_nil, app_nil_r; done.
Qed.

Lemma add_folder_inv note st :
  Note.path note ∈ ids st -> build_inv st -> build_inv (add_folder note st).
Proof.
  intros Hp [A B C D]. unfold add_folder.
  destruct (negb _ && negb _); [|done].
  destruct (b_folderNodes st !! getFolder (Note.path note)) eqn:E;
    split; simpl; unfold ids; simpl;
    rewrite ?fmap_app; try setoid_rewrite elem_of_app; try done.
  - intros e [He | ->%list_elem_of_singleton]; [by apply A | done].
  - intros e [He | ->%list_elem_of_singleton] Hs; [by apply B|].
    simpl. apply D. by rewrite E.
  - intros e [He | ->%list_elem_of_singleton]; left; [by apply A | done].
  - intros e [He | ->%list_elem_of_singleton] Hs; [left; by apply B|].
    right. simpl. left.
  - intros t Ht. left. by apply C.
  - intros f Hf. destruct (decide (getFolder (Note.path note) = f)) as [<-|Hne].
    + right. simpl. left.
    + left. apply D. by rewrite lookup_insert_ne in Hf.
Qed.

(** Folding a step that appends one edge over a list. *)
Lemma foldl_step {X} (f : build_state -> X -> build_state) (xs : list X) st :
  (∀ s x, build_step s (f s x) 1) ->
  build_step st (foldl f st xs) (length xs).
Proof.
  intros Hf. revert st. induction xs as [|x xs IH]; intros st; simpl.
  - apply build_step_refl.
  - apply (build_step_trans _ _ _ 1 _ (Hf st x) (IH _)).
Qed.

Lemma foldl_inv {X} (f : build_state -> X -> build_state) (xs : list X) st p :
  (∀ s x, build_step s (f s x) 1) ->
  (∀ s x, p ∈ ids s -> build_inv s -> build_inv (f s x)) ->
  p ∈ ids st -> build_inv st -> build_inv (foldl f st xs).
Proof.
  intros Hstep Hf. revert st. induction xs as [|x xs IH]; intros st Hp Hinv;
    simpl; [done|].
  apply IH; [|by apply Hf]. by apply (step_ids _ _ _ (Hstep st x)).
Qed.

(** The number of edges one note contributes. *)
Definition note_edge_count (note : Note.t) : nat :=
  (length (default [] (Note.links note))
   + length (default [] (Note.tags note))
   + (if has_folder note then 1 else 0))%nat.

Definition push_note (st : build_state) (note : Note.t) : build_state :=
  mk_build (b_nodes st ++ [note_graph_node note]) (b_edges st)
           (b_tagNodes st) (b_folderNodes st).

Lemma build_note_unfold notes st note :
  build_note notes st note =
  add_folder note
    (foldl (add_tag note)
       (foldl (add_link notes note) (push_note st note)
              (default [] (Note.links note)))
       (default [] (Note.tags note))).
Proof.
  unfold build_note. f_equal.
  destruct (Note.links note), (Note.tags note); done.
Qed.

Lemma build_note_after_push notes st note :
  build_step (push_note st note) (build_note notes st note)
             (note_edge_count note).
Proof.
  rewrite build_note_unfold. unfold note_edge_count.
  eapply build_step_trans; [eapply build_step_trans|].
  - apply foldl_step. intros. apply add_link_step.
  - apply foldl_step. intros. apply add_tag_step.
  - apply add_folder_step.
Qed.

Lemma build_note_inv notes st note :
  build_inv st -> build_inv (build_note notes st note).
Proof.
  intros [A B C D].
  assert (Note.path note ∈ ids (push_note st note)) as Hp.
  { unfold ids. simpl. rewrite fmap_app. apply elem_of_app. right. left. }
  assert (build_inv (push_note st note)) as Hinv.
  { split; simpl; unfold ids; simpl; rewrite ?fmap_app;
      intros; apply elem_of_app; left; auto. }
  rewrite build_note_unfold.
  set (st1 := foldl (add_link notes note) _ _).
  assert (build_step (push_note st note) st1 (length (default [] (Note.links note))))
    as Hs1 by (apply foldl_step; intros; apply add_link_step).
  assert (build_inv st1) as Hi1.
  { apply (foldl_inv _ _ _ (Note.path note)); try done.
    - intros. apply add_link_step.
    - intros. by apply add_link_inv. }
  set (st2 := foldl (add_tag note) st1 _).
  assert (build_step st1 st2 (length (default [] (Note.tags note))))
    as Hs2 by (apply foldl_step; intros; apply add_tag_step).
  assert (build_inv st2) as Hi2.
  { apply (foldl_inv _ _ _ (Note.path note)); try done.
    - intros. apply add_tag_step.
    - intros. by apply add_tag_inv.
    - by apply (step_ids _ _ _ Hs1). }
  apply add_folder_inv; [|done].
  by apply (step_ids _ _ _ Hs2), (step_ids _ _ _ Hs1).
Qed.

Lemma build_loop_spec notes vals st :
  let st' := build_loop notes vals st in
  (∀ x, x ∈ ids st -> x ∈ ids st') ∧
  (∀ n, n ∈ vals -> Note.path n ∈ ids st') ∧
  length (filter is_note_node (b_nodes st')) =
    (length (filter is_note_node (b_nodes st)) + length vals)%nat ∧
  length (b_edges st') =
    (length (b_edges st) + sum_list (note_edge_count <$> vals))%nat ∧
  (build_inv st -> build_inv st').
Proof.
  unfold build_loop. revert st.
  induction vals as [|n vals IH]; intros st; simpl.
  - split_and!; try done; try lia. by intros ? ?%elem_of_nil.
  - destruct (IH (build_note notes st n)) as (A & B & C & D & E).
    pose proof (build_note_after_push notes st n) as [S1 S2 S3].
    assert (∀ x, x ∈ ids (push_note st n) -> x ∈ ids (foldl (build_note notes)
              (build_note notes st n) vals)) as Hmono by auto.
    split_and!.
    + intros x Hx. apply Hmono. unfold ids. simpl. rewrite fmap_app.
      apply elem_of_app. by left.
    + intros n' [->|Hn']%elem_of_cons; [|by apply B].
      apply Hmono. unfold ids. simpl. rewrite fmap_app.
      apply elem_of_app. right. left.
    + rewrite C, S2. simpl.
      rewrite filter_app, filter_cons_True, filter_nil, length_app by done.
      simpl. lia.
    + rewrite D, S3. simpl. by rewrite <- Nat.add_assoc.
    + intros Hinv. by apply E, build_note_inv.
Qed.

(** C7: [totalNodes] is the number of note-kind nodes of the built graph,
    which is the number of notes of the snapshot (tag and folder nodes are
    left out), and [totalEdges] is the length of the whole edge list: one
    edge per link, per tag and per folder membership. *)
Theorem analyzeGraph_totals (ns : list Note.t) :
  let notes := updateNotes ns in
  let a := analyzeGraph notes in
  let g := buildGraph notes in
  GraphAnalysis.totalNodes a =
    Z.of_nat (length (filter is_note_node (KnowledgeGraph.nodes g))) ∧
  GraphAnalysis.totalNodes a = Z.of_nat (length (map_values notes)) ∧
  GraphAnalysis.totalEdges a = Z.of_nat (length (KnowledgeGraph.edges g)) ∧
  GraphAnalysis.totalEdges a =
    Z.of_nat (sum_list (note_edge_count <$> map_values notes)).
Proof.
  intros notes a g.
  destruct (build_loop_spec notes (map_values notes) (mk_build [] [] ∅ ∅))
    as (_ & _ & C & D & _).
  unfold a, analyzeGraph, g, buildGraph. simpl in *.
  split_and!; try done.
  - unfold is_note_node in C. by rewrite C.
  - by rewrite D.
Qed.

Definition node_ids (g : KnowledgeGraph.t) : list string :=
  GraphNode.id <$> KnowledgeGraph.nodes g.

(** The invariant as the data model words it: both endpoints of every edge
    are ids of nodes of the same graph. *)
Definition endpoints_are_nodes (g : KnowledgeGraph.t) : Prop :=
  ∀ e, e ∈ KnowledgeGraph.edges g ->
       GraphEdge.source e ∈ node_ids g ∧ GraphEdge.target e ∈ node_ids g.

(** A note whose only link names a note that was never written. *)
Definition draft_note : Note.t :=
  Note.mk "a.md" "A" "see [[ghost]]" None
          (Some [Link.mk "a.md" "ghost" internal]) None.

Definition tagged_note : Note.t :=
  Note.mk "work/plan.md" "Plan" "plan" (Some ["todo"])
          (Some [Link.mk "work/plan.md" "A" internal]) None.

(** C1, as stated, fails: the edge of a link to a missing note ends at the
    normalized target, which is the id of no node. *)
Lemma buildGraph_dangling_edge :
  ¬ endpoints_are_nodes (buildGraph (updateNotes [draft_note])).
Proof.
  intros H.
  destruct (H (GraphEdge.mk "a.md" "ghost.md" "internal" 1)) as [_ Ht].
  - vm_compute. left.
  - vm_compute in Ht. apply list_elem_of_singleton in Ht. discriminate.
Qed.

(** C1, amended: in the graph returned by [buildGraph], the source of every
    edge is the id of a node of that graph, and so is the target of every
    tagged-with edge, of every in-folder edge, and of every edge whose
    target is the path of a note of the snapshot. *)
Theorem buildGraph_endpoints (ns : list Note.t) (e : GraphEdge.t) :
  let notes := updateNotes ns in
  let g := buildGraph notes in
  e ∈ KnowledgeGraph.edges g ->
  GraphEdge.source e ∈ node_ids g ∧
  (synthetic e ∨ is_Some (map_get notes (GraphEdge.target e)) ->
   GraphEdge.target e ∈ node_ids g).
Proof.
  intros notes g He. pose proof (updateNotes_wf ns) as Hwf. fold notes in Hwf.
  destruct (build_loop_spec notes (map_values notes) (mk_build [] [] ∅ ∅))
    as (_ & Hnotes & _ & _ & Hinv).
  destruct Hinv as [A B _ _].
  { split; simpl; try (by intros ? ?%elem_of_nil).
    - intros tag [? Ht]. by rewrite lookup_empty in Ht.
    - intros f [? Hf]. by rewrite lookup_empty in Hf. }
  unfold g, buildGraph, node_ids in *. simpl in *.
  split; [by apply A|].
  intros [Hs|[n Hn]]; [by apply B|].
  apply snapshot_get_path in Hn as [Hp Hin]; [|done].
  rewrite <- Hp. by apply Hnotes.
Qed.

Lemma buildGraph_endpoints_witness :
  let g := buildGraph (updateNotes [draft_note; tagged_note]) in
  let e := GraphEdge.mk "work/plan.md" "a.md" "internal" 1 in
  GraphEdge.source e ∈ node_ids g ∧
  (synthetic e ∨
   is_Some (map_get (updateNotes [draft_note; tagged_note])
                    (GraphEdge.target e)) ->
   GraphEdge.target e ∈ node_ids g).
Proof.
  apply (buildGraph_endpoints [draft_note; tagged_note]).
  vm_compute. right. left.
Defined.

(** ** Bounded-depth traversal *)

Lemma foldl_preserve {S X} (P : S -> Prop) (f : S -> X -> S) (l : list X) s :
  (∀ s x, P s -> P (f s x)) -> P s -> P (foldl f s l).
Proof.
  intros Hf. revert s. induction l as [|x l IH]; intros s Hs; simpl; auto.
Qed.

Lemma foldl_agree {S X} (f g : S -> X -> S) (l : list X) s :
  (∀ s x, f s x = g s x) -> foldl f s l = foldl g s l.
Proof.
  intros Hfg. revert s. induction l as [|x l IH]; intros s; simpl; [done|].
  by rewrite Hfg, IH.
Qed.

(** The fuel is never what stops [traverse]: any two amounts that cover the
    levels left below [maxDepth] give the same state. *)
Lemma traverse_fuel notes maxDepth (f1 f2 : nat) path depth st :
  (Z.to_nat (maxDepth + 1 - depth) <= f1)%nat ->
  (Z.to_nat (maxDepth + 1 - depth) <= f2)%nat ->
  traverse f1 notes maxDepth path depth st =
  traverse f2 notes maxDepth path depth st.
Proof.
  revert f2 path depth st.
  induction f1 as [|f1 IH]; intros f2 path depth st H1 H2.
  - assert (depth > maxDepth) as Hd by lia.
    destruct f2 as [|f2]; simpl; [done|].
    destruct (Z.gtb_spec depth maxDepth); [done | lia].
  - destruct f2 as [|f2].
    + assert (depth > maxDepth) as Hd by lia. simpl.
      destruct (Z.gtb_spec depth maxDepth); [done | lia].
    + simpl. destruct (Z.gtb_spec depth maxDepth) as [Hgt|Hle]; [done|].
      simpl. case_bool_decide; [done|].
      destruct (map_get notes path) as [note|]; [|done].
      assert (∀ p s, traverse f1 notes maxDepth p (depth + 1) s =
                     traverse f2 notes maxDepth p (depth + 1) s) as Heq.
      { intros p s. apply IH; lia. }
      destruct (Note.links note) as [ls|], (Note.backlinks note) as [bs|];
        try done.
      * rewrite (foldl_agree
                   (fun s link => traverse f1 notes maxDepth
                      (resolveNotePath notes (Link.target link)) (depth + 1) s)
                   (fun s link => traverse f2 notes maxDepth
                      (resolveNotePath notes (Link.target link)) (depth + 1) s))
          by (intros; apply Heq).
        apply foldl_agree. intros; apply Heq.
      * apply foldl_agree. intros; apply Heq.
      * apply foldl_agree. intros; apply Heq.
Qed.

(** In particular [related] does not depend on the fuel that
    [getRelatedNotes] picks: any larger amount gives the same set. *)
Lemma related_fuel notes start maxDepth (fuel : nat) :
  (Z.to_nat (maxDepth + 2) <= fuel)%nat ->
  t_related (traverse fuel notes maxDepth start 0 (mk_trav [] ∅)) =
  related notes start maxDepth.
Proof.
  intros Hf. unfold related. f_equal. apply traverse_fuel; lia.
Qed.

(** An invariant of the traversal state is kept by [traverse] as soon as it
    is kept by the two updates: marking a path visited, and adding the path
    of a note found at a depth between 1 and [maxDepth]. *)
Lemma traverse_inv (P : trav_state -> Prop) notes maxDepth :
  (∀ st path, path ∉ t_visited st -> P st ->
              P (mk_trav (t_related st) ({[path]} ∪ t_visited st))) ->
  (∀ st path depth note,
      0 < depth <= maxDepth -> map_get notes path = Some note ->
      path ∈ t_visited st -> P st ->
      P (mk_trav (set_add path (t_related st)) (t_visited st))) ->
  ∀ fuel path depth st,
    P st -> P (traverse fuel notes maxDepth path depth st).
Proof.
  intros Hvisit Hadd. induction fuel as [|fuel IH]; intros path depth st Hst;
    simpl; [done|].
  destruct (Z.gtb_spec depth maxDepth) as [Hgt|Hle]; [done|]. simpl.
  case_bool_decide as Hv; [done|].
  destruct (map_get notes path) as [note|] eqn:Hget; [|by apply Hvisit].
  assert (P (if depth >? 0
             then mk_trav (set_add path (t_related st))
                          ({[path]} ∪ t_visited st)
             else mk_trav (t_related st) ({[path]} ∪ t_visited st))) as H2.
  { destruct (Z.gtb_spec depth 0) as [Hpos|Hz]; [|by apply Hvisit].
    pose proof (Hadd (mk_trav (t_related st) ({[path]} ∪ t_visited st))
                     path depth note) as H.
    simpl in H. apply H; [lia | done | set_solver | by apply Hvisit]. }
  destruct (Note.links note) as [ls|], (Note.backlinks note) as [bs|];
    simpl; try done;
    repeat (apply foldl_preserve; [intros; by apply IH|]); done.
Qed.

(** Only paths of notes of the snapshot are ever added to [related]. *)
Lemma related_known notes start maxDepth p :
  p ∈ related notes start maxDepth -> is_Some (map_get notes p).
Proof.
  unfold related.
  set (P := fun st : trav_state =>
              ∀ p, p ∈ t_related st -> is_Some (map_get notes p)).
  assert (P (traverse (Z.to_nat (maxDepth + 2)) notes maxDepth start 0
                      (mk_trav [] ∅))) as HP; [|by apply HP].
  apply traverse_inv; unfold P; simpl.
  - done.
  - intros st path depth note _ Hget _ Hst q. unfold set_add.
    case_bool_decide; [by apply Hst|].
    intros [Hq | ->%list_elem_of_singleton]%elem_of_app; [by apply Hst | eauto].
  - by intros q ?%elem_of_nil.
Qed.

(** With a depth bound of zero, or a negative one, nothing is related. *)
Lemma related_depth_zero notes start maxDepth :
  maxDepth <= 0 -> related notes start maxDepth = [].
Proof.
  intros Hd. unfold related.
  apply (traverse_inv (fun st => t_related st = []) notes maxDepth);
    simpl; try done.
  intros st path depth note Hdepth. lia.
Qed.

(** C10: every note returned by [getRelatedNotes] is a note of the
    snapshot, and an id that names no note of the snapshot (an unmatched
    link target, or the source of a stale backlink) is never in the
    related set and never the path of a returned note. *)
Theorem getRelatedNotes_present (ns : list Note.t) (start : string)
    (maxDepth : Z) :
  let notes := updateNotes ns in
  (∀ n, n ∈ getRelatedNotes notes start maxDepth ->
        n ∈ map_values notes ∧ map_get notes (Note.path n) = Some n) ∧
  (∀ p, map_get notes p = None ->
        (p ∉ related notes start maxDepth) ∧
        (p ∉ (Note.path <$> getRelatedNotes notes start maxDepth))) ∧
  (Note.path <$> getRelatedNotes notes start maxDepth) =
    related notes start maxDepth.
Proof.
  intros notes. pose proof (updateNotes_wf ns) as Hwf. fold notes in Hwf.
  assert (∀ n, n ∈ getRelatedNotes notes start maxDepth ->
               n ∈ map_values notes ∧ map_get notes (Note.path n) = Some n)
    as Hres.
  { intros n (p & Hp & Hget)%list_elem_of_omap.
    destruct (snapshot_get_path notes p n Hwf Hget) as [<- Hin]. done. }
  split_and!; [done | |].
  - intros p Hnone. split.
    + intros [n Hn]%related_known. congruence.
    + intros (n & -> & [_ Hn]%Hres)%list_elem_of_fmap. congruence.
  - unfold getRelatedNotes.
    assert (∀ l : list string,
              (∀ p, p ∈ l -> is_Some (map_get notes p)) ->
              Note.path <$> omap (map_get notes) l = l) as Hall.
    { induction l as [|p l IH]; intros Hl; simpl; [done|].
      destruct (Hl p) as [n Hn]; [left|]. rewrite Hn. simpl.
      destruct (snapshot_get_path notes p n Hwf Hn) as [-> _].
      f_equal. apply IH. intros q Hq. apply Hl. by right. }
    apply Hall. intros p. apply related_known.
Qed.

(** ** Stable sort by a comparator that is a total preorder *)

(** [a] may stand in front of [b] in an array sorted by [cmp]. *)
Definition before {A} (cmp : A -> A -> Z) (a b : A) : Prop := cmp a b <= 0.

Section SortSorted.
Context {A : Type} (cmp : A -> A -> Z).
Hypothesis cmp_trans : ∀ a b c, cmp a b <= 0 -> cmp b c <= 0 -> cmp a c <= 0.
Hypothesis cmp_total : ∀ a b, cmp a b <= 0 ∨ cmp b a <= 0.

Lemma sort_insert_sorted (x : A) (l : list A) :
  StronglySorted (before cmp) l -> StronglySorted (before cmp) (JS.sort_insert cmp x l).
Proof.
  induction 1 as [|y l Hl IH Hy]; simpl.
  - repeat constructor.
  - destruct (Z.leb_spec (cmp x y) 0) as [Hxy|Hxy].
    + constructor; [by constructor|]. constructor; [done|].
      eapply Forall_impl; [exact Hy|]. intros z Hz. by eapply cmp_trans.
    + constructor; [done|]. apply Forall_forall. intros z Hz.
      rewrite sort_insert_perm in Hz. apply elem_of_cons in Hz as [->|Hz].
      * unfold before. destruct (cmp_total x y); [lia | done].
      * by eapply Forall_forall in Hy.
Qed.

Lemma sort_sorted (l : list A) : StronglySorted (before cmp) (JS.sort cmp l).
Proof.
  induction l as [|x l IH]; simpl; [constructor | by apply sort_insert_sorted].
Qed.

Lemma sorted_lookup (l : list A) (i j : nat) (a b : A) :
  StronglySorted (before cmp) l -> (i < j)%nat ->
  l !! i = Some a -> l !! j = Some b -> cmp a b <= 0.
Proof.
  intros Hl. revert i j. induction Hl as [|x l Hl IH Hx]; intros i j Hij Hi Hj.
  - done.
  - destruct j as [|j]; [lia|]. simpl in Hj. destruct i as [|i]; simpl in Hi.
    + injection Hi as ->. eapply Forall_forall in Hx; [exact Hx|].
      by eapply list_elem_of_lookup_2.
    + apply (IH i j); [lia | done | done].
Qed.
End SortSorted.

(** ** Relatedness scorer *)

(** [scores.get(p) || 0] *)
Definition score_of (scores : list (string * Z)) (p : string) : Z :=
  default 0 (map_get scores p).

(** The three passes share one shape: every note other than the source that
    earns [pts > 0] has [pts] added to its entry. *)
Definition score_step (notePath : string) (pts : Note.t -> Z)
    (scores : list (string * Z)) (otherNote : Note.t) : list (string * Z) :=
  if String.eqb (Note.path otherNote) notePath then scores
  else if pts otherNote >? 0
       then bump scores (Note.path otherNote) (pts otherNote)
       else scores.

Definition tag_points (noteTags : list string) (otherNote : Note.t) : Z :=
  match Note.tags otherNote with
  | Some otherTags =>
      Z.of_nat (length (List.filter (includes otherTags) noteTags)) * 10
  | None => 0
  end.

Definition title_points (noteWords : list string) (otherNote : Note.t) : Z :=
  Z.of_nat (length (List.filter (common_word noteWords)
                      (JS.split_ws (JS.toLowerCase (Note.title otherNote)))))
  * 5.

Definition folder_points (folder : string) (otherNote : Note.t) : Z :=
  if String.eqb (getFolder (Note.path otherNote)) folder then 3 else 0.

Lemma score_tags_step notePath noteTags scores other :
  score_tags notePath noteTags scores other =
  score_step notePath (tag_points noteTags) scores other.
Proof.
  unfold score_tags, score_step, tag_points.
  destruct (String.eqb _ notePath); [done|].
  destruct (Note.tags other) as [ot|]; [|done].
  destruct (Z.gtb_spec (Z.of_nat (length (List.filter (includes ot) noteTags))) 0),
    (Z.gtb_spec (Z.of_nat (length (List.filter (includes ot) noteTags)) * 10) 0);
    try done; lia.
Qed.

Lemma score_title_step notePath noteWords scores other :
  score_title notePath noteWords scores other =
  score_step notePath (title_points noteWords) scores other.
Proof.
  unfold score_title, score_step, title_points.
  destruct (String.eqb _ notePath); [done|].
  set (n := Z.of_nat _).
  destruct (Z.gtb_spec n 0), (Z.gtb_spec (n * 5) 0); try done; lia.
Qed.

Lemma score_folder_step notePath folder scores other :
  score_folder notePath folder scores other =
  score_step notePath (folder_points folder) scores other.
Proof.
  unfold score_folder, score_step, folder_points.
  destruct (String.eqb _ notePath); [done|].
  by destruct (String.eqb _ folder).
Qed.

Lemma tag_points_nonneg noteTags other : 0 <= tag_points noteTags other.
Proof. unfold tag_points. destruct (Note.tags other); lia. Qed.

Lemma title_points_nonneg noteWords other : 0 <= title_points noteWords other.
Proof. unfold title_points. lia. Qed.

Lemma folder_points_nonneg folder other : 0 <= folder_points folder other.
Proof. unfold folder_points. destruct (String.eqb _ folder); lia. Qed.

Section ScorePass.
Context (notePath : string) (pts : Note.t -> Z).
Hypothesis pts_nonneg : ∀ c, 0 <= pts c.

(** What one pass adds to the entry of [p]. *)
Fixpoint pass_points (p : string) (vals : list Note.t) : Z :=
  match vals with
  | [] => 0
  | c :: vals' =>
      (if String.eqb (Note.path c) p && negb (String.eqb p notePath)
       then pts c else 0) + pass_points p vals'
  end.

Lemma score_step_value scores c p :
  score_of (score_step notePath pts scores c) p =
  score_of scores p +
  (if String.eqb (Note.path c) p && negb (String.eqb p notePath)
   then pts c else 0).
Proof.
  unfold score_step, score_of, bump.
  destruct (String.eqb_spec (Note.path c) notePath) as [E|E].
  - destruct (String.eqb_spec (Note.path c) p) as [E'|E']; simpl; [|lia].
    rewrite <- E', E, String.eqb_refl. simpl. lia.
  - destruct (Z.gtb_spec (pts c) 0) as [Hpos|Hz].
    + rewrite map_get_set.
      destruct (String.eqb_spec (Note.path c) p) as [E'|E']; simpl; [|lia].
      rewrite <- E'. destruct (String.eqb_spec (Note.path c) notePath); [done|].
      done.
    + pose proof (pts_nonneg c).
      destruct (String.eqb (Note.path c) p && negb (String.eqb p notePath));
        lia.
Qed.

Lemma pass_value vals scores p :
  score_of (foldl (score_step notePath pts) scores vals) p =
  score_of scores p + pass_points p vals.
Proof.
  revert scores. induction vals as [|c vals IH]; intros scores; simpl; [lia|].
  rewrite IH, score_step_value. lia.
Qed.

Lemma pass_points_nonneg p vals : 0 <= pass_points p vals.
Proof.
  induction vals as [|c vals IH]; simpl; [lia|].
  pose proof (pts_nonneg c). destruct (_ && _); lia.
Qed.

Lemma pass_points_absent p vals :
  p ∉ (Note.path <$> vals) -> pass_points p vals = 0.
Proof.
  induction vals as [|c vals IH]; simpl; [done|].
  rewrite not_elem_of_cons. intros [Hne Hp].
  destruct (String.eqb_spec (Note.path c) p); [done|]. simpl. by rewrite IH.
Qed.

Lemma pass_points_unique c vals :
  NoDup (Note.path <$> vals) -> c ∈ vals ->
  pass_points (Note.path c) vals =
  if String.eqb (Note.path c) notePath then 0 else pts c.
Proof.
  induction vals as [|h vals IH]; simpl; intros Hnd Hin.
  - by apply elem_of_nil in Hin.
  - apply NoDup_cons in Hnd as [Hh Hnd].
    apply elem_of_cons in Hin as [->|Hin].
    + rewrite String.eqb_refl, pass_points_absent by done. simpl.
      destruct (String.eqb (Note.path h) notePath); simpl; lia.
    + destruct (String.eqb_spec (Note.path h) (Note.path c)) as [E|E].
      * exfalso. apply Hh. rewrite E. apply list_elem_of_fmap. by exists c.
      * simpl. by rewrite IH.
Qed.

Lemma score_step_keys scores c p :
  p ∈ (score_step notePath pts scores c).*1 ->
  p ∈ scores.*1 ∨ (p = Note.path c ∧ p ≠ notePath).
Proof.
  unfold score_step, bump.
  destruct (String.eqb_spec (Note.path c) notePath) as [E|E]; [auto|].
  destruct (pts c >? 0); [|auto].
  intros ([k v] & -> & Hin)%list_elem_of_fmap.
  apply map_set_elem in Hin as [[= -> ->]|Hin]; [by right|].
  left. apply list_elem_of_fmap. by exists (k, v).
Qed.

Lemma pass_keys vals scores p :
  p ∈ (foldl (score_step notePath pts) scores vals).*1 ->
  p ∈ scores.*1 ∨ (p ∈ (Note.path <$> vals) ∧ p ≠ notePath).
Proof.
  revert scores. induction vals as [|c vals IH]; intros scores; simpl; [auto|].
  intros [[Hp|[-> Hne]]%score_step_keys|[Hp Hne]]%IH; [by left | |].
  - right. split; [left | done].
  - right. split; [by right | done].
Qed.

Lemma pass_NoDup vals scores :
  NoDup scores.*1 -> NoDup (foldl (score_step notePath pts) scores vals).*1.
Proof.
  revert scores. induction vals as [|c vals IH]; intros scores Hnd; simpl;
    [done|].
  apply IH. unfold score_step, bump.
  destruct (String.eqb _ notePath); [done|].
  destruct (pts c >? 0); [|done]. by apply map_set_NoDup.
Qed.
End ScorePass.

Lemma pass_positive notePath pts vals (scores : list (string * Z)) :
  (∀ p s, (p, s) ∈ scores -> 0 < s) ->
  ∀ p s, (p, s) ∈ foldl (score_step notePath pts) scores vals -> 0 < s.
Proof.
  revert scores. induction vals as [|c vals IH]; intros scores Hpos; simpl;
    [done|].
  apply IH. unfold score_step, bump.
  destruct (String.eqb _ notePath); [done|].
  destruct (Z.gtb_spec (pts c) 0) as [Hc|Hc]; [|done].
  intros p s [[= -> ->]|Hin]%map_set_elem; [|by eapply Hpos].
  destruct (map_get scores (Note.path c)) as [v|] eqn:E; simpl; [|lia].
  apply map_get_Some_elem, Hpos in E. lia.
Qed.

(** The score the three passes accumulate for a candidate. *)
Definition accumulated (note : Note.t) (notePath : string) (c : Note.t) : Z :=
  match Note.tags note with
  | Some noteTags => tag_points noteTags c
  | None => 0
  end
  + title_points (JS.split_ws (JS.toLowerCase (Note.title note))) c
  + folder_points (getFolder notePath) c.

Lemma suggest_scores_passes notes notePath note :
  suggest_scores notes notePath note =
  foldl (score_step notePath (folder_points (getFolder notePath)))
    (foldl (score_step notePath
              (title_points (JS.split_ws (JS.toLowerCase (Note.title note)))))
       (match Note.tags note with
        | Some noteTags =>
            foldl (score_step notePath (tag_points noteTags)) []
                  (map_values notes)
        | None => []
        end)
       (map_values notes))
    (map_values notes).
Proof.
  unfold suggest_scores.
  rewrite (foldl_agree (score_folder _ _) (score_step notePath
             (folder_points (getFolder notePath))))
    by (intros; apply score_folder_step).
  f_equal.
  rewrite (foldl_agree (score_title _ _) (score_step notePath
             (title_points (JS.split_ws (JS.toLowerCase (Note.title note))))))
    by (intros; apply score_title_step).
  f_equal. destruct (Note.tags note) as [nt|]; [|done].
  apply foldl_agree. intros; apply score_tags_step.
Qed.

Lemma suggest_scores_spec notes notePath note :
  snapshot_wf notes ->
  let sc := suggest_scores notes notePath note in
  NoDup sc.*1 ∧
  (∀ p s, (p, s) ∈ sc ->
          0 < s ∧ p ≠ notePath ∧
          ∃ c, map_get notes p = Some c ∧ s = accumulated note notePath c).
Proof.
  intros Hwf sc. unfold sc. rewrite suggest_scores_passes.
  set (vals := map_values notes).
  set (s1 := match Note.tags note with
             | Some nt => foldl (score_step notePath (tag_points nt)) [] vals
             | None => []
             end).
  set (words := JS.split_ws (JS.toLowerCase (Note.title note))).
  set (s2 := foldl (score_step notePath (title_points words)) s1 vals).
  set (s3 := foldl (score_step notePath (folder_points (getFolder notePath)))
                   s2 vals).
  assert (NoDup s1.*1) as Hnd1.
  { unfold s1. destruct (Note.tags note); [|constructor].
    apply pass_NoDup. constructor. }
  assert (NoDup s3.*1) as Hnd3 by (by do 2 apply pass_NoDup).
  assert (∀ p s, (p, s) ∈ s1 -> 0 < s) as Hpos1.
  { unfold s1. destruct (Note.tags note); [|by intros ?? ?%elem_of_nil].
    apply pass_positive. by intros ?? ?%elem_of_nil. }
  assert (∀ p, p ∈ s1.*1 -> p ∈ (Note.path <$> vals) ∧ p ≠ notePath) as Hk1.
  { unfold s1. destruct (Note.tags note); [|by intros ? ?%elem_of_nil].
    intros p [?%elem_of_nil|?]%pass_keys; done. }
  assert (∀ p, p ∈ s3.*1 -> p ∈ (Note.path <$> vals) ∧ p ≠ notePath) as Hk3.
  { intros p [[Hp|Hp]%pass_keys|Hp]%pass_keys; auto. }
  assert (∀ p, score_of s1 p =
               match Note.tags note with
               | Some nt => pass_points notePath (tag_points nt) p vals
               | None => 0
               end) as Hv1.
  { intros p. unfold s1. destruct (Note.tags note); [|done].
    by rewrite pass_value by apply tag_points_nonneg. }
  split; [done|]. intros p s Hin.
  split; [|split].
  - revert Hin. by do 2 apply pass_positive.
  - apply (Hk3 p). apply list_elem_of_fmap. by exists (p, s).
  - destruct (Hk3 p) as [Hp Hne]; [apply list_elem_of_fmap; by exists (p, s)|].
    apply list_elem_of_fmap in Hp as (c & -> & Hc).
    exists c. split; [by apply snapshot_get_value|].
    assert (score_of s3 (Note.path c) = s) as <-.
    { unfold score_of. by rewrite (map_get_NoDup s3 _ s). }
    pose proof (snapshot_paths_NoDup notes Hwf) as Hnd. fold vals in Hnd.
    unfold s3, s2.
    rewrite !pass_value, Hv1
      by (apply folder_points_nonneg || apply title_points_nonneg).
    unfold accumulated.
    rewrite !pass_points_unique by done.
    destruct (Note.tags note) as [nt|];
      [rewrite pass_points_unique by done|];
      destruct (String.eqb_spec (Note.path c) notePath); done.
Qed.

(** The relatedness score as the scorer's contract words it. *)
Definition tag_set (n : Note.t) : gset string :=
  list_to_set (default [] (Note.tags n)).

Definition title_words (n : Note.t) : list string :=
  JS.split_ws (JS.toLowerCase (Note.title n)).

Definition shared_word (n : Note.t) (w : string) : Prop :=
  (3 < String.length w)%nat ∧ w ∈ title_words n.

#[global] Instance shared_word_dec n w : Decision (shared_word n w).
Proof. unfold shared_word. apply _. Defined.

Definition folder_of (n : Note.t) : string := getFolder (Note.path n).

Definition relatedness (n c : Note.t) : Z :=
  10 * Z.of_nat (size (tag_set n ∩ tag_set c))
  + 5 * Z.of_nat (length (filter (shared_word n) (title_words c)))
  + (if decide (folder_of c = folder_of n) then 3 else 0).

Lemma shared_tags_size (l1 l2 : list string) :
  NoDup l1 ->
  length (List.filter (includes l2) l1) =
  size (list_to_set l1 ∩ list_to_set l2 : gset string).
Proof.
  induction 1 as [|x l1 Hx Hnd IH]; simpl.
  - by rewrite intersection_empty_l_L, size_empty.
  - unfold includes at 1. case_bool_decide as Hin; simpl.
    + replace (({[x]} ∪ list_to_set l1) ∩ list_to_set l2 : gset string)
        with ({[x]} ∪ (list_to_set l1 ∩ list_to_set l2) : gset string)
        by set_solver.
      rewrite size_union, size_singleton, IH; [done|]. set_solver.
    + rewrite IH. f_equal. set_solver.
Qed.

Lemma shared_words_length (n : Note.t) (ws : list string) :
  length (List.filter (common_word (title_words n)) ws) =
  length (filter (shared_word n) ws).
Proof.
  induction ws as [|w ws IH]; simpl; [done|].
  rewrite filter_cons. unfold common_word at 1, includes, shared_word at 1.
  case_bool_decide as Hin; simpl.
  - destruct (Z.gtb_spec (Z.of_nat (String.length w)) 3) as [Hl|Hl].
    + rewrite decide_True by (split; [lia | done]). simpl. by rewrite IH.
    + rewrite decide_False by (intros [? _]; lia). done.
  - rewrite decide_False by (by intros [_ ?]). done.
Qed.

Lemma accumulated_relatedness (n c : Note.t) :
  NoDup (default [] (Note.tags n)) ->
  accumulated n (Note.path n) c = relatedness n c.
Proof.
  intros Hnd. unfold accumulated, relatedness, tag_set, folder_of.
  f_equal; [f_equal|].
  - unfold tag_points.
    destruct (Note.tags n) as [nt|], (Note.tags c) as [ct|];
      cbn [default from_option id] in *; rewrite ?list_to_set_nil.
    + rewrite shared_tags_size by done. lia.
    + by rewrite intersection_empty_r_L, size_empty.
    + by rewrite intersection_empty_l_L, size_empty.
    + by rewrite intersection_empty_l_L, size_empty.
  - unfold title_points. fold (title_words n). fold (title_words c).
    rewrite shared_words_length. lia.
  - unfold folder_points.
    destruct (String.eqb_spec (getFolder (Note.path c)) (getFolder (Note.path n)));
      [by rewrite decide_True | by rewrite decide_False].
Qed.

(** C5: in a snapshot whose notes carry duplicate-free tag lists, every
    entry of [suggestRelatedNotes(n, k)] for a known note [n] names another
    note of the snapshot and carries 10 for each tag the two notes share,
    plus 5 for each occurrence, among the lowercased white-space tokens of
    the candidate's title, of a word longer than 3 that is also a token of
    [n]'s title, plus 3 when the two folders are equal; the score of an
    entry is strictly positive, so a candidate whose score is not is absent
    from the result. *)
Theorem suggestRelatedNotes_scores (ns : list Note.t) (p0 : string) (k : Z)
    (n : Note.t) :
  let notes := updateNotes ns in
  (∀ m, m ∈ map_values notes -> NoDup (default [] (Note.tags m))) ->
  map_get notes p0 = Some n ->
  (∀ p s, (p, s) ∈ suggestRelatedNotes notes p0 k ->
          ∃ c, map_get notes p = Some c ∧ p ≠ p0 ∧
               s = relatedness n c ∧ 0 < s) ∧
  (∀ c, c ∈ map_values notes -> relatedness n c <= 0 ->
        Note.path c ∉ (suggestRelatedNotes notes p0 k).*1).
Proof.
  intros notes Htags Hn. pose proof (updateNotes_wf ns) as Hwf.
  fold notes in Hwf.
  destruct (snapshot_get_path notes p0 n Hwf Hn) as [Hp0 Hnin].
  assert (∀ p s, (p, s) ∈ suggestRelatedNotes notes p0 k ->
            ∃ c, map_get notes p = Some c ∧ p ≠ p0 ∧
                 s = relatedness n c ∧ 0 < s) as Hentries.
  { intros p s Hin. unfold suggestRelatedNotes in Hin. rewrite Hn in Hin.
    apply slice0_elem, sort_elem in Hin.
    destruct (suggest_scores_spec notes p0 n Hwf) as [_ Hsc].
    destruct (Hsc p s Hin) as (Hpos & Hne & c & Hc & Hs).
    exists c. split_and!; try done.
    rewrite Hs, <- Hp0. apply accumulated_relatedness. by apply Htags. }
  split; [done|].
  intros c Hc Hle ([p s] & Hp & Hin)%list_elem_of_fmap. simpl in Hp. subst p.
  destruct (Hentries _ _ Hin) as (c' & Hc' & _ & Hs & Hpos).
  rewrite (snapshot_get_value notes c Hwf Hc) in Hc'. injection Hc' as <-.
  lia.
Qed.

Definition project_plan : Note.t :=
  Note.mk "X.md" "Project Plan" "" (Some ["t1"; "t2"]) None None.

Definition project_notes : Note.t :=
  Note.mk "Y.md" "Project Notes" "" (Some ["t2"]) None None.

Definition meeting_notes : Note.t :=
  Note.mk "log/Z.md" "Meeting Notes" "" None None None.

Lemma suggestRelatedNotes_scores_witness :
  let notes := updateNotes [project_plan; project_notes; meeting_notes] in
  (∀ p s, (p, s) ∈ suggestRelatedNotes notes "X.md" 5 ->
          ∃ c, map_get notes p = Some c ∧ p ≠ "X.md" ∧
               s = relatedness project_plan c ∧ 0 < s) ∧
  (∀ c, c ∈ map_values notes -> relatedness project_plan c <= 0 ->
        Note.path c ∉ (suggestRelatedNotes notes "X.md" 5).*1).
Proof.
  apply (suggestRelatedNotes_scores
           [project_plan; project_notes; meeting_notes] "X.md" 5 project_plan).
  - apply Forall_forall. apply (bool_decide_unpack _). vm_compute. exact I.
  - vm_compute. reflexivity.
Defined.

Lemma suggest_scores_length notes notePath note :
  snapshot_wf notes ->
  (length (suggest_scores notes notePath note) <= length notes)%nat.
Proof.
  intros Hwf. destruct (suggest_scores_spec notes notePath note Hwf)
    as [Hkeys Hsc].
  set (sc := suggest_scores notes notePath note) in *.
  assert (length sc.*1 <= length notes.*1)%nat as H;
    [|by rewrite !length_fmap in H].
  apply submseteq_length, NoDup_submseteq; [done|].
  intros p ([p' s] & -> & Hps)%list_elem_of_fmap.
  destruct (Hsc _ _ Hps) as (_ & _ & c' & Hc' & _).
  apply map_get_is_Some. eauto.
Qed.

(** C6, amended: for every limit [k], the list returned by
    [suggestRelatedNotes(p, k)] has no entry for [p] itself and its scores
    never increase from one entry to a later one; for a limit that is not
    negative it has at most [k] entries; for a negative limit it is the
    full ranking (the result for a limit of the number of notes) without
    its last [-k] entries. *)
Theorem suggestRelatedNotes_ranked (ns : list Note.t) (p : string) (k : Z) :
  let notes := updateNotes ns in
  let r := suggestRelatedNotes notes p k in
  let full := suggestRelatedNotes notes p (Z.of_nat (length notes)) in
  (p ∉ r.*1) ∧
  (∀ i j a b, (i <= j)%nat -> r !! i = Some a -> r !! j = Some b ->
              b.2 <= a.2) ∧
  (0 <= k -> Z.of_nat (length r) <= k) ∧
  (k < 0 -> r = take (length full - Z.to_nat (- k)) full).
Proof.
  intros notes r full. pose proof (updateNotes_wf ns) as Hwf.
  fold notes in Hwf. unfold r, full, suggestRelatedNotes.
  destruct (map_get notes p) as [note|] eqn:Hget.
  - split_and!.
    + intros ([q s] & Hq & Hin)%list_elem_of_fmap. simpl in Hq. subst q.
      apply slice0_elem, sort_elem in Hin.
      destruct (suggest_scores_spec _ p note Hwf) as [_ Hsc].
      by destruct (Hsc p s Hin) as (_ & Hne & _).
    + intros i j a b Hij Ha Hb. unfold JS.slice0 in Ha, Hb.
      apply lookup_take_Some in Ha as [Ha _].
      apply lookup_take_Some in Hb as [Hb _].
      destruct (decide (i = j)) as [->|Hne].
      { rewrite Ha in Hb. injection Hb as ->. lia. }
      set (cmp := fun x y : string * Z => y.2 - x.2) in *.
      assert (∀ x y z, cmp x y <= 0 -> cmp y z <= 0 -> cmp x z <= 0) as Htrans
        by (unfold cmp; simpl; intros; lia).
      assert (∀ x y, cmp x y <= 0 ∨ cmp y x <= 0) as Htotal
        by (unfold cmp; simpl; intros; lia).
      assert (cmp a b <= 0) as H; [|unfold cmp in H; simpl in H; lia].
      eapply (sorted_lookup cmp _ i j a b); [|lia|exact Ha|exact Hb].
      by apply sort_sorted.
    + intros Hk. by apply slice0_length.
    + intros Hk.
      pose proof (suggest_scores_length notes p note Hwf) as Hlen.
      set (sorted := JS.sort (fun a b : string * Z => b.2 - a.2)
                             (suggest_scores notes p note)) in *.
      assert (length sorted = length (suggest_scores notes p note)) as Hs
        by (unfold sorted; by rewrite (sort_perm _ _)).
      unfold JS.slice0.
      destruct (Z.ltb_spec (Z.of_nat (length notes)) 0); [lia|].
      destruct (Z.ltb_spec k 0); [|lia].
      rewrite (take_ge sorted (Z.to_nat (Z.min _ _))) by lia.
      f_equal. lia.
  - split_and!; [by intros ?%elem_of_nil | by intros [|?] ?? | simpl; lia|].
    intros _. by rewrite take_nil.
Qed.

Definition project_review : Note.t :=
  Note.mk "W.md" "Project Review" "" (Some ["t1"]) None None.

(** C6, as stated, fails for a negative limit: [slice(0, -1)] keeps all
    entries of the ranking but the last, so the result for the limit [-1]
    has one entry, which is more than [-1]. *)
Theorem suggestRelatedNotes_negative_limit :
  let notes :=
    updateNotes [project_plan; project_notes; project_review; meeting_notes] in
  is_Some (map_get notes "X.md") ∧
  suggestRelatedNotes notes "X.md" (-1) = [("Y.md", 18)] ∧
  ¬ (Z.of_nat (length (suggestRelatedNotes notes "X.md" (-1))) <= -1).
Proof.
  intros notes.
  assert (suggestRelatedNotes notes "X.md" (-1) = [("Y.md", 18)]) as H
    by (vm_compute; reflexivity).
  split_and!; [vm_compute; by eexists | done |]. rewrite H. simpl. lia.
Qed.

(** ** Shortest paths over outgoing links *)

Section ShortestPath.
Context (notes : snapshot) (fromPath toPath : string).

(** [u] has an outgoing link that resolves to [v]. *)
Definition edge (u v : string) : Prop :=
  ∃ note ls link,
    map_get notes u = Some note ∧ Note.links note = Some ls ∧
    link ∈ ls ∧ v = resolveNotePath notes (Link.target link).

(** [r] leads from [a] to [b] along resolved outgoing links. *)
Definition route (a b : string) (r : list string) : Prop :=
  head r = Some a ∧ last r = Some b ∧
  ∀ i x y, r !! i = Some x -> r !! S i = Some y -> edge x y.

Lemma route_nsteps a b r : route a b r -> nsteps edge (pred (length r)) a b.
Proof.
  intros (Hh & Hl & Hc). apply nsteps_list. exists r. split_and!; try done.
  destruct r; [done | simpl; lia].
Qed.

Lemma nsteps_route n a b : nsteps edge n a b -> ∃ r, route a b r ∧ length r = S n.
Proof.
  intros (r & Hlen & Hh & Hl & Hc)%nsteps_list. exists r. by split.
Qed.

Lemma route_start a : route a a [a].
Proof. unfold route. split_and!; try done. Qed.

Lemma route_snoc a b c r : route a b r -> edge b c -> route a c (r ++ [c]).
Proof.
  intros (Hh & Hl & Hc) Hbc. split_and!.
  - rewrite head_app, Hh. done.
  - apply last_snoc.
  - intros i x y Hx Hy.
    destruct (decide (S i < length r)%nat) as [Hlt|Hge].
    + rewrite lookup_app_l in Hx, Hy by lia. by eapply Hc.
    + assert (S i = length r) as Hi.
      { apply lookup_lt_Some in Hy. rewrite length_app in Hy. simpl in Hy. lia. }
      rewrite lookup_app_l in Hx by lia.
      rewrite lookup_app_r, Hi, Nat.sub_diag in Hy by lia.
      injection Hy as <-.
      rewrite last_lookup in Hl. replace (pred (length r)) with i in Hl by lia.
      rewrite Hx in Hl. by injection Hl as ->.
Qed.

(** The entries that the loop over the links of one note appends. *)
Lemma enqueue_links visited r queue (ls : list Link.t) :
  ∃ new,
    foldl (enqueue_link notes visited r) queue ls = queue ++ new ∧
    (∀ e, e ∈ new ->
          ∃ link, link ∈ ls ∧
                  e.1 = resolveNotePath notes (Link.target link) ∧
                  e.2 = r ++ [e.1]) ∧
    (∀ link, link ∈ ls ->
             resolveNotePath notes (Link.target link) ∈ visited ∨
             resolveNotePath notes (Link.target link) ∈ new.*1) ∧
    (length new <= length ls)%nat.
Proof.
  revert queue. induction ls as [|l ls IH]; intros queue; simpl.
  - exists []. rewrite app_nil_r. split_and!; try done;
      by intros ? ?%elem_of_nil.
  - set (t := resolveNotePath notes (Link.target l)).
    assert ((enqueue_link notes visited r queue l = queue ∧ t ∈ visited) ∨
            (enqueue_link notes visited r queue l = queue ++ [(t, r ++ [t])]))
      as [[E Hv]|E].
    { unfold enqueue_link. fold t. case_bool_decide; auto. }
    + rewrite E. destruct (IH queue) as (new & Hq & Hnew & Hall & Hlen).
      exists new. split_and!; [done | | | lia].
      * intros e (link & ? & ?)%Hnew. exists link. split; [by right | done].
      * intros link [->|Hin]%elem_of_cons; [by left | by apply Hall].
    + rewrite E. destruct (IH (queue ++ [(t, r ++ [t])]))
        as (new & Hq & Hnew & Hall & Hlen).
      exists ((t, r ++ [t]) :: new). split_and!.
      * by rewrite Hq, <- app_assoc.
      * intros e [->|(link & ? & ?)%Hnew]%elem_of_cons.
        -- exists l. split; [left | done].
        -- exists link. split; [by right | done].
      * intros link [->|Hin]%elem_of_cons.
        -- right. simpl. left.
        -- destruct (Hall link Hin); [by left | right; simpl; by right].
      * simpl. lia.
Qed.

(** The invariant of the loop while the head of the queue is at distance
    [k]: the queue holds routes of [k] links followed by routes of [k + 1]
    links; everything closer than [k] has been visited; everything at [k]
    is visited or queued at that length; the visited set is closed under
    outgoing links up to the queue; the target is not visited. *)
Record bfs_inv (k : nat) (queue : list (string * list string))
    (visited : gset string) : Prop := {
  bfs_routes : ∀ p r, (p, r) ∈ queue -> route fromPath p r;
  bfs_order : ∃ q1 q2, queue = q1 ++ q2 ∧
                (∀ e, e ∈ q1 -> length e.2 = S k) ∧
                (∀ e, e ∈ q2 -> length e.2 = S (S k));
  bfs_near : ∀ j v, (j < k)%nat -> nsteps edge j fromPath v -> v ∈ visited;
  bfs_level : ∀ v, nsteps edge k fromPath v ->
                   v ∈ visited ∨ ∃ r, (v, r) ∈ queue ∧ length r = S k;
  bfs_closed : ∀ u v, u ∈ visited -> edge u v -> v ∈ visited ∨ v ∈ queue.*1;
  bfs_target : toPath ∉ visited;
}.

Lemma bfs_inv_init : bfs_inv 0 [(fromPath, [fromPath])] ∅.
Proof.
  split.
  - intros p r [= -> ->]%list_elem_of_singleton. apply route_start.
  - exists [(fromPath, [fromPath])], []. split_and!; [done | |].
    + by intros e ->%list_elem_of_singleton.
    + by intros e ?%elem_of_nil.
  - intros j v Hj. lia.
  - intros v Hv. inversion Hv as [x E1 E2 E3|]. right. exists [fromPath].
    rewrite <- E3. split; [left | done].
  - intros u v Hu. by apply not_elem_of_empty in Hu.
  - apply not_elem_of_empty.
Qed.

Lemma bfs_inv_shift k queue visited :
  bfs_inv k queue visited ->
  (∀ e, e ∈ queue -> length e.2 = S (S k)) ->
  bfs_inv (S k) queue visited.
Proof.
  intros [Hr Ho Hn Hl Hc Ht] Hlen.
  assert (∀ v, nsteps edge k fromPath v -> v ∈ visited) as Hk.
  { intros v [Hv|(r & Hin & Hrl)]%Hl; [done|].
    apply Hlen in Hin. simpl in Hin. lia. }
  split; try done.
  - exists queue, []. rewrite app_nil_r. split_and!; [done | done |].
    by intros e ?%elem_of_nil.
  - intros j v Hj Hv. destruct (decide (j = k)) as [->|Hne]; [by apply Hk|].
    apply (Hn j); [lia | done].
  - intros v (u & Hu & Huv)%nsteps_inv_r.
    destruct (Hc u v (Hk u Hu) Huv) as [Hv|Hv]; [by left|].
    right. apply list_elem_of_fmap in Hv as ([v' r] & -> & Hin).
    exists r. split; [done|]. by apply (Hlen _ Hin).
Qed.

Lemma bfs_inv_head k p r queue visited :
  bfs_inv k ((p, r) :: queue) visited ->
  ∃ k', bfs_inv k' ((p, r) :: queue) visited ∧ length r = S k'.
Proof.
  intros Hinv. destruct (bfs_order _ _ _ Hinv) as (q1 & q2 & Hq & H1 & H2).
  destruct q1 as [|e q1].
  - exists (S k). simpl in Hq. subst q2. split.
    + by apply bfs_inv_shift.
    + apply (H2 (p, r)). left.
  - exists k. split; [done|]. injection Hq as <- _. apply (H1 (p, r)). left.
Qed.

Lemma bfs_inv_empty k visited n v :
  bfs_inv k [] visited -> nsteps edge n fromPath v -> v ∈ visited.
Proof.
  intros Hinv Hv.
  assert (∀ d, bfs_inv (k + d) [] visited) as Hall.
  { induction d as [|d IH].
    - by rewrite Nat.add_0_r.
    - rewrite Nat.add_succ_r. apply bfs_inv_shift; [done|].
      by intros e ?%elem_of_nil. }
  apply (bfs_near _ _ _ (Hall (S n)) n); [lia | done].
Qed.

(** One turn of the loop keeps the invariant: the head [(p, r)] goes, [p]
    is visited, and [new] holds routes that extend [r] by one link and
    cover every link of [p] that does not lead to a visited path. *)
Lemma bfs_inv_step k p r queue new visited :
  bfs_inv k ((p, r) :: queue) visited ->
  length r = S k -> p ≠ toPath ->
  (∀ e, e ∈ new -> edge p e.1 ∧ e.2 = r ++ [e.1]) ->
  (∀ v, edge p v -> v ∈ ({[p]} ∪ visited : gset string) ∨ v ∈ (queue ++ new).*1) ->
  bfs_inv k (queue ++ new) ({[p]} ∪ visited).
Proof.
  intros [Hr Ho Hn Hl Hc Ht] Hlen Hp Hnew Hcover.
  assert (route fromPath p r) as Hpr by (apply Hr; left).
  split.
  - intros p' r' [Hin|Hin]%elem_of_app; [apply Hr; by right|].
    destruct (Hnew _ Hin) as [He Hr']. simpl in *. subst r'.
    by eapply route_snoc.
  - destruct Ho as (q1 & q2 & Hq & H1 & H2).
    destruct q1 as [|e q1].
    { simpl in Hq. subst q2. specialize (H2 (p, r)). simpl in H2.
      rewrite H2 in Hlen by left. lia. }
    injection Hq as <- ->.
    exists q1, (q2 ++ new). split_and!.
    + by rewrite app_assoc.
    + intros e He. apply H1. by right.
    + intros e [He|He]%elem_of_app; [by apply H2|].
      destruct (Hnew _ He) as [_ ->]. rewrite length_app, Hlen. simpl. lia.
  - intros j v Hj Hv. apply elem_of_union. right. by apply (Hn j).
  - intros v [Hv|(r' & [[= -> ->]|Hin]%elem_of_cons & Hrl)]%Hl.
    + left. set_solver.
    + left. set_solver.
    + right. exists r'. split; [|done]. apply elem_of_app. by left.
  - intros u v [->%elem_of_singleton|Hu]%elem_of_union Huv.
    + by apply Hcover.
    + destruct (Hc u v Hu Huv) as [Hv|Hv]; [left; set_solver|].
      simpl in Hv. apply elem_of_cons in Hv as [->|Hv]; [left; set_solver|].
      right. rewrite fmap_app. apply elem_of_app. by left.
  - set_solver.
Qed.

Lemma findPath_loop_correct fuel :
  ∀ queue visited k res,
    bfs_inv k queue visited ->
    findPath_loop fuel notes toPath queue visited = Some res ->
    match res with
    | Some r =>
        route fromPath toPath r ∧
        ∀ r', route fromPath toPath r' -> (length r <= length r')%nat
    | None => ¬ rtc edge fromPath toPath
    end.
Proof.
  induction fuel as [|fuel IH]; intros queue visited k res Hinv0 Hrun;
    simpl in Hrun; [done|].
  destruct queue as [|[p r] queue].
  - injection Hrun as <-. intros [n Hn]%rtc_nsteps.
    apply (bfs_target _ _ _ Hinv0). by eapply bfs_inv_empty.
  - destruct (bfs_inv_head _ _ _ _ _ Hinv0) as (k' & Hinv & Hlen).
    clear Hinv0 k.
    destruct (String.eqb_spec p toPath) as [->|Hne].
    + injection Hrun as <-. split; [apply (bfs_routes _ _ _ Hinv); left|].
      intros r' Hr'. destruct (decide (length r <= length r')%nat); [done|].
      exfalso. apply (bfs_target _ _ _ Hinv).
      apply (bfs_near _ _ _ Hinv (pred (length r'))); [|by apply route_nsteps].
      destruct Hr' as (Hh & _). destruct r'; [done | simpl in *; lia].
    + case_bool_decide as Hv.
      * eapply IH; [|exact Hrun].
        assert ({[p]} ∪ visited = visited) as <- by set_solver.
        rewrite <- (app_nil_r queue).
        apply bfs_inv_step with r; try done; [by intros ? ?%elem_of_nil|].
        intros v Hpv. rewrite app_nil_r.
        destruct (bfs_closed _ _ _ Hinv p v Hv Hpv) as [?|Hq];
          [left; set_solver|].
        simpl in Hq. apply elem_of_cons in Hq as [->|?]; [left; set_solver|].
        by right.
      * destruct (map_get notes p) as [note|] eqn:Hget.
        -- destruct (Note.links note) as [ls|] eqn:Hls.
           ++ destruct (enqueue_links ({[p]} ∪ visited) r queue ls)
                as (new & Hq & Hnew & Hall & _).
              rewrite Hq in Hrun. eapply IH; [|exact Hrun].
              apply bfs_inv_step with r; try done.
              ** intros e (link & Hin & He1 & He2)%Hnew. split; [|done].
                 by exists note, ls, link.
              ** intros v (note' & ls' & link & Hg & Hl & Hin & ->).
                 rewrite Hget in Hg. injection Hg as <-.
                 rewrite Hls in Hl. injection Hl as <-.
                 destruct (Hall link Hin); [by left|].
                 right. rewrite fmap_app. apply elem_of_app. by right.
           ++ eapply IH; [|exact Hrun]. rewrite <- (app_nil_r queue).
              apply bfs_inv_step with r; try done;
                [by intros ? ?%elem_of_nil|].
              intros v (note' & ls' & link & Hg & Hl & _).
              rewrite Hget in Hg. injection Hg as <-. congruence.
        -- eapply IH; [|exact Hrun]. rewrite <- (app_nil_r queue).
           apply bfs_inv_step with r; try done; [by intros ? ?%elem_of_nil|].
           intros v (note' & ls' & link & Hg & _). congruence.
Qed.

(** *** Termination of the loop *)

(** The links of the notes that have not been expanded yet. *)
Fixpoint pending (l : snapshot) (visited : gset string) : nat :=
  match l with
  | [] => 0
  | e :: l' =>
      ((if decide (e.1 ∈ visited) then 0
        else length (default [] (Note.links e.2)))
       + pending l' visited)%nat
  end.

Lemma pending_mono l p visited :
  (pending l ({[p]} ∪ visited) <= pending l visited)%nat.
Proof.
  induction l as [|[k n] l IH]; simpl; [done|].
  destruct (decide (k ∈ visited)).
  - rewrite decide_True by set_solver. lia.
  - destruct (decide (k ∈ {[p]} ∪ visited)); lia.
Qed.

Lemma pending_visit l p note visited :
  (p, note) ∈ l -> p ∉ visited ->
  (pending l ({[p]} ∪ visited) + length (default [] (Note.links note))
   <= pending l visited)%nat.
Proof.
  induction l as [|[k n] l IH]; intros Hin Hp.
  - by apply elem_of_nil in Hin.
  - apply elem_of_cons in Hin as [[= <- <-]|Hin]; simpl.
    + pose proof (pending_mono l p visited) as Hm.
      rewrite decide_True by set_solver. rewrite decide_False by done. lia.
    + specialize (IH Hin Hp).
      destruct (decide (k ∈ visited)).
      * rewrite decide_True by set_solver. lia.
      * destruct (decide (k ∈ {[p]} ∪ visited)); lia.
Qed.

Lemma pending_empty l :
  pending l ∅ =
  sum_list ((fun e => length (default [] (Note.links e.2))) <$> l).
Proof.
  induction l as [|[k n] l IH]; simpl; [done|].
  rewrite decide_False by set_solver. by rewrite IH.
Qed.

Lemma findPath_loop_fuel fuel :
  ∀ queue visited,
    (length queue + pending notes visited < fuel)%nat ->
    is_Some (findPath_loop fuel notes toPath queue visited).
Proof.
  induction fuel as [|fuel IH]; intros queue visited Hlt; [lia|]. simpl.
  destruct queue as [|[p r] queue]; [done|]. simpl in Hlt.
  destruct (String.eqb p toPath); [done|].
  case_bool_decide as Hv; [apply IH; lia|].
  pose proof (pending_mono notes p visited) as Hmono.
  destruct (map_get notes p) as [note|] eqn:Hget; [|apply IH; lia].
  pose proof (pending_visit notes p note visited
                (map_get_Some_elem _ _ _ Hget) Hv) as Hvisit.
  destruct (Note.links note) as [ls|]; [|apply IH; lia].
  destruct (enqueue_links ({[p]} ∪ visited) r queue ls)
    as (new & -> & _ & _ & Hlen).
  apply IH. rewrite length_app. simpl in Hvisit. lia.
Qed.

(** The loop always returns within the fuel that [findPath] gives it. *)
Lemma findPath_returns :
  is_Some (findPath_loop (findPath_fuel notes) notes toPath
                         [(fromPath, [fromPath])] ∅).
Proof.
  apply findPath_loop_fuel.
  unfold findPath_fuel. rewrite pending_empty. simpl. lia.
Qed.

Lemma findPath_correct :
  match findPath notes fromPath toPath with
  | Some r =>
      route fromPath toPath r ∧
      ∀ r', route fromPath toPath r' -> (length r <= length r')%nat
  | None => ¬ rtc edge fromPath toPath
  end.
Proof.
  unfold findPath.
  destruct findPath_returns as [res Hres]. rewrite Hres.
  by apply (findPath_loop_correct _ _ _ 0 res bfs_inv_init Hres).
Qed.

End ShortestPath.

(** C2: [findPath(from, to)] returns a sequence exactly when [to] can be
    reached from [from] along resolved outgoing links (backlinks play no
    part in [edge]); a returned sequence starts with [from], ends with
    [to], every two neighbours in it are joined by a resolved outgoing
    link, and no such sequence is shorter; otherwise the result is [None].
    This holds for every pair of ids, equal or not. *)
Theorem findPath_shortest (ns : list Note.t) (from_id to_id : string) :
  let notes := updateNotes ns in
  (is_Some (findPath notes from_id to_id) <->
   rtc (edge notes) from_id to_id) ∧
  (∀ r, findPath notes from_id to_id = Some r ->
        head r = Some from_id ∧ last r = Some to_id ∧
        (∀ i x y, r !! i = Some x -> r !! S i = Some y -> edge notes x y) ∧
        (∀ r', route notes from_id to_id r' -> (length r <= length r')%nat)) ∧
  (findPath notes from_id to_id = None <->
   ¬ rtc (edge notes) from_id to_id).
Proof.
  intros notes. pose proof (findPath_correct notes from_id to_id) as H.
  destruct (findPath notes from_id to_id) as [r|].
  - destruct H as [Hr Hmin].
    assert (rtc (edge notes) from_id to_id) as Hreach.
    { eapply rtc_nsteps_2, route_nsteps, Hr. }
    split_and!.
    + split; [done | eauto].
    + intros r' [= <-]. destruct Hr as (? & ? & ?). done.
    + split; [done | by intros []].
  - split_and!.
    + split; [by intros [? ?] | done].
    + done.
    + done.
Qed.

(** ** The repository's test fixture, evaluated *)

Definition fixture : list Note.t :=
  [ Note.mk "note1.md" "Note 1" "Content with [[note2]] link"
            (Some ["tag1"; "tag2"])
            (Some [Link.mk "note1.md" "note2" internal]) None;
    Note.mk "note2.md" "Note 2" "Content with [[note3]] link"
            (Some ["tag2"; "tag3"])
            (Some [Link.mk "note2.md" "note3" internal]) None;
    Note.mk "note3.md" "Note 3" "No links" (Some ["tag3"]) None None;
    Note.mk "orphan.md" "Orphan" "Isolated note" (Some []) None None ].

Example fixture_related_1 :
  related (updateNotes fixture) "note1.md" 1 = ["note2.md"].
Proof. vm_compute. reflexivity. Qed.

Example fixture_related_2 :
  related (updateNotes fixture) "note1.md" 2 = ["note2.md"; "note3.md"].
Proof. vm_compute. reflexivity. Qed.

Example fixture_findPath :
  findPath (updateNotes fixture) "note1.md" "note3.md"
  = Some ["note1.md"; "note2.md"; "note3.md"].
Proof. vm_compute. reflexivity. Qed.

Example fixture_findPath_unreachable :
  findPath (updateNotes fixture) "note1.md" "orphan.md" = None.
Proof. vm_compute. reflexivity. Qed.

Example fixture_totals :
  GraphAnalysis.totalNodes (analyzeGraph (updateNotes fixture)) = 4 ∧
  GraphAnalysis.totalEdges (analyzeGraph (updateNotes fixture)) = 7.
Proof. vm_compute. done. Qed.

Example fixture_suggest :
  suggestRelatedNotes (updateNotes fixture) "note1.md" 2
  = [("note2.md", 18); ("note3.md", 8)].
Proof. vm_compute. reflexivity. Qed.

(** ** Depth bounds and the shared visited set *)

Section Traversal.
Context (notes : snapshot) (maxDepth : Z).

(** What a call that passes both guards does to the state before it
    descends: mark the path, and add it when it names a note below the
    start. *)
Definition visit (path : string) (depth : Z) (st : trav_state) : trav_state :=
  match map_get notes path with
  | Some _ =>
      mk_trav (if depth >? 0 then set_add path (t_related st)
               else t_related st)
              ({[path]} ∪ t_visited st)
  | None => mk_trav (t_related st) ({[path]} ∪ t_visited st)
  end.

(** An invariant kept by [visit] at every depth from [d0] on is kept by
    every call of [traverse] at such a depth. *)
Lemma traverse_visit_inv (P : trav_state -> Prop) (d0 : Z) :
  (∀ st path depth,
      d0 <= depth <= maxDepth -> path ∉ t_visited st -> P st ->
      P (visit path depth st)) ->
  ∀ fuel path depth st,
    d0 <= depth -> P st -> P (traverse fuel notes maxDepth path depth st).
Proof.
  intros Hvisit. induction fuel as [|fuel IH]; intros path depth st Hd Hst;
    simpl; [done|].
  destruct (Z.gtb_spec depth maxDepth) as [Hgt|Hle]; [done|]. simpl.
  case_bool_decide as Hv; [done|].
  pose proof (Hvisit st path depth ltac:(lia) Hv Hst) as H. unfold visit in H.
  destruct (map_get notes path) as [note|] eqn:Hget; [|done].
  destruct (depth >? 0);
    destruct (Note.links note) as [ls|], (Note.backlinks note) as [bs|];
    simpl; try done;
    repeat (apply foldl_preserve; [intros; apply IH; [lia | done]|]); done.
Qed.

Lemma set_add_elem (p q : string) (l : list string) :
  p ∈ set_add q l <-> p ∈ l ∨ p = q.
Proof.
  unfold set_add. case_bool_decide as Hq.
  - split; [auto | by intros [?| ->]].
  - rewrite elem_of_app, list_elem_of_singleton. done.
Qed.

(** The visited set only grows, and so does the related set. *)
Lemma traverse_grows fuel path depth st :
  let st' := traverse fuel notes maxDepth path depth st in
  t_visited st ⊆ t_visited st' ∧
  (∀ p, p ∈ t_related st -> p ∈ t_related st').
Proof.
  apply (traverse_visit_inv
           (fun s => t_visited st ⊆ t_visited s ∧
                     (∀ p, p ∈ t_related st -> p ∈ t_related s)) depth);
    [|lia|done].
  intros s q d _ _ [Hv Hr]. unfold visit.
  destruct (map_get notes q); simpl; (split; [set_solver|]); [|done].
  intros p Hp. destruct (d >? 0); [|by apply Hr].
  apply set_add_elem. left. by apply Hr.
Qed.

(** A call within the bound leaves its path visited. *)
Lemma traverse_marks fuel path depth st :
  (0 < fuel)%nat -> depth <= maxDepth ->
  path ∈ t_visited (traverse fuel notes maxDepth path depth st).
Proof.
  intros Hf Hd. destruct fuel as [|fuel]; [lia|]. simpl.
  destruct (Z.gtb_spec depth maxDepth) as [Hgt|_]; [lia|]. simpl.
  case_bool_decide as Hv; [done|].
  assert (∀ s l (f : trav_state -> Link.t -> trav_state),
            (∀ s x, t_visited s ⊆ t_visited (f s x)) ->
            path ∈ t_visited s -> path ∈ t_visited (foldl f s l)) as Hfold.
  { intros s l f Hmono. apply (foldl_preserve (fun s => path ∈ t_visited s)).
    intros s' x Hs'. by apply (Hmono s' x). }
  destruct (map_get notes path) as [note|]; [|simpl; set_solver].
  destruct (Note.links note) as [ls|], (Note.backlinks note) as [bs|];
    repeat (apply Hfold; [intros; apply traverse_grows|]);
    destruct (depth >? 0); simpl; set_solver.
Qed.

(** Below the start, every visited path that names a note is related. *)
Definition visited_related (start : string) (st : trav_state) : Prop :=
  ∀ x, x ∈ t_visited st -> x ≠ start -> is_Some (map_get notes x) ->
       x ∈ t_related st.

Lemma traverse_visited_related start fuel path depth st :
  1 <= depth -> visited_related start st ->
  visited_related start (traverse fuel notes maxDepth path depth st).
Proof.
  apply (traverse_visit_inv (visited_related start) 1).
  intros s q d Hd Hq Hs x. unfold visit.
  destruct (map_get notes q) as [note|] eqn:Hget; simpl.
  - destruct (Z.gtb_spec d 0); [|lia].
    intros [->%elem_of_singleton|Hx]%elem_of_union Hne Hnote;
      apply set_add_elem; [by right | left; by apply Hs].
  - intros [->%elem_of_singleton|Hx]%elem_of_union Hne Hnote;
      [rewrite Hget in Hnote; by destruct Hnote | by apply Hs].
Qed.

(** The state after the loops over the links and the backlinks of the
    start note. *)
Definition children (fuel : nat) (note : Note.t) (st : trav_state)
  : trav_state :=
  foldl (fun s backlink =>
           traverse fuel notes maxDepth (Link.source backlink) 1 s)
    (foldl (fun s link =>
              traverse fuel notes maxDepth
                (resolveNotePath notes (Link.target link)) 1 s)
       st (default [] (Note.links note)))
    (default [] (Note.backlinks note)).

Lemma traverse_start fuel start :
  traverse (S fuel) notes maxDepth start 0 (mk_trav [] ∅) =
  if maxDepth <? 0 then mk_trav [] ∅
  else match map_get notes start with
       | Some note => children fuel note (mk_trav [] {[start]})
       | None => mk_trav [] {[start]}
       end.
Proof.
  simpl. destruct (Z.gtb_spec 0 maxDepth), (Z.ltb_spec maxDepth 0);
    try lia; [done|]. simpl.
  rewrite bool_decide_false by set_solver.
  rewrite (right_id_L ∅ (∪)).
  destruct (map_get notes start) as [note|]; [|done].
  unfold children.
  by destruct (Note.links note), (Note.backlinks note).
Qed.

(** The ids one link or one backlink away from a note. *)
Definition neighbours (note : Note.t) : list string :=
  ((fun link => resolveNotePath notes (Link.target link))
     <$> default [] (Note.links note))
  ++ (Link.source <$> default [] (Note.backlinks note)).

Lemma foldl_reaches {X} (Q : trav_state -> Prop)
    (f : trav_state -> X -> trav_state) (l : list X) (x : X) st :
  (∀ s y, Q s -> Q (f s y)) -> (∀ s, Q (f s x)) -> x ∈ l ->
  Q (foldl f st l).
Proof.
  intros Hkeep Hx. revert st.
  induction l as [|y l IH]; intros st Hin; [by apply elem_of_nil in Hin|].
  simpl. apply elem_of_cons in Hin as [->|Hin]; [|by apply IH].
  apply foldl_preserve; [done | apply Hx].
Qed.

Lemma children_visit fuel note st q :
  (0 < fuel)%nat -> 1 <= maxDepth -> q ∈ neighbours note ->
  q ∈ t_visited (children fuel note st).
Proof.
  intros Hf Hd [Hq|Hq]%elem_of_app;
    apply list_elem_of_fmap in Hq as (x & -> & Hx); unfold children.
  - apply (foldl_preserve (fun s => _ ∈ t_visited s)).
    { intros s y Hs. by apply traverse_grows. }
    apply (foldl_reaches (fun s => _ ∈ t_visited s) _ _ x); [| |done].
    + intros s y Hs. by apply traverse_grows.
    + intros s. by apply traverse_marks.
  - apply (foldl_reaches (fun s => _ ∈ t_visited s) _ _ x); [| |done].
    + intros s y Hs. by apply traverse_grows.
    + intros s. by apply traverse_marks.
Qed.

Lemma children_visited_related start fuel note st :
  visited_related start st ->
  visited_related start (children fuel note st).
Proof.
  intros Hst. unfold children.
  repeat (apply foldl_preserve;
          [intros; by apply traverse_visited_related|]).
  done.
Qed.

(** Every neighbour of the start that names another note is related, as
    soon as the bound is at least 1. *)
Lemma related_neighbours start note q :
  1 <= maxDepth -> map_get notes start = Some note ->
  q ∈ neighbours note -> q ≠ start -> is_Some (map_get notes q) ->
  q ∈ related notes start maxDepth.
Proof.
  intros Hd Hget Hq Hne Hnote. unfold related.
  replace (Z.to_nat (maxDepth + 2)) with (S (Z.to_nat (maxDepth + 1))) by lia.
  rewrite traverse_start, Hget.
  destruct (Z.ltb_spec maxDepth 0); [lia|].
  apply (children_visited_related start); [|by apply children_visit; [lia|..]
                                           |done|done].
  intros x Hx. simpl in Hx. apply elem_of_singleton in Hx as ->. done.
Qed.

(** Below the bound a call changes nothing; at the bound it visits its
    path, if new, and stops there. *)
Lemma traverse_leaf fuel path depth st :
  maxDepth < depth -> traverse fuel notes maxDepth path depth st = st.
Proof.
  intros Hd. destruct fuel as [|fuel]; simpl; [done|].
  destruct (Z.gtb_spec depth maxDepth); [done | lia].
Qed.

Lemma foldl_fixed {X} (f : trav_state -> X -> trav_state) (l : list X) st :
  (∀ s x, f s x = s) -> foldl f st l = st.
Proof.
  intros Hf. induction l as [|x l IH]; simpl; [done|]. by rewrite Hf.
Qed.

Lemma traverse_last_level fuel path st :
  traverse fuel notes maxDepth path maxDepth st = st ∨
  ((path ∉ t_visited st) ∧
   traverse fuel notes maxDepth path maxDepth st = visit path maxDepth st).
Proof.
  destruct fuel as [|fuel]; simpl; [by left|].
  destruct (Z.gtb_spec maxDepth maxDepth); [lia|]. simpl.
  case_bool_decide as Hv; [by left|]. right. split; [done|].
  unfold visit. destruct (map_get notes path) as [note|]; [|done].
  destruct (maxDepth >? 0);
    destruct (Note.links note), (Note.backlinks note);
    rewrite ?foldl_fixed by (intros; apply traverse_leaf; lia); done.
Qed.
End Traversal.

Lemma foldl_preserve_in {S X} (P : S -> Prop) (f : S -> X -> S)
    (l : list X) s :
  (∀ s x, x ∈ l -> P s -> P (f s x)) -> P s -> P (foldl f s l).
Proof.
  revert s. induction l as [|x l IH]; intros s Hf Hs; simpl; [done|].
  apply IH; [|apply Hf; [left | done]].
  intros s' y Hy. apply Hf. by right.
Qed.

(** With bound 1 the related set holds neighbours of the start only. *)
Lemma related_one_neighbours notes start p :
  p ∈ related notes start 1 ->
  ∃ note, map_get notes start = Some note ∧ p ∈ neighbours notes note ∧
          p ≠ start ∧ is_Some (map_get notes p).
Proof.
  unfold related. change (Z.to_nat (1 + 2)) with 3%nat.
  rewrite traverse_start. simpl.
  destruct (map_get notes start) as [note|] eqn:Hget;
    [|by intros ?%elem_of_nil].
  intros Hp. exists note. split; [done|]. revert p Hp.
  set (J := fun s : trav_state =>
              start ∈ t_visited s ∧
              ∀ p, p ∈ t_related s ->
                   p ∈ neighbours notes note ∧ p ≠ start ∧
                   is_Some (map_get notes p)).
  assert (∀ q s, q ∈ neighbours notes note -> J s ->
                 J (traverse 2 notes 1 q 1 s)) as Hchild.
  { intros q s Hq [Hs Hrel].
    destruct (traverse_last_level notes 1 2 q s) as [->|[Hv ->]]; [done|].
    unfold visit. destruct (map_get notes q) as [qn|] eqn:Hqn; simpl.
    - split; simpl; [set_solver|].
      intros p [Hp| ->]%set_add_elem; [by apply Hrel|].
      split_and!; [done | | by rewrite Hqn]. intros ->. done.
    - split; simpl; [set_solver | done]. }
  assert (J (children notes 1 2 note (mk_trav [] {[start]}))) as [_ HJ];
    [|done].
  unfold children.
  apply (foldl_preserve_in J).
  { intros s b Hb. apply Hchild. apply elem_of_app. right.
    apply list_elem_of_fmap. by exists b. }
  apply (foldl_preserve_in J).
  { intros s l Hl. apply Hchild. apply elem_of_app. left.
    apply list_elem_of_fmap. by exists l. }
  split; simpl; [set_solver | by intros ? ?%elem_of_nil].
Qed.

(** Five notes: A links to P and to B, P to Q, Q to B, B to X, with the
    backlinks that the note store derives from these links. *)
Definition wiki (src tgt : string) : Link.t :=
  Link.mk (src +:+ ".md") tgt internal.

Definition detour : list Note.t :=
  [ Note.mk "A.md" "A" "" None (Some [wiki "A" "P"; wiki "A" "B"]) (Some []);
    Note.mk "P.md" "P" "" None (Some [wiki "P" "Q"]) (Some [wiki "A" "P"]);
    Note.mk "Q.md" "Q" "" None (Some [wiki "Q" "B"]) (Some [wiki "P" "Q"]);
    Note.mk "B.md" "B" "" None (Some [wiki "B" "X"])
            (Some [wiki "A" "B"; wiki "Q" "B"]);
    Note.mk "X.md" "X" "" None (Some []) (Some [wiki "B" "X"]) ].

(** C3: the related sets are not nested.  With bound 2 the traversal
    reaches B straight from A at depth 1 and adds X at depth 2.  With bound
    3 it first walks A, P, Q, B, marks B visited at depth 3 where B's own
    links are cut off, and later skips B when A's second link leads to it:
    X, two links away from A, is in [related(A, 2)] and not in
    [related(A, 3)].  A larger bound loses a note that lies within the
    smaller one, and which note is lost depends on the order of A's
    links. *)
Theorem related_not_monotone :
  let notes := updateNotes detour in
  related notes "A.md" 2 = ["P.md"; "Q.md"; "B.md"; "X.md"] ∧
  related notes "A.md" 3 = ["P.md"; "Q.md"; "B.md"] ∧
  ¬ (∀ p, p ∈ related notes "A.md" 2 -> p ∈ related notes "A.md" 3).
Proof.
  assert (related (updateNotes detour) "A.md" 2
          = ["P.md"; "Q.md"; "B.md"; "X.md"]) as H2
    by (vm_compute; reflexivity).
  assert (related (updateNotes detour) "A.md" 3 = ["P.md"; "Q.md"; "B.md"])
    as H3 by (vm_compute; reflexivity).
  split_and!; [done | done |].
  simpl. rewrite H2, H3. intros H.
  assert ("X.md" ∉ ["P.md"; "Q.md"; "B.md"]) as Hx
    by (apply (bool_decide_unpack _); vm_compute; exact I).
  apply Hx, H. do 3 right. left.
Qed.

(** * The rest of the service *)

(** ** More JavaScript string primitives *)

Module JSString.

(** [s.startsWith(p)] *)
Definition startsWith (s p : string) : bool := String.prefix p s.

(** [s.includes(c)] for a one-character needle. *)
Fixpoint has_char (c : ascii) (s : string) : bool :=
  match s with
  | EmptyString => false
  | String a rest => Ascii.eqb a c || has_char c rest
  end.

End JSString.

(** ** Tag and folder queries *)

(** [note.tags?.includes(tag)] *)
Definition has_tag (tag : string) (note : Note.t) : bool :=
  match Note.tags note with
  | Some ts => includes ts tag
  | None => false
  end.

(** [getNotesByTag] *)
Definition getNotesByTag (notes : snapshot) (tag : string) : list Note.t :=
  List.filter (has_tag tag) (map_values notes).

(** [getNotesByFolder] *)
Definition in_folder (folder : string) (note : Note.t) : bool :=
  JSString.startsWith (Note.path note) (folder +:+ "/")
  || String.eqb (getFolder (Note.path note)) folder.

Definition getNotesByFolder (notes : snapshot) (folder : string)
  : list Note.t :=
  List.filter (in_folder folder) (map_values notes).

(** [getAllTags]: one turn of the loop over the notes, then the sort. *)
Definition count_tags (tagCounts : list (string * Z)) (note : Note.t)
  : list (string * Z) :=
  match Note.tags note with
  | Some ts => foldl (fun m tag => bump m tag 1) tagCounts ts
  | None => tagCounts
  end.

Definition getAllTags (notes : snapshot) : list (string * Z) :=
  JS.sort (fun a b => b.2 - a.2) (foldl count_tags [] (map_values notes)).

Example fixture_tags :
  getAllTags (updateNotes fixture) = [("tag2", 2); ("tag3", 2); ("tag1", 1)].
Proof. vm_compute. reflexivity. Qed.

Example fixture_by_tag :
  Note.path <$> getNotesByTag (updateNotes fixture) "tag2"
  = ["note1.md"; "note2.md"].
Proof. vm_compute. reflexivity. Qed.

(** ** Facts about [getFolder] *)

Lemma lastIndexOf_ge (c : ascii) (s : string) : -1 <= JS.lastIndexOf c s.
Proof.
  induction s as [|a s IH]; simpl; [lia|].
  destruct (Z.eqb_spec (JS.lastIndexOf c s) (-1)); [|lia].
  destruct (Ascii.eqb a c); lia.
Qed.

Lemma lastIndexOf_absent (c : ascii) (s : string) :
  JS.lastIndexOf c s = -1 <-> JSString.has_char c s = false.
Proof.
  induction s as [|a s IH]; simpl; [done|].
  pose proof (lastIndexOf_ge c s).
  destruct (Z.eqb_spec (JS.lastIndexOf c s) (-1)) as [E|E].
  - destruct (Ascii.eqb a c); simpl; [split; [lia | done]|]. by rewrite <- IH.
  - split; [lia|]. intros [_ Hs]%orb_false_iff. apply IH in Hs. lia.
Qed.

Lemma lastIndexOf_app (c : ascii) (a b : string) :
  JS.lastIndexOf c (a +:+ b) =
  if JS.lastIndexOf c b =? -1 then JS.lastIndexOf c a
  else Z.of_nat (String.length a) + JS.lastIndexOf c b.
Proof.
  induction a as [|x a IH]; simpl.
  - change ("" +:+ b) with b.
    destruct (Z.eqb_spec (JS.lastIndexOf c b) (-1)); [done | lia].
  - change (JS.lastIndexOf c (String x a +:+ b)) with
      (let r := JS.lastIndexOf c (a +:+ b) in
       if r =? -1 then (if Ascii.eqb x c then 0 else -1) else r + 1).
    simpl. rewrite IH. pose proof (lastIndexOf_ge c b).
    destruct (Z.eqb_spec (JS.lastIndexOf c b) (-1)) as [E|E]; [done|].
    destruct (Z.eqb_spec (Z.of_nat (String.length a) + JS.lastIndexOf c b) (-1));
      lia.
Qed.

Lemma substring_prefix (a b : string) :
  substring 0 (String.length a) (a +:+ b) = a.
Proof.
  induction a as [|x a IH]; simpl; [by destruct b | by rewrite IH].
Qed.

(** Joining a folder and a name that has no slash, then taking the folder
    back. *)
Lemma getFolder_join (folder name : string) :
  JSString.has_char "/" name = false ->
  getFolder (folder +:+ "/" +:+ name) = folder.
Proof.
  intros Hname. unfold getFolder.
  rewrite lastIndexOf_app.
  assert (JS.lastIndexOf "/" ("/" +:+ name) = 0) as E.
  { change ("/" +:+ name) with (String "/" name). simpl.
    apply lastIndexOf_absent in Hname. by rewrite Hname. }
  rewrite E. simpl.
  destruct (Z.eqb_spec (Z.of_nat (String.length folder) + 0) (-1)); [lia|].
  unfold JS.substring0.
  replace (Z.to_nat (Z.of_nat (String.length folder) + 0))
    with (String.length folder) by lia.
  apply substring_prefix.
Qed.

(** A path with a slash is its folder, a slash, and a last segment. *)
Lemma getFolder_split (path : string) :
  JSString.has_char "/" path = true ->
  ∃ name, JSString.has_char "/" name = false ∧
          path = getFolder path +:+ "/" +:+ name.
Proof.
  intros Hp.
  assert (∃ pre name, path = pre +:+ "/" +:+ name ∧
                      JSString.has_char "/" name = false)
    as (pre & name & -> & Hname).
  { induction path as [|a s IH]; simpl in Hp; [done|].
    destruct (JSString.has_char "/" s) eqn:Hs.
    - destruct IH as (pre & name & -> & Hname); [done|].
      by exists (String a pre), name.
    - rewrite orb_false_r in Hp. apply Ascii.eqb_eq in Hp as ->.
      by exists "", s. }
  exists name. by rewrite getFolder_join.
Qed.

Lemma startsWith_spec (s p : string) :
  JSString.startsWith s p = true <-> ∃ rest, s = p +:+ rest.
Proof.
  unfold JSString.startsWith. revert s.
  induction p as [|a p IH]; intros s.
  - split; [intros _; by exists s | intros _; by destruct s].
  - destruct s as [|b s]; simpl.
    { split; [done | intros [rest E]; discriminate E]. }
    destruct (Ascii.ascii_dec a b) as [->|Hne].
    + rewrite IH. split; intros [rest E]; exists rest.
      * change (String b s = String b (p +:+ rest)). by rewrite E.
      * change (String b s = String b (p +:+ rest)) in E. by injection E.
    + split; [done|]. intros [rest E].
      change (String b s = String a (p +:+ rest)) in E. congruence.
Qed.

(** X1: [getFolder] undoes joining a folder with a last segment: for a
    name without a slash, the folder of [folder/name] is [folder]; a path
    without a slash has the folder ["."]; and every path with a slash is
    its own folder, a slash, and a segment without a slash. *)
Theorem getFolder_round_trip (folder name path : string) :
  (JSString.has_char "/" name = false ->
   getFolder (folder +:+ "/" +:+ name) = folder ∧ getFolder name = ".") ∧
  (JSString.has_char "/" path = true ->
   ∃ last, JSString.has_char "/" last = false ∧
           path = getFolder path +:+ "/" +:+ last).
Proof.
  split.
  - intros Hname. split; [by apply getFolder_join|].
    unfold getFolder. apply lastIndexOf_absent in Hname. by rewrite Hname.
  - apply getFolder_split.
Qed.

(** ** Folder and tag queries *)

Lemma string_app_assoc (a b c : string) : (a +:+ b) +:+ c = a +:+ b +:+ c.
Proof.
  induction a as [|x a IH]; [done|].
  change (String x ((a +:+ b) +:+ c) = String x (a +:+ b +:+ c)).
  by rewrite IH.
Qed.

(** X2: [getNotesByFolder(folder)] returns exactly the notes of the
    snapshot whose path starts with [folder/] (at any depth below the
    folder) and, when the folder is ["."], also the notes whose path has no
    slash at all. *)
Theorem getNotesByFolder_spec (ns : list Note.t) (folder : string)
    (note : Note.t) :
  let notes := updateNotes ns in
  note ∈ getNotesByFolder notes folder <->
  note ∈ map_values notes ∧
  ((∃ rest, Note.path note = folder +:+ "/" +:+ rest) ∨
   (folder = "." ∧ JSString.has_char "/" (Note.path note) = false)).
Proof.
  intros notes. unfold getNotesByFolder.
  rewrite list_elem_of_In, filter_In, <- list_elem_of_In.
  apply and_iff_compat_l. unfold in_folder.
  rewrite orb_true_iff, startsWith_spec, String.eqb_eq.
  setoid_rewrite string_app_assoc. split.
  - intros [Hpre|Hf]; [by left|].
    destruct (JSString.has_char "/" (Note.path note)) eqn:Hs.
    + left. destruct (getFolder_split _ Hs) as (last & _ & E).
      exists last. by rewrite <- Hf.
    + right. split; [|done]. rewrite <- Hf. unfold getFolder.
      apply lastIndexOf_absent in Hs. by rewrite Hs.
  - intros [Hpre|[-> Hs]]; [by left|]. right. unfold getFolder.
    apply lastIndexOf_absent in Hs. by rewrite Hs.
Qed.

(** The number of times [t] stands in a tag list. *)
Definition occurrences (t : string) (ts : list string) : nat :=
  length (filter (fun x => x = t) ts).

(** The number of times [t] stands in the tag lists of [vals]. *)
Fixpoint tag_total (t : string) (vals : list Note.t) : nat :=
  match vals with
  | [] => 0
  | n :: vals' =>
      (occurrences t (default [] (Note.tags n)) + tag_total t vals')%nat
  end.

Lemma bump_value (m : list (string * Z)) (k t : string) (d : Z) :
  score_of (bump m k d) t =
  if String.eqb k t then score_of m t + d else score_of m t.
Proof.
  unfold score_of, bump. rewrite map_get_set.
  destruct (String.eqb_spec k t) as [->|]; done.
Qed.

Lemma bump_keys (m : list (string * Z)) (k t : string) (d : Z) :
  t ∈ (bump m k d).*1 <-> t ∈ m.*1 ∨ t = k.
Proof.
  unfold bump. rewrite <- !map_get_is_Some, map_get_set.
  destruct (String.eqb_spec k t) as [->|Hne].
  - split; [by right | eauto].
  - split; [by left | by intros [?|?]].
Qed.

Lemma count_list_value (ts : list string) (m : list (string * Z)) t :
  score_of (foldl (fun m tag => bump m tag 1) m ts) t =
  score_of m t + Z.of_nat (occurrences t ts).
Proof.
  unfold occurrences. revert m.
  induction ts as [|x ts IH]; intros m; simpl; [lia|].
  rewrite IH, bump_value, filter_cons.
  destruct (String.eqb_spec x t) as [->|Hne].
  - rewrite decide_True by done. simpl. lia.
  - rewrite decide_False by done. lia.
Qed.

Lemma count_list_keys (ts : list string) (m : list (string * Z)) t :
  t ∈ (foldl (fun m tag => bump m tag 1) m ts).*1 <-> t ∈ m.*1 ∨ t ∈ ts.
Proof.
  revert m. induction ts as [|x ts IH]; intros m; simpl.
  - split; [by left | by intros [?|?%elem_of_nil]].
  - rewrite IH, bump_keys, elem_of_cons. tauto.
Qed.

Lemma count_list_NoDup (ts : list string) (m : list (string * Z)) :
  NoDup m.*1 -> NoDup (foldl (fun m tag => bump m tag 1) m ts).*1.
Proof.
  revert m. induction ts as [|x ts IH]; intros m Hm; simpl; [done|].
  apply IH. by apply map_set_NoDup.
Qed.

Lemma count_tags_value (vals : list Note.t) (m : list (string * Z)) t :
  score_of (foldl count_tags m vals) t =
  score_of m t + Z.of_nat (tag_total t vals).
Proof.
  revert m. induction vals as [|n vals IH]; intros m; simpl; [lia|].
  rewrite IH. unfold count_tags.
  destruct (Note.tags n) as [ts|]; simpl.
  - rewrite count_list_value. lia.
  - unfold occurrences. simpl. lia.
Qed.

Lemma count_tags_keys (vals : list Note.t) (m : list (string * Z)) t :
  t ∈ (foldl count_tags m vals).*1 <->
  t ∈ m.*1 ∨ ∃ n, n ∈ vals ∧ t ∈ default [] (Note.tags n).
Proof.
  revert m. induction vals as [|n vals IH]; intros m; simpl.
  - split; [by left | intros [?|(n & ?%elem_of_nil & _)]; done].
  - rewrite IH. unfold count_tags.
    assert (t ∈ (match Note.tags n with
                 | Some ts => foldl (fun m tag => bump m tag 1) m ts
                 | None => m
                 end).*1 <-> t ∈ m.*1 ∨ t ∈ default [] (Note.tags n)) as ->.
    { destruct (Note.tags n) as [ts|]; simpl; [apply count_list_keys|].
      split; [by left | by intros [?|?%elem_of_nil]]. }
    split.
    + intros [[?|?]|(n' & ? & ?)]; [by left | right; exists n | right; exists n'];
        (split; [|done]); [left | by right].
    + intros [?|(n' & [->|?]%elem_of_cons & ?)];
        [by left; left | by left; right | right; by exists n'].
Qed.

Lemma count_tags_NoDup (vals : list Note.t) (m : list (string * Z)) :
  NoDup m.*1 -> NoDup (foldl count_tags m vals).*1.
Proof.
  revert m. induction vals as [|n vals IH]; intros m Hm; simpl; [done|].
  apply IH. unfold count_tags. destruct (Note.tags n); [|done].
  by apply count_list_NoDup.
Qed.

Lemma tag_total_positive t vals n :
  n ∈ vals -> t ∈ default [] (Note.tags n) -> (0 < tag_total t vals)%nat.
Proof.
  induction vals as [|x vals IH]; intros Hn Ht; [by apply elem_of_nil in Hn|].
  simpl. apply elem_of_cons in Hn as [->|Hn]; [|specialize (IH Hn Ht); lia].
  unfold occurrences.
  assert (t ∈ filter (fun y => y = t) (default [] (Note.tags x))) as Hin
    by (by apply list_elem_of_filter).
  destruct (filter _ _); [by apply elem_of_nil in Hin | simpl; lia].
Qed.

(** X3: [getAllTags] lists every tag that stands on some note exactly once,
    with the number of times it stands in the tag lists of the snapshot,
    and the counts never increase along the list. *)
Theorem getAllTags_spec (ns : list Note.t) :
  let notes := updateNotes ns in
  let r := getAllTags notes in
  NoDup r.*1 ∧
  (∀ t c, (t, c) ∈ r <->
          (∃ n, n ∈ map_values notes ∧ t ∈ default [] (Note.tags n)) ∧
          c = Z.of_nat (tag_total t (map_values notes))) ∧
  (∀ i j a b, (i <= j)%nat -> r !! i = Some a -> r !! j = Some b ->
              b.2 <= a.2).
Proof.
  intros notes r. unfold r, getAllTags.
  set (counts := foldl count_tags [] (map_values notes)).
  set (cmp := fun a b : string * Z => b.2 - a.2).
  assert (NoDup counts.*1) as Hnd by (apply count_tags_NoDup; constructor).
  assert (∀ t, score_of counts t = Z.of_nat (tag_total t (map_values notes)))
    as Hval by (intros t; unfold counts; by rewrite count_tags_value).
  assert (∀ t, t ∈ counts.*1 <->
               ∃ n, n ∈ map_values notes ∧ t ∈ default [] (Note.tags n))
    as Hkeys.
  { intros t. unfold counts. rewrite count_tags_keys. split; [|by right].
    by intros [?%elem_of_nil|?]. }
  split_and!.
  - by rewrite (sort_perm cmp counts).
  - intros t c. rewrite sort_elem. split.
    + intros Hin. split.
      * apply Hkeys. apply list_elem_of_fmap. by exists (t, c).
      * rewrite <- Hval. unfold score_of.
        by rewrite (map_get_NoDup counts t c).
    + intros [Hn ->]. apply Hkeys, map_get_is_Some in Hn as [c Hc].
      rewrite <- Hval. unfold score_of. rewrite Hc. simpl.
      by apply map_get_Some_elem.
  - intros i j a b Hij Ha Hb.
    destruct (decide (i = j)) as [->|Hne].
    { rewrite Ha in Hb. injection Hb as ->. lia. }
    assert (cmp a b <= 0) as H; [|unfold cmp in H; simpl in H; lia].
    eapply (sorted_lookup cmp _ i j a b); [|lia|exact Ha|exact Hb].
    apply sort_sorted; unfold cmp; simpl; intros; lia.
Qed.

Lemma occurrences_NoDup t ts :
  NoDup ts -> occurrences t ts = if includes ts t then 1%nat else 0%nat.
Proof.
  unfold occurrences, includes. induction 1 as [|x ts Hx Hnd IH]; [done|].
  rewrite filter_cons. destruct (decide (x = t)) as [->|Hne].
  - rewrite bool_decide_true by left. simpl. rewrite IH.
    by rewrite bool_decide_false.
  - rewrite IH. case_bool_decide as H1; case_bool_decide as H2; try done.
    + exfalso. apply H2. by right.
    + exfalso. apply elem_of_cons in H2 as [->|?]; done.
Qed.

Lemma tag_total_by_tag (vals : list Note.t) (t : string) :
  (∀ n, n ∈ vals -> NoDup (default [] (Note.tags n))) ->
  tag_total t vals = length (List.filter (has_tag t) vals).
Proof.
  induction vals as [|n l IH]; intros Hnd; simpl; [done|].
  rewrite IH by (intros; apply Hnd; by right).
  rewrite occurrences_NoDup by (apply Hnd; left).
  unfold has_tag. destruct (Note.tags n) as [ts|]; simpl; [|done].
  by destruct (includes ts t).
Qed.

(** X4: when no note carries a tag twice, the count that [getAllTags]
    reports for a tag is the number of notes that [getNotesByTag] returns
    for it. *)
Theorem getAllTags_getNotesByTag (ns : list Note.t) (t : string) (c : Z) :
  let notes := updateNotes ns in
  (∀ n, n ∈ map_values notes -> NoDup (default [] (Note.tags n))) ->
  (t, c) ∈ getAllTags notes ->
  c = Z.of_nat (length (getNotesByTag notes t)).
Proof.
  intros notes Hnd Hin. unfold getAllTags in Hin. apply sort_elem in Hin.
  assert (NoDup (foldl count_tags [] (map_values notes)).*1) as Hkeys
    by (apply count_tags_NoDup; constructor).
  pose proof (count_tags_value (map_values notes) [] t) as Hval.
  unfold score_of in Hval. rewrite (map_get_NoDup _ t c) in Hval by done.
  simpl in Hval. unfold getNotesByTag.
  rewrite <- tag_total_by_tag by done. lia.
Qed.

Lemma getAllTags_getNotesByTag_witness :
  2 = Z.of_nat (length (getNotesByTag (updateNotes fixture) "tag2")).
Proof.
  apply (getAllTags_getNotesByTag fixture "tag2" 2).
  - apply Forall_forall. apply (bool_decide_unpack _). vm_compute. exact I.
  - vm_compute. left.
Defined.

(** ** Installing a snapshot *)

Lemma updateNotes_get_from (ns : list Note.t) (m : snapshot) (p : string) :
  map_get (foldl (fun m note => map_set m (Note.path note) note) m ns) p =
  match last (filter (fun n => Note.path n = p) ns) with
  | Some n => Some n
  | None => map_get m p
  end.
Proof.
  revert m. induction ns as [|n ns IH]; intros m; simpl; [done|].
  rewrite IH, filter_cons, map_get_set.
  destruct (String.eqb_spec (Note.path n) p) as [E|E].
  - rewrite decide_True by done. rewrite last_cons.
    by destruct (last (filter _ ns)).
  - by rewrite decide_False.
Qed.

Lemma updateNotes_keys_from (ns : list Note.t) (m : snapshot) (p : string) :
  p ∈ (foldl (fun m note => map_set m (Note.path note) note) m ns).*1 <->
  p ∈ m.*1 ∨ p ∈ (Note.path <$> ns).
Proof.
  revert m. induction ns as [|n ns IH]; intros m; simpl.
  - split; [by left | by intros [?|?%elem_of_nil]].
  - rewrite IH, <- !map_get_is_Some, map_get_set, elem_of_cons.
    destruct (String.eqb_spec (Note.path n) p) as [->|Hne].
    + split; [intros _; right; by left | intros _; left; eauto].
    + split; [intros [?|?]; [by left | right; by right]|].
      intros [?|[?|?]]; [by left | congruence | by right].
Qed.

(** X5: [updateNotes] keeps one note per path: looking a path up gives the
    last note of the input that has this path, a path is a key exactly when
    some input note has it, and no key is held twice. *)
Theorem updateNotes_last_wins (ns : list Note.t) (p : string) :
  map_get (updateNotes ns) p = last (filter (fun n => Note.path n = p) ns) ∧
  (p ∈ (updateNotes ns).*1 <-> p ∈ (Note.path <$> ns)) ∧
  NoDup (updateNotes ns).*1.
Proof.
  split_and!.
  - unfold updateNotes. rewrite updateNotes_get_from. simpl.
    by destruct (last _).
  - unfold updateNotes. rewrite updateNotes_keys_from. split; [|by right].
    by intros [?%elem_of_nil|?].
  - apply updateNotes_wf.
Qed.

(** ** The shape of the built graph *)

Definition tag_edge (note : Note.t) (tag : string) : GraphEdge.t :=
  GraphEdge.mk (Note.path note) ("tag:" +:+ tag) "tagged-with" 1.

Definition folder_edges (note : Note.t) : list GraphEdge.t :=
  if has_folder note
  then [GraphEdge.mk (Note.path note)
                     ("folder:" +:+ getFolder (Note.path note)) "in-folder" 1]
  else [].

(** The edges one note contributes, in the order they are pushed. *)
Definition note_edges (notes : snapshot) (note : Note.t) : list GraphEdge.t :=
  (link_edge notes note <$> default [] (Note.links note))
  ++ (tag_edge note <$> default [] (Note.tags note))
  ++ folder_edges note.

Lemma add_link_edges notes note (ls : list Link.t) st :
  b_edges (foldl (add_link notes note) st ls) =
  b_edges st ++ (link_edge notes note <$> ls).
Proof.
  revert st. induction ls as [|l ls IH]; intros st; simpl.
  - by rewrite app_nil_r.
  - rewrite IH. simpl. by rewrite <- app_assoc.
Qed.

Lemma add_tag_edges note (ts : list string) st :
  b_edges (foldl (add_tag note) st ts) = b_edges st ++ (tag_edge note <$> ts).
Proof.
  revert st. induction ts as [|t ts IH]; intros st; simpl.
  - by rewrite app_nil_r.
  - rewrite IH.
    assert (b_edges (add_tag note st t) = b_edges st ++ [tag_edge note t])
      as -> by (unfold add_tag; by destruct (b_tagNodes st !! t)).
    by rewrite <- app_assoc.
Qed.

Lemma add_folder_edges note st :
  b_edges (add_folder note st) = b_edges st ++ folder_edges note.
Proof.
  unfold add_folder, folder_edges, has_folder.
  destruct (negb _ && negb _); [|by rewrite app_nil_r].
  by destruct (b_folderNodes st !! _).
Qed.

Lemma build_note_edges notes st note :
  b_edges (build_note notes st note) = b_edges st ++ note_edges notes note.
Proof.
  rewrite build_note_unfold, add_folder_edges, add_tag_edges, add_link_edges.
  unfold note_edges. simpl. by rewrite <- !app_assoc.
Qed.

Lemma build_loop_edges notes vals st :
  b_edges (build_loop notes vals st) =
  b_edges st ++ concat (note_edges notes <$> vals).
Proof.
  unfold build_loop. revert st.
  induction vals as [|n vals IH]; intros st; simpl.
  - by rewrite app_nil_r.
  - rewrite IH, build_note_edges. by rewrite <- app_assoc.
Qed.

Lemma build_loop_note_nodes notes vals st :
  filter is_note_node (b_nodes (build_loop notes vals st)) =
  filter is_note_node (b_nodes st) ++ (note_graph_node <$> vals).
Proof.
  unfold build_loop. revert st.
  induction vals as [|n vals IH]; intros st; simpl.
  - by rewrite app_nil_r.
  - rewrite IH, (step_notes _ _ _ (build_note_after_push notes st n)). simpl.
    rewrite filter_app, filter_cons_True, filter_nil by done.
    by rewrite <- app_assoc.
Qed.

(** X6: the graph has one note node per note of the snapshot, in snapshot
    order and with the note's path, title, tags, content length and link
    count; and its edge list is, note after note, the note's link edges
    (one per link record, resolved, never merged), then its tag edges, then
    its folder edge. *)
Theorem buildGraph_shape (ns : list Note.t) :
  let notes := updateNotes ns in
  let g := buildGraph notes in
  filter is_note_node (KnowledgeGraph.nodes g) =
    (note_graph_node <$> map_values notes) ∧
  KnowledgeGraph.edges g = concat (note_edges notes <$> map_values notes).
Proof.
  intros notes g. unfold g, buildGraph. simpl.
  by rewrite build_loop_note_nodes, build_loop_edges.
Qed.

(** *** Tag and folder nodes are created once *)

Definition titles_of (k : NodeType) (nodes : list GraphNode.t) : list string :=
  GraphNode.title <$> filter (fun n => GraphNode.type n = k) nodes.

Lemma titles_of_snoc k nodes n :
  titles_of k (nodes ++ [n]) =
  if decide (GraphNode.type n = k) then titles_of k nodes ++ [GraphNode.title n]
  else titles_of k nodes.
Proof.
  unfold titles_of. rewrite filter_app, filter_cons, filter_nil.
  destruct (decide (GraphNode.type n = k)).
  - by rewrite fmap_app.
  - by rewrite app_nil_r.
Qed.

(** The bookkeeping maps mirror the synthetic nodes pushed so far. *)
Record synth_inv (st : build_state) : Prop := {
  si_tag_nodup : NoDup (titles_of tag_node (b_nodes st));
  si_tag_dom : ∀ t, t ∈ titles_of tag_node (b_nodes st) <->
                    is_Some (b_tagNodes st !! t);
  si_folder_nodup : NoDup (titles_of folder_node (b_nodes st));
  si_folder_dom : ∀ f, f ∈ titles_of folder_node (b_nodes st) <->
                       is_Some (b_folderNodes st !! f);
  si_form : ∀ n, n ∈ b_nodes st ->
      (GraphNode.type n = tag_node ->
       GraphNode.id n = "tag:" +:+ GraphNode.title n) ∧
      (GraphNode.type n = folder_node ->
       GraphNode.id n = "folder:" +:+ GraphNode.title n);
}.

(** A step from [st] to [st'] keeps the bookkeeping and adds the tags [T]
    and the folders [F] to the titles of the synthetic nodes. *)
Definition grows (st st' : build_state) (T F : string -> Prop) : Prop :=
  synth_inv st ->
  synth_inv st' ∧
  (∀ t, t ∈ titles_of tag_node (b_nodes st') <->
        t ∈ titles_of tag_node (b_nodes st) ∨ T t) ∧
  (∀ f, f ∈ titles_of folder_node (b_nodes st') <->
        f ∈ titles_of folder_node (b_nodes st) ∨ F f).

Lemma grows_refl st : grows st st (fun _ => False) (fun _ => False).
Proof. intros H. split_and!; [done | |]; intros; tauto. Qed.

Lemma grows_trans st1 st2 st3 (T1 T2 F1 F2 T F : string -> Prop) :
  grows st1 st2 T1 F1 -> grows st2 st3 T2 F2 ->
  (∀ t, T t <-> T1 t ∨ T2 t) -> (∀ f, F f <-> F1 f ∨ F2 f) ->
  grows st1 st3 T F.
Proof.
  intros H12 H23 HT HF H1.
  destruct (H12 H1) as (H2 & Ht2 & Hf2).
  destruct (H23 H2) as (H3 & Ht3 & Hf3).
  split_and!; [done | |].
  - intros t. rewrite Ht3, Ht2, HT. tauto.
  - intros f. rewrite Hf3, Hf2, HF. tauto.
Qed.

Lemma push_note_grows st note :
  grows st (push_note st note) (fun _ => False) (fun _ => False).
Proof.
  intros [A B C D E].
  assert (∀ k, k ≠ note_node ->
               titles_of k (b_nodes (push_note st note)) =
               titles_of k (b_nodes st)) as Hk.
  { intros k Hk. simpl. rewrite titles_of_snoc. by rewrite decide_False. }
  split_and!.
  - split; rewrite ?Hk by done; try done.
    intros n [Hn| ->%list_elem_of_singleton]%elem_of_app; [by apply E|].
    by split.
  - intros t. rewrite Hk by done. tauto.
  - intros f. rewrite Hk by done. tauto.
Qed.

Lemma add_link_grows notes note st link :
  grows st (add_link notes note st link) (fun _ => False) (fun _ => False).
Proof. intros [A B C D E]. split_and!; [by split | |]; intros; simpl; tauto. Qed.

Lemma add_tag_grows note st tag :
  grows st (add_tag note st tag) (fun t => t = tag) (fun _ => False).
Proof.
  intros [A B C D E]. unfold add_tag.
  destruct (b_tagNodes st !! tag) as [x|] eqn:Hl; simpl.
  - split_and!; [by split | |].
    + intros t. split; [by left|]. intros [?| ->]; [done|].
      apply B. by rewrite Hl.
    + intros; tauto.
  - assert (tag ∉ titles_of tag_node (b_nodes st)) as Hfresh.
    { rewrite B, Hl. by intros [? ?]. }
    split_and!.
    + split; simpl.
      * rewrite titles_of_snoc. simpl.
        apply NoDup_app. split_and!; [done | | apply NoDup_singleton].
        by intros t Ht ->%list_elem_of_singleton.
      * intros t. rewrite titles_of_snoc. simpl.
        rewrite elem_of_app, list_elem_of_singleton, B.
        destruct (decide (tag = t)) as [->|Hne].
        -- rewrite lookup_insert_eq. split; [eauto | by right].
        -- rewrite lookup_insert_ne by done. split; [|by left].
           by intros [?| ->].
      * by rewrite titles_of_snoc.
      * intros f. by rewrite titles_of_snoc.
      * intros n [Hn| ->%list_elem_of_singleton]%elem_of_app; [by apply E|].
        by split.
    + intros t. rewrite titles_of_snoc. simpl.
      by rewrite elem_of_app, list_elem_of_singleton.
    + intros f. rewrite titles_of_snoc. simpl. tauto.
Qed.

Lemma add_folder_grows note st :
  grows st (add_folder note st)
        (fun _ => False)
        (fun f => has_folder note = true ∧ f = getFolder (Note.path note)).
Proof.
  intros [A B C D E]. unfold add_folder, has_folder.
  destruct (negb _ && negb _) eqn:Hf.
  2:{ split_and!; [by split | |]; intros; [tauto|].
      split; [by left | by intros [?|[? _]]]. }
  set (folder := getFolder (Note.path note)) in *.
  destruct (b_folderNodes st !! folder) as [x|] eqn:Hl; simpl.
  - split_and!; [by split | |].
    + intros; tauto.
    + intros f. split; [by left|]. intros [?|[_ ->]]; [done|].
      apply D. by rewrite Hl.
  - assert (folder ∉ titles_of folder_node (b_nodes st)) as Hfresh.
    { rewrite D, Hl. by intros [? ?]. }
    split_and!.
    + split; simpl.
      * by rewrite titles_of_snoc.
      * intros t. by rewrite titles_of_snoc.
      * rewrite titles_of_snoc. simpl.
        apply NoDup_app. split_and!; [done | | apply NoDup_singleton].
        by intros t Ht ->%list_elem_of_singleton.
      * intros t. rewrite titles_of_snoc. simpl.
        rewrite elem_of_app, list_elem_of_singleton, D.
        destruct (decide (folder = t)) as [<-|Hne].
        -- rewrite lookup_insert_eq. split; [eauto | by right].
        -- rewrite lookup_insert_ne by done. split; [|by left].
           by intros [?| ->].
      * intros n [Hn| ->%list_elem_of_singleton]%elem_of_app; [by apply E|].
        by split.
    + intros t. rewrite titles_of_snoc. simpl. tauto.
    + intros f. rewrite titles_of_snoc. simpl.
      rewrite elem_of_app, list_elem_of_singleton. split; [|tauto].
      intros [?| ->]; [by left | by right].
Qed.

Lemma foldl_grows {X} (f : build_state -> X -> build_state)
    (g : X -> string) (xs : list X) st :
  (∀ s x, grows s (f s x) (fun t => t = g x) (fun _ => False)) ->
  grows st (foldl f st xs) (fun t => t ∈ (g <$> xs)) (fun _ => False).
Proof.
  intros Hf. revert st. induction xs as [|x xs IH]; intros st; simpl.
  - eapply grows_trans; [apply grows_refl | apply grows_refl | |];
      intros; [|tauto]. split; [by intros ?%elem_of_nil | tauto].
  - eapply grows_trans; [apply Hf | apply IH | |]; intros; [|tauto].
    by rewrite elem_of_cons.
Qed.

Lemma add_links_grows notes note (ls : list Link.t) st :
  grows st (foldl (add_link notes note) st ls)
        (fun _ => False) (fun _ => False).
Proof.
  revert st. induction ls as [|l ls IH]; intros st; simpl; [apply grows_refl|].
  eapply grows_trans; [apply add_link_grows | apply IH | |]; intros; tauto.
Qed.

Lemma build_note_grows notes st note :
  grows st (build_note notes st note)
        (fun t => t ∈ default [] (Note.tags note))
        (fun f => has_folder note = true ∧ f = getFolder (Note.path note)).
Proof.
  rewrite build_note_unfold. intros H0.
  destruct (push_note_grows st note H0) as (H1 & T1 & F1).
  destruct (add_links_grows notes note (default [] (Note.links note)) _ H1)
    as (H2 & T2 & F2).
  destruct (foldl_grows (add_tag note) id (default [] (Note.tags note)) _
              (fun s x => add_tag_grows note s x) H2) as (H3 & T3 & F3).
  destruct (add_folder_grows note _ H3) as (H4 & T4 & F4).
  split_and!; [done | |].
  - intros t. rewrite T4, T3, T2, T1, list_fmap_id. tauto.
  - intros f. rewrite F4, F3, F2, F1. tauto.
Qed.

Lemma build_loop_grows notes vals st :
  grows st (build_loop notes vals st)
        (fun t => ∃ n, n ∈ vals ∧ t ∈ default [] (Note.tags n))
        (fun f => ∃ n, n ∈ vals ∧ has_folder n = true ∧
                       f = getFolder (Note.path n)).
Proof.
  unfold build_loop. revert st.
  induction vals as [|n vals IH]; intros st; simpl.
  - intros H0. split_and!; [done | |]; intros x;
      (split; [by left | intros [?|(? & ?%elem_of_nil & _)]; done]).
  - intros H0.
    destruct (build_note_grows notes st n H0) as (H1 & T1 & F1).
    destruct (IH _ H1) as (H2 & T2 & F2).
    split_and!; [done | |].
    + intros t. rewrite T2, T1. split.
      * intros [[?|?]|(m & ? & ?)]; [by left | right; exists n | right; exists m];
          (split; [|done]); [left | by right].
      * intros [?|(m & [->|?]%elem_of_cons & ?)];
          [by left; left | by left; right | right; by exists m].
    + intros f. rewrite F2, F1. split.
      * intros [[?|[? ?]]|(m & ? & ?)];
          [by left | right; exists n | right; exists m];
          (split; [|done]); [left | by right].
      * intros [?|(m & [->|?]%elem_of_cons & ?)];
          [by left; left | by left; right | right; by exists m].
Qed.

(** X7: however many notes carry a tag or lie in a folder, the graph has
    exactly one tag node per tag that stands on some note and one folder
    node per folder of a note that has one; a tag node for [t] has the id
    ["tag:" + t] and a folder node for [f] the id ["folder:" + f]. *)
Theorem buildGraph_synthetic_nodes (ns : list Note.t) :
  let notes := updateNotes ns in
  let nodes := KnowledgeGraph.nodes (buildGraph notes) in
  NoDup (titles_of tag_node nodes) ∧
  (∀ t, t ∈ titles_of tag_node nodes <->
        ∃ n, n ∈ map_values notes ∧ t ∈ default [] (Note.tags n)) ∧
  NoDup (titles_of folder_node nodes) ∧
  (∀ f, f ∈ titles_of folder_node nodes <->
        ∃ n, n ∈ map_values notes ∧ has_folder n = true ∧
             f = getFolder (Note.path n)) ∧
  (∀ n, n ∈ nodes ->
        (GraphNode.type n = tag_node ->
         GraphNode.id n = "tag:" +:+ GraphNode.title n) ∧
        (GraphNode.type n = folder_node ->
         GraphNode.id n = "folder:" +:+ GraphNode.title n)).
Proof.
  intros notes nodes. unfold nodes, buildGraph. simpl.
  destruct (build_loop_grows notes (map_values notes) (mk_build [] [] ∅ ∅))
    as ([A B C D E] & HT & HF).
  { split; simpl.
    - apply NoDup_nil_2.
    - intros t. split; [by intros ?%elem_of_nil|].
      intros [? H]. by rewrite lookup_empty in H.
    - apply NoDup_nil_2.
    - intros t. split; [by intros ?%elem_of_nil|].
      intros [? H]. by rewrite lookup_empty in H.
    - by intros ? ?%elem_of_nil. }
  split_and!; try done.
  - intros t. rewrite HT. split; [|by right]. by intros [?%elem_of_nil|?].
  - intros f. rewrite HF. split; [|by right]. by intros [?%elem_of_nil|?].
Qed.

(** ** What the bounded traversal returns *)

(** Below the start: the start is visited, related paths are visited, and
    no path is related twice or is the start. *)
Definition related_ok (start : string) (st : trav_state) : Prop :=
  start ∈ t_visited st ∧
  (∀ p, p ∈ t_related st -> p ∈ t_visited st) ∧
  NoDup (t_related st) ∧
  start ∉ t_related st.

Lemma visit_related_ok notes start path depth st :
  1 <= depth -> path ∉ t_visited st -> related_ok start st ->
  related_ok start (visit notes path depth st).
Proof.
  intros Hd Hp (Hs & Hsub & Hnd & Hns). unfold visit.
  assert (path ∉ t_related st) as Hpr by (intros ?; by apply Hp, Hsub).
  assert (path ≠ start) as Hne by (by intros ->).
  destruct (map_get notes path); simpl.
  - destruct (Z.gtb_spec depth 0); [|lia].
    unfold set_add. rewrite bool_decide_false by done.
    split_and!; [set_solver | | |].
    + intros p [?| ->%list_elem_of_singleton]%elem_of_app; set_solver.
    + apply NoDup_app. split_and!; [done | | apply NoDup_singleton].
      by intros p ? ->%list_elem_of_singleton.
    + intros [?| ->%list_elem_of_singleton]%elem_of_app; done.
  - split_and!; [set_solver | | done | done].
    intros p ?. set_solver.
Qed.

Lemma related_facts notes start maxDepth :
  NoDup (related notes start maxDepth) ∧
  (start ∉ related notes start maxDepth) ∧
  (map_get notes start = None -> related notes start maxDepth = []).
Proof.
  destruct (decide (maxDepth < 0)) as [Hneg|Hpos].
  { rewrite related_depth_zero by lia.
    split_and!; [constructor | by intros ?%elem_of_nil | done]. }
  unfold related.
  replace (Z.to_nat (maxDepth + 2)) with (S (Z.to_nat (maxDepth + 1))) by lia.
  rewrite traverse_start. destruct (Z.ltb_spec maxDepth 0); [lia|].
  destruct (map_get notes start) as [note|]; simpl;
    [|split_and!; [constructor | by intros ?%elem_of_nil | done]].
  assert (related_ok start
            (children notes maxDepth (Z.to_nat (maxDepth + 1)) note
                      (mk_trav [] {[start]}))) as (_ & _ & Hnd & Hns).
  { unfold children.
    assert (∀ f p s, related_ok start s ->
                     related_ok start (traverse f notes maxDepth p 1 s)) as Hc.
    { intros f p s Hs.
      apply (traverse_visit_inv notes maxDepth (related_ok start) 1);
        [|lia|done].
      intros s' q d Hd Hq Hs'. apply visit_related_ok; [lia | done | done]. }
    repeat (apply foldl_preserve; [intros; by apply Hc|]).
    split_and!; simpl; [set_solver | by intros ? ?%elem_of_nil
                        | constructor | by intros ?%elem_of_nil]. }
  done.
Qed.

Lemma getRelatedNotes_paths (notes : snapshot) start maxDepth :
  snapshot_wf notes ->
  Note.path <$> getRelatedNotes notes start maxDepth =
  related notes start maxDepth.
Proof.
  intros Hwf. unfold getRelatedNotes.
  assert (∀ p, p ∈ related notes start maxDepth ->
               is_Some (map_get notes p)) as Hknown
    by (intros p; apply related_known).
  revert Hknown. generalize (related notes start maxDepth).
  induction l as [|p l IH]; intros Hl; simpl; [done|].
  destruct (Hl p) as [n Hn]; [left|]. rewrite Hn. simpl.
  destruct (snapshot_get_path notes p n Hwf Hn) as [-> _].
  f_equal. apply IH. intros q Hq. apply Hl. by right.
Qed.

(** X8: [getRelatedNotes] never returns the start note, never returns a
    note twice, and returns nothing when the start is not a note of the
    snapshot. *)
Theorem getRelatedNotes_distinct (ns : list Note.t) (start : string)
    (maxDepth : Z) :
  let notes := updateNotes ns in
  let r := getRelatedNotes notes start maxDepth in
  NoDup (Note.path <$> r) ∧ NoDup r ∧
  (start ∉ (Note.path <$> r)) ∧
  (map_get notes start = None -> r = []).
Proof.
  intros notes r. pose proof (updateNotes_wf ns) as Hwf. fold notes in Hwf.
  destruct (related_facts notes start maxDepth) as (Hnd & Hns & Hnone).
  unfold r. rewrite getRelatedNotes_paths by done.
  split_and!; [done | | done |].
  - apply (NoDup_fmap_1 Note.path). by rewrite getRelatedNotes_paths.
  - intros Hget. unfold getRelatedNotes. by rewrite Hnone.
Qed.

(** One step of the traversal: along an outgoing link, resolved, or back
    along a backlink. *)
Definition adjacent (notes : snapshot) (u v : string) : Prop :=
  ∃ note, map_get notes u = Some note ∧ v ∈ neighbours notes note.

Lemma traverse_within notes maxDepth start fuel :
  ∀ path depth st,
    0 <= depth ->
    nsteps (adjacent notes) (Z.to_nat depth) start path ->
    (∀ p, p ∈ t_related st ->
          ∃ k : nat, (1 <= k)%nat ∧ Z.of_nat k <= maxDepth ∧
                     nsteps (adjacent notes) k start p) ->
    ∀ p, p ∈ t_related (traverse fuel notes maxDepth path depth st) ->
         ∃ k : nat, (1 <= k)%nat ∧ Z.of_nat k <= maxDepth ∧
                    nsteps (adjacent notes) k start p.
Proof.
  induction fuel as [|fuel IH]; intros path depth st Hd Hpath Hst; simpl;
    [done|].
  destruct (Z.gtb_spec depth maxDepth) as [Hgt|Hle]; [done|]. simpl.
  case_bool_decide as Hv; [done|].
  destruct (map_get notes path) as [note|] eqn:Hget; [|done].
  set (st2 := if depth >? 0
              then mk_trav (set_add path (t_related st))
                           ({[path]} ∪ t_visited st)
              else mk_trav (t_related st) ({[path]} ∪ t_visited st)).
  assert (∀ p, p ∈ t_related st2 ->
               ∃ k : nat, (1 <= k)%nat ∧ Z.of_nat k <= maxDepth ∧
                          nsteps (adjacent notes) k start p) as H2.
  { unfold st2. destruct (Z.gtb_spec depth 0) as [Hpos|Hz]; simpl; [|done].
    intros p [Hp| ->]%set_add_elem; [by apply Hst|].
    exists (Z.to_nat depth). split_and!; [lia | lia | done]. }
  assert (∀ q, q ∈ neighbours notes note ->
               nsteps (adjacent notes) (Z.to_nat (depth + 1)) start q) as Hq.
  { intros q Hq. replace (Z.to_nat (depth + 1)) with (S (Z.to_nat depth))
      by lia.
    eapply nsteps_r; [done|]. by exists note. }
  set (Q := fun s : trav_state =>
              ∀ p, p ∈ t_related s ->
                   ∃ k : nat, (1 <= k)%nat ∧ Z.of_nat k <= maxDepth ∧
                              nsteps (adjacent notes) k start p).
  assert (∀ (ls : list Link.t) (g : Link.t -> string) s,
            (∀ l, l ∈ ls -> g l ∈ neighbours notes note) -> Q s ->
            Q (foldl (fun s l => traverse fuel notes maxDepth (g l)
                                          (depth + 1) s) s ls)) as Hfold.
  { intros ls g s Hg Hs. apply (foldl_preserve_in Q); [|done].
    intros s' l Hl Hs'. unfold Q. apply IH; [lia | by apply Hq, Hg | done]. }
  assert (∀ l, l ∈ default [] (Note.links note) ->
               resolveNotePath notes (Link.target l) ∈ neighbours notes note)
    as Hlinks.
  { intros l Hl. apply elem_of_app. left. apply list_elem_of_fmap. by exists l. }
  assert (∀ b, b ∈ default [] (Note.backlinks note) ->
               Link.source b ∈ neighbours notes note) as Hbacks.
  { intros b Hb. apply elem_of_app. right. apply list_elem_of_fmap.
    by exists b. }
  fold st2.
  destruct (Note.links note) as [ls|], (Note.backlinks note) as [bs|];
    simpl in Hlinks, Hbacks.
  - apply (Hfold bs Link.source); [done|].
    by apply (Hfold ls (fun l => resolveNotePath notes (Link.target l))).
  - by apply (Hfold ls (fun l => resolveNotePath notes (Link.target l))).
  - by apply (Hfold bs Link.source).
  - done.
Qed.

(** X9: every id in the related set lies within the depth bound of the
    start: it is reached from the start in at least one and at most
    [maxDepth] steps, each along a resolved outgoing link or back along a
    backlink of a note of the snapshot. *)
Theorem related_within_bound (ns : list Note.t) (start p : string)
    (maxDepth : Z) :
  let notes := updateNotes ns in
  p ∈ related notes start maxDepth ->
  ∃ k : nat, (1 <= k)%nat ∧ Z.of_nat k <= maxDepth ∧
             nsteps (adjacent notes) k start p.
Proof.
  intros notes. unfold related.
  apply (traverse_within notes maxDepth start); [lia | constructor|].
  by intros q ?%elem_of_nil.
Qed.

Lemma related_within_bound_witness :
  ∃ k : nat, (1 <= k)%nat ∧ Z.of_nat k <= 2 ∧
             nsteps (adjacent (updateNotes fixture)) k "note1.md" "note3.md".
Proof.
  apply (related_within_bound fixture "note1.md" "note3.md" 2).
  vm_compute. right. left.
Defined.

(** ** What a found path looks like *)

Lemma route_prefix notes a b r (i : nat) x :
  route notes a b r -> r !! i = Some x -> nsteps (edge notes) i a x.
Proof.
  intros (Hh & Hl & Hc) Hi. apply nsteps_list. exists (take (S i) r).
  pose proof (lookup_lt_Some _ _ _ Hi) as Hlt.
  split_and!.
  - rewrite length_take. lia.
  - destruct r; [done | done].
  - rewrite last_lookup, length_take.
    replace (pred (S i `min` length r)) with i by lia.
    rewrite lookup_take_lt by lia. done.
  - intros k y z [Hy _]%lookup_take_Some [Hz _]%lookup_take_Some.
    by eapply Hc.
Qed.

Lemma route_suffix notes a b r (i : nat) x :
  route notes a b r -> r !! i = Some x ->
  nsteps (edge notes) (length r - 1 - i) x b.
Proof.
  intros (Hh & Hl & Hc) Hi. apply nsteps_list. exists (drop i r).
  pose proof (lookup_lt_Some _ _ _ Hi) as Hlt.
  split_and!.
  - rewrite length_drop. lia.
  - rewrite head_lookup, lookup_drop, Nat.add_0_r. done.
  - rewrite last_lookup, length_drop, lookup_drop.
    rewrite last_lookup in Hl.
    replace (i + pred (length r - i))%nat with (pred (length r)) by lia. done.
  - intros k y z Hy Hz. rewrite lookup_drop in Hy, Hz.
    replace (i + S k)%nat with (S (i + k)) in Hz by lia. by eapply Hc.
Qed.

Lemma shortest_route_NoDup notes a b r :
  route notes a b r ->
  (∀ r', route notes a b r' -> (length r <= length r')%nat) ->
  NoDup r.
Proof.
  intros Hr Hmin. apply NoDup_alt. intros i j x Hi Hj.
  destruct (decide (i = j)) as [|Hne]; [done|]. exfalso.
  assert (∀ i j, (i < j)%nat -> r !! i = Some x -> r !! j = Some x -> False)
    as Hlt.
  { clear i j Hi Hj Hne. intros i j Hij Hi Hj.
    pose proof (route_prefix notes a b r i x Hr Hi) as H1.
    pose proof (route_suffix notes a b r j x Hr Hj) as H2.
    pose proof (lookup_lt_Some _ _ _ Hj) as Hjl.
    destruct (nsteps_route notes _ _ _ (nsteps_trans _ _ _ _ _ H1 H2))
      as (r' & Hr' & Hlen).
    specialize (Hmin r' Hr'). lia. }
  destruct (decide (i < j)%nat); [by apply (Hlt i j) | apply (Hlt j i); [lia|..]];
    done.
Qed.

(** X10: a sequence returned by [findPath] never holds an id twice, and
    every id in it except the last is the path of a note of the snapshot;
    and from an id that is no note of the snapshot the only path found is
    the one to itself. *)
Theorem findPath_simple (ns : list Note.t) (from_id to_id : string) :
  let notes := updateNotes ns in
  (∀ r, findPath notes from_id to_id = Some r ->
        NoDup r ∧
        ∀ i x, r !! i = Some x -> (S i < length r)%nat ->
               is_Some (map_get notes x)) ∧
  (map_get notes from_id = None -> from_id ≠ to_id ->
   findPath notes from_id to_id = None).
Proof.
  intros notes. pose proof (findPath_correct notes from_id to_id) as H.
  destruct (findPath notes from_id to_id) as [r|]; [|by split].
  destruct H as [Hr Hmin]. split.
  - intros r' [= <-]. split; [by eapply shortest_route_NoDup|].
    intros i x Hi Hlen.
    destruct (lookup_lt_is_Some_2 r (S i) Hlen) as [y Hy].
    destruct Hr as (_ & _ & Hc).
    destruct (Hc i x y Hi Hy) as (note & _ & _ & Hget & _). eauto.
  - intros Hnone Hne. exfalso.
    destruct Hr as (Hh & Hl & Hc).
    destruct r as [|x [|y r]]; simpl in *; [done | congruence|].
    injection Hh as ->.
    destruct (Hc 0%nat from_id y eq_refl eq_refl) as (note & _ & _ & Hget & _).
    congruence.
Qed.

(** ** More on the resolver *)

(** X11: the resolver returns the path of a note of the snapshot or else
    the normalized target itself; and a path that ends with ".md" and names
    a note of the snapshot resolves to itself. *)
Theorem resolveNotePath_result (ns : list Note.t) (t : string) :
  let notes := updateNotes ns in
  (is_Some (map_get notes (resolveNotePath notes t)) ∨
   resolveNotePath notes t = normalize t) ∧
  (ends_with t ".md" -> is_Some (map_get notes t) ->
   resolveNotePath notes t = t).
Proof.
  intros notes. unfold resolveNotePath. fold (normalize t). split.
  - destruct (map_has notes (normalize t)); [by right|].
    destruct (List.find _ notes) as [[p n]|] eqn:Hf; [|by right].
    left. apply find_some in Hf as [Hin _].
    apply map_get_is_Some, list_elem_of_fmap. exists (p, n).
    split; [done | by apply list_elem_of_In].
  - intros Hmd Ht.
    assert (normalize t = t) as ->.
    { unfold normalize. apply endsWith_spec in Hmd. by rewrite Hmd. }
    assert (map_has notes t = true) as ->; [|done].
    by apply map_has_true, map_get_is_Some.
Qed.

(** ** Ranking by a count or a score *)

(** The comparator [(a, b) => b[1] - a[1]] of the three rankings. *)
Definition by_count_desc (a b : string * Z) : Z := b.2 - a.2.

(** The sort is stable: entries with one and the same count keep their
    order. *)
Lemma sort_insert_stable (c : Z) (x : string * Z) (l : list (string * Z)) :
  filter (fun e => e.2 = c) (JS.sort_insert by_count_desc x l) =
  filter (fun e => e.2 = c) (x :: l).
Proof.
  induction l as [|y l IH]; simpl; [done|].
  destruct (Z.leb_spec (by_count_desc x y) 0) as [Hle|Hgt]; [done|].
  rewrite filter_cons, IH, !filter_cons. unfold by_count_desc in Hgt.
  destruct (decide (y.2 = c)), (decide (x.2 = c)); try done. lia.
Qed.

Lemma sort_stable (c : Z) (l : list (string * Z)) :
  filter (fun e => e.2 = c) (JS.sort by_count_desc l) =
  filter (fun e => e.2 = c) l.
Proof.
  induction l as [|x l IH]; simpl; [done|].
  by rewrite sort_insert_stable, !filter_cons, IH.
Qed.

Lemma sort_by_count_sorted (l : list (string * Z)) :
  StronglySorted (before by_count_desc) (JS.sort by_count_desc l).
Proof. apply sort_sorted; unfold by_count_desc; intros; lia. Qed.

Lemma slice0_take {A} (l : list A) (k : Z) :
  0 <= k -> JS.slice0 l k = take (Z.to_nat k) l.
Proof.
  intros Hk. unfold JS.slice0. destruct (Z.ltb_spec k 0); [lia|].
  destruct (decide (k <= Z.of_nat (length l))).
  - by rewrite Z.min_l.
  - rewrite Z.min_r, Nat2Z.id by lia. rewrite !take_ge by lia. done.
Qed.

(** X12: [mostConnectedNodes] holds at most ten entries with distinct ids,
    each a note's path with its number of link and backlink records, in
    order of non-increasing number; a note that is left out has no more
    connections than any entry; entries with equal numbers stand in
    snapshot order; and with at most ten notes every note is listed. *)
Theorem analyzeGraph_mostConnected (ns : list Note.t) :
  let notes := updateNotes ns in
  let top := GraphAnalysis.mostConnectedNodes (analyzeGraph notes) in
  let all := (fun n => (Note.path n, linkCount n)) <$> map_values notes in
  (length top <= 10)%nat ∧
  NoDup top.*1 ∧
  (∀ e, e ∈ top -> e ∈ all) ∧
  (∀ i j a b, (i <= j)%nat -> top !! i = Some a -> top !! j = Some b ->
              b.2 <= a.2) ∧
  (∀ e x, e ∈ top -> x ∈ all -> x ∉ top -> x.2 <= e.2) ∧
  (∀ c, filter (fun e => e.2 = c) top `prefix_of`
        filter (fun e => e.2 = c) all) ∧
  ((length (map_values notes) <= 10)%nat -> ∀ x, x ∈ all -> x ∈ top).
Proof.
  intros notes top all. pose proof (updateNotes_wf ns) as Hwf.
  fold notes in Hwf.
  assert (top = take 10 (JS.sort by_count_desc all)) as Htop.
  { unfold top, analyzeGraph. simpl. rewrite slice0_take by lia.
    rewrite analyze_counts; [done|]. simpl. by apply snapshot_paths_NoDup. }
  set (sorted := JS.sort by_count_desc all) in *.
  assert (sorted ≡ₚ all) as Hperm by apply sort_perm.
  assert (NoDup all.*1) as Hnd.
  { unfold all. rewrite <- list_fmap_compose.
    by apply snapshot_paths_NoDup. }
  pose proof (sort_by_count_sorted all) as Hsorted. fold sorted in Hsorted.
  split_and!.
  - rewrite Htop, length_take. lia.
  - rewrite Htop, fmap_take. eapply sublist_NoDup; [|apply sublist_take].
    by rewrite Hperm.
  - intros e He. rewrite Htop in He. rewrite <- Hperm.
    apply elem_of_take in He as (i & Hi & _). by eapply list_elem_of_lookup_2.
  - intros i j a b Hij Ha Hb. rewrite Htop in Ha, Hb.
    apply lookup_take_Some in Ha as [Ha _].
    apply lookup_take_Some in Hb as [Hb _].
    destruct (decide (i = j)) as [->|Hne].
    { rewrite Ha in Hb. injection Hb as ->. lia. }
    assert (by_count_desc a b <= 0) as H;
      [|unfold by_count_desc in H; lia].
    eapply (sorted_lookup by_count_desc _ i j a b);
      [exact Hsorted | lia | exact Ha | exact Hb].
  - intros e x He Hx Hnot. rewrite Htop in He, Hnot.
    rewrite <- Hperm, <- (take_drop 10 sorted) in Hx.
    apply elem_of_app in Hx as [Hx|Hx]; [done|].
    rewrite <- (take_drop 10 sorted) in Hsorted.
    pose proof (StronglySorted_app_1_elem_of _ _ _ e x Hsorted He Hx) as H.
    unfold before, by_count_desc in H. lia.
  - intros c. rewrite <- (sort_stable c all), Htop. fold sorted.
    rewrite <- (take_drop 10 sorted) at 2. rewrite filter_app.
    by apply prefix_app_r.
  - intros Hlen x Hx. rewrite Htop, take_ge; [by rewrite Hperm|].
    rewrite Hperm. unfold all. rewrite length_fmap. lia.
Qed.

(** ** Completeness of the suggestions *)

Lemma pass_keys_mono notePath pts vals (scores : list (string * Z)) p :
  p ∈ scores.*1 -> p ∈ (foldl (score_step notePath pts) scores vals).*1.
Proof.
  revert scores. induction vals as [|c vals IH]; intros scores Hp; simpl;
    [done|].
  apply IH. unfold score_step.
  destruct (String.eqb _ notePath); [done|].
  destruct (pts c >? 0); [|done]. apply bump_keys. by left.
Qed.

Lemma pass_keys_hit notePath pts vals (scores : list (string * Z)) c :
  c ∈ vals -> Note.path c ≠ notePath -> 0 < pts c ->
  Note.path c ∈ (foldl (score_step notePath pts) scores vals).*1.
Proof.
  revert scores. induction vals as [|x vals IH]; intros scores Hc Hne Hpos;
    [by apply elem_of_nil in Hc|].
  simpl. apply elem_of_cons in Hc as [->|Hc]; [|by apply IH].
  apply pass_keys_mono. unfold score_step.
  destruct (String.eqb_spec (Note.path x) notePath); [done|].
  destruct (Z.gtb_spec (pts x) 0); [|lia]. apply bump_keys. by right.
Qed.

Lemma suggest_scores_complete notes notePath note c :
  c ∈ map_values notes -> Note.path c ≠ notePath ->
  0 < accumulated note notePath c ->
  Note.path c ∈ (suggest_scores notes notePath note).*1.
Proof.
  intros Hc Hne Hpos. rewrite suggest_scores_passes.
  unfold accumulated in Hpos.
  set (tp := match Note.tags note with
             | Some nt => tag_points nt c
             | None => 0
             end) in Hpos.
  set (wp := title_points _ c) in Hpos.
  set (fp := folder_points _ c) in Hpos.
  assert (0 <= tp) as Htp
    by (unfold tp; destruct (Note.tags note); [apply tag_points_nonneg|lia]).
  pose proof (title_points_nonneg
                (JS.split_ws (JS.toLowerCase (Note.title note))) c) as Hwp.
  fold wp in Hwp.
  destruct (decide (0 < fp)) as [Hf|Hf]; [by apply pass_keys_hit|].
  apply pass_keys_mono.
  destruct (decide (0 < wp)) as [Hw|Hw]; [by apply pass_keys_hit|].
  apply pass_keys_mono.
  assert (0 < tp) as Ht by lia. unfold tp in Ht.
  destruct (Note.tags note) as [nt|]; [by apply pass_keys_hit | lia].
Qed.

(** X13: with a limit of at least the number of notes, nothing is cut off:
    every other note whose relatedness to the known note [n] is positive is
    in the result with that score (the tags of [n] being duplicate-free). *)
Theorem suggestRelatedNotes_complete (ns : list Note.t) (p0 : string) (k : Z)
    (n c : Note.t) :
  let notes := updateNotes ns in
  map_get notes p0 = Some n ->
  NoDup (default [] (Note.tags n)) ->
  Z.of_nat (length (map_values notes)) <= k ->
  c ∈ map_values notes -> Note.path c ≠ p0 -> 0 < relatedness n c ->
  (Note.path c, relatedness n c) ∈ suggestRelatedNotes notes p0 k.
Proof.
  intros notes Hn Hnd Hk Hc Hne Hpos.
  pose proof (updateNotes_wf ns) as Hwf. fold notes in Hwf.
  destruct (snapshot_get_path notes p0 n Hwf Hn) as [Hp0 _].
  rewrite <- (accumulated_relatedness n c Hnd), Hp0 in Hpos |- *.
  destruct (suggest_scores_spec notes p0 n Hwf) as [Hkeys Hsc].
  set (sc := suggest_scores notes p0 n) in *.
  assert ((Note.path c, accumulated n p0 c) ∈ sc) as Hin.
  { pose proof (suggest_scores_complete notes p0 n c Hc Hne Hpos) as Hkey.
    fold sc in Hkey.
    apply list_elem_of_fmap in Hkey as ([p s] & Hp & Hps). simpl in Hp.
    subst p. destruct (Hsc _ _ Hps) as (_ & _ & c' & Hc' & ->).
    rewrite (snapshot_get_value notes c Hwf Hc) in Hc'.
    by injection Hc' as <-. }
  unfold suggestRelatedNotes. rewrite Hn. fold sc.
  assert (length sc <= length (map_values notes))%nat as Hlen.
  { assert (length sc.*1 <= length notes.*1)%nat as H;
      [|unfold map_values; by rewrite !length_fmap in *].
    apply submseteq_length, NoDup_submseteq; [done|].
    intros p ([p' s] & -> & Hps)%list_elem_of_fmap.
    destruct (Hsc _ _ Hps) as (_ & _ & c' & Hc' & _).
    apply map_get_is_Some. eauto. }
  rewrite slice0_take by lia. rewrite take_ge.
  - by apply sort_elem.
  - rewrite (sort_perm _ sc). lia.
Qed.

Lemma suggestRelatedNotes_complete_witness :
  (Note.path project_notes, relatedness project_plan project_notes)
  ∈ suggestRelatedNotes
      (updateNotes [project_plan; project_notes; meeting_notes]) "X.md" 3.
Proof.
  apply (suggestRelatedNotes_complete
           [project_plan; project_notes; meeting_notes] "X.md" 3
           project_plan project_notes).
  - vm_compute. reflexivity.
  - apply (bool_decide_unpack _). vm_compute. exact I.
  - vm_compute. discriminate.
  - vm_compute. right. left.
  - vm_compute. discriminate.
  - vm_compute. reflexivity.
Defined.

(** * Where tags and backlinks come from *)

(** ** [extractTags] ([src/utils/markdown.ts])

    The [tags] value of the front matter is taken to be absent, one string
    or an array of strings, so that [String(tag)] is the identity. *)

Inductive FrontmatterTags :=
  | fm_absent
  | fm_scalar (tag : string)
  | fm_array (tags : list string).

(** The class [[a-zA-Z0-9_\-\/]] *)
Definition is_tag_char (c : ascii) : bool :=
  let n := nat_of_ascii c in
  ((97 <=? n) && (n <=? 122) || (65 <=? n) && (n <=? 90)
   || (48 <=? n) && (n <=? 57) || (n =? 95) || (n =? 45) || (n =? 47))%nat.

Definition emit (acc : string) : list string :=
  if String.eqb acc "" then [] else [acc].

Definition after_char (c : ascii) : option string :=
  if Ascii.eqb c "#" then Some "" else None.

(** The matches of [/#([a-zA-Z0-9_\-\/]+)/g], left to right: a match is a
    ["#"] followed by the longest run of tag characters, which must not be
    empty, and the search goes on behind the run.  [cur] holds the run read
    so far when the last character that was no tag character was a ["#"]. *)
Fixpoint scan_tags (cur : option string) (s : string) : list string :=
  match s with
  | EmptyString =>
      match cur with Some acc => emit acc | None => [] end
  | String c rest =>
      match cur with
      | Some acc =>
          if is_tag_char c
          then scan_tags (Some (acc +:+ String c EmptyString)) rest
          else emit acc ++ scan_tags (after_char c) rest
      | None => scan_tags (after_char c) rest
      end
  end.

(** [tags.add(t)] for every element, on a set kept in insertion order. *)
Definition add_all (s ts : list string) : list string :=
  foldl (fun s t => set_add t s) s ts.

Definition extractTags (content : string) (frontmatter : FrontmatterTags)
  : list string :=
  let tags0 :=
    match frontmatter with
    | fm_absent => []
    | fm_scalar tag => if String.eqb tag "" then [] else add_all [] [tag]
    | fm_array fmTags => add_all [] fmTags
    end in
  add_all tags0 (scan_tags None content).

Example extractTags_example :
  extractTags "see #todo and ##x #a/b-c, #todo! #" (fm_array ["x"; "zeta"])
  = ["x"; "zeta"; "todo"; "a/b-c"].
Proof. vm_compute. reflexivity. Qed.

Fixpoint all_tag_chars (s : string) : bool :=
  match s with
  | EmptyString => true
  | String c rest => is_tag_char c && all_tag_chars rest
  end.

Lemma all_tag_chars_snoc (acc : string) (c : ascii) :
  all_tag_chars (acc +:+ String c EmptyString) =
  all_tag_chars acc && is_tag_char c.
Proof.
  induction acc as [|a acc IH].
  - change (is_tag_char c && true = true && is_tag_char c).
    by rewrite andb_true_r.
  - change (is_tag_char a && all_tag_chars (acc +:+ String c "") =
            is_tag_char a && all_tag_chars acc && is_tag_char c).
    by rewrite IH, andb_assoc.
Qed.

Lemma emit_elem acc t : t ∈ emit acc <-> t = acc ∧ acc ≠ "".
Proof.
  unfold emit. destruct (String.eqb_spec acc "") as [->|Hne].
  - split; [by intros ?%elem_of_nil | by intros [_ ?]].
  - rewrite list_elem_of_singleton. tauto.
Qed.

Lemma scan_tags_sound (s : string) :
  ∀ cur t,
    (∀ acc, cur = Some acc -> all_tag_chars acc = true) ->
    t ∈ scan_tags cur s -> t ≠ "" ∧ all_tag_chars t = true.
Proof.
  induction s as [|c s IH]; intros cur t Hcur; simpl.
  - destruct cur as [acc|]; [|by intros ?%elem_of_nil].
    intros [-> ?]%emit_elem. split; [done | by apply Hcur].
  - assert (∀ acc, after_char c = Some acc -> all_tag_chars acc = true)
      as Hafter.
    { unfold after_char. intros acc. destruct (Ascii.eqb c "#"); [|done].
      by intros [= <-]. }
    destruct cur as [acc|].
    + destruct (is_tag_char c) eqn:Hc.
      * apply IH. intros acc' [= <-]. rewrite all_tag_chars_snoc, Hc.
        by rewrite (Hcur acc).
      * intros [[-> ?]%emit_elem|Ht]%elem_of_app;
          [split; [done | by apply Hcur] | by eapply IH].
    + by eapply IH.
Qed.

(** Reading a run of tag characters extends the run at hand. *)
Lemma scan_tags_run (t rest acc : string) :
  all_tag_chars t = true ->
  scan_tags (Some acc) (t +:+ rest) = scan_tags (Some (acc +:+ t)) rest.
Proof.
  revert acc. induction t as [|c t IH]; intros acc Ht.
  - change ("" +:+ rest) with rest. f_equal. f_equal.
    induction acc as [|a acc IHa]; [done|].
    change (String a acc = String a (acc +:+ "")). by rewrite <- IHa.
  - simpl in Ht. apply andb_true_iff in Ht as [Hc Ht].
    change (String c t +:+ rest) with (String c (t +:+ rest)). simpl.
    rewrite Hc, IH by done. f_equal. f_equal.
    rewrite string_app_assoc. done.
Qed.

(** Whatever was read before it, a ["#"] starts a fresh run. *)
Lemma scan_tags_hash (pre rest : string) (cur : option string) (t : string) :
  t ∈ scan_tags (Some "") rest ->
  t ∈ scan_tags cur (pre +:+ String "#" rest).
Proof.
  intros Ht. revert cur. induction pre as [|c pre IH]; intros cur.
  - change ("" +:+ String "#" rest) with (String "#" rest). simpl.
    destruct cur as [acc|]; [apply elem_of_app; by right | done].
  - change (String c pre +:+ String "#" rest)
      with (String c (pre +:+ String "#" rest)). simpl.
    destruct cur as [acc|]; [|apply IH].
    destruct (is_tag_char c); [apply IH|].
    apply elem_of_app. right. apply IH.
Qed.

Lemma scan_tags_complete (pre t post : string) :
  t ≠ "" -> all_tag_chars t = true ->
  (post = "" ∨ ∃ c post', post = String c post' ∧ is_tag_char c = false) ->
  t ∈ scan_tags None (pre +:+ "#" +:+ t +:+ post).
Proof.
  intros Hne Ht Hpost. apply scan_tags_hash.
  rewrite scan_tags_run by done. change ("" +:+ t) with t.
  destruct Hpost as [->|(c & post' & -> & Hc)]; simpl.
  - apply emit_elem. done.
  - rewrite Hc. apply elem_of_app. left. by apply emit_elem.
Qed.

Lemma add_all_elem (ts s : list string) t :
  t ∈ add_all s ts <-> t ∈ s ∨ t ∈ ts.
Proof.
  unfold add_all. revert s. induction ts as [|x ts IH]; intros s; simpl.
  - split; [by left | by intros [?|?%elem_of_nil]].
  - rewrite IH, set_add_elem, elem_of_cons. tauto.
Qed.

Lemma add_all_NoDup (ts s : list string) : NoDup s -> NoDup (add_all s ts).
Proof.
  unfold add_all. revert s. induction ts as [|x ts IH]; intros s Hs; simpl;
    [done|].
  apply IH. unfold set_add. case_bool_decide as Hx; [done|].
  apply NoDup_app. split_and!; [done | | apply NoDup_singleton].
  by intros y ? ->%list_elem_of_singleton.
Qed.

(** The tags that the front matter contributes. *)
Definition frontmatter_tags (frontmatter : FrontmatterTags) : list string :=
  match frontmatter with
  | fm_absent => []
  | fm_scalar tag => if String.eqb tag "" then [] else [tag]
  | fm_array fmTags => fmTags
  end.

Lemma string_app_nil_r (s : string) : s +:+ "" = s.
Proof.
  induction s as [|c s IH]; [done|].
  change (String c (s +:+ "") = String c s). by rewrite IH.
Qed.

(** Where a run of tag characters ends: at the end of the content or at a
    character outside the class. *)
Definition run_end (post : string) : Prop :=
  post = "" ∨ ∃ c post', post = String c post' ∧ is_tag_char c = false.

(** A match of the tag regex in the content: a ["#"] followed by [t], a
    run of tag characters that is not empty and cannot be extended. *)
Definition tag_match (content t : string) : Prop :=
  ∃ pre post,
    content = pre +:+ "#" +:+ t +:+ post ∧
    t ≠ "" ∧ all_tag_chars t = true ∧ run_end post.

(** Every tag the scanner emits goes on the run at hand, which a ["#"]
    read earlier has opened, or stands behind a ["#"] of what is still to
    be read. *)
Lemma scan_tags_found (s : string) :
  ∀ cur t,
    t ∈ scan_tags cur s ->
    (∃ acc run post,
       cur = Some acc ∧ s = run +:+ post ∧ all_tag_chars run = true ∧
       run_end post ∧ t = acc +:+ run ∧ t ≠ "") ∨
    (∃ pre run post,
       s = pre +:+ "#" +:+ run +:+ post ∧ run ≠ "" ∧
       all_tag_chars run = true ∧ run_end post ∧ t = run).
Proof.
  induction s as [|c s IH]; intros cur t; simpl.
  - destruct cur as [acc|]; [|by intros ?%elem_of_nil].
    intros [-> Hne]%emit_elem. left. exists acc, "", "".
    split_and!; [done | done | done | by left | by rewrite string_app_nil_r
                | done].
  - assert (t ∈ scan_tags (after_char c) s ->
            ∃ pre run post,
              String c s = pre +:+ "#" +:+ run +:+ post ∧ run ≠ "" ∧
              all_tag_chars run = true ∧ run_end post ∧ t = run) as Hafter.
    { intros [(acc & run & post & Hcur & -> & Hrun & Hend & -> & Hne)
             |(pre & run & post & -> & H)]%IH.
      - unfold after_char in Hcur.
        destruct (Ascii.eqb_spec c "#") as [->|]; [|done].
        injection Hcur as <-. by exists "", run, post.
      - by exists (String c pre), run, post. }
    destruct cur as [acc|]; [|intros H; right; by apply Hafter].
    destruct (is_tag_char c) eqn:Hc.
    + intros [(acc' & run & post & [= <-] & -> & Hrun & Hend & -> & Hne)
             |(pre & run & post & -> & H)]%IH.
      * left. exists acc, (String c run), post.
        split_and!; [done | done | by simpl; rewrite Hc | done | | done].
        by rewrite string_app_assoc.
      * right. by exists (String c pre), run, post.
    + intros [[-> Hne]%emit_elem|H]%elem_of_app.
      * left. exists acc, "", (String c s).
        split_and!; [done | done | done | right; by exists c, s
                    | by rewrite string_app_nil_r | done].
      * right. by apply Hafter.
Qed.

Lemma scan_tags_match (content t : string) :
  t ∈ scan_tags None content <-> tag_match content t.
Proof.
  split.
  - intros [(acc & ? & ? & [=] & _)
           |(pre & run & post & -> & Hne & Hrun & Hend & ->)]%scan_tags_found.
    by exists pre, post.
  - intros (pre & post & -> & Hne & Hrun & Hend).
    by apply scan_tags_complete.
Qed.

(** X14: [extractTags] returns no tag twice, and a tag is returned exactly
    when the front matter gives it or the content holds a ["#"] followed by
    it, where it is a non-empty run of letters, digits, ["_"], ["-"] and
    ["/"] that ends at the end of the content or at a character outside
    this class. *)
Theorem extractTags_spec (content : string) (frontmatter : FrontmatterTags) :
  NoDup (extractTags content frontmatter) ∧
  (∀ t, t ∈ extractTags content frontmatter <->
        t ∈ frontmatter_tags frontmatter ∨
        ∃ pre post,
          content = pre +:+ "#" +:+ t +:+ post ∧
          t ≠ "" ∧ all_tag_chars t = true ∧
          (post = "" ∨
           ∃ c post', post = String c post' ∧ is_tag_char c = false)).
Proof.
  split.
  - unfold extractTags. apply add_all_NoDup.
    destruct frontmatter as [|tag|fmTags]; [constructor | |].
    + destruct (String.eqb tag ""); [constructor|].
      apply add_all_NoDup. constructor.
    + apply add_all_NoDup. constructor.
  - intros t. change (t ∈ extractTags content frontmatter <->
                      t ∈ frontmatter_tags frontmatter ∨ tag_match content t).
    rewrite <- scan_tags_match. unfold extractTags. rewrite add_all_elem.
    apply or_iff_compat_r.
    destruct frontmatter as [|tag|fmTags]; cbn -[add_all].
    + done.
    + destruct (String.eqb tag ""); [done|]. rewrite add_all_elem.
      split; [by intros [?%elem_of_nil|?] | by right].
    + rewrite add_all_elem. split; [by intros [?%elem_of_nil|?] | by right].
Qed.

(** ** [getBacklinks] ([src/connectors/LocalConnector.ts])

    The cache of the connector is a [Map] from a note's path to the note,
    like the snapshot of the service. *)

Fixpoint drop_chars (n : nat) (s : string) : string :=
  match n, s with
  | O, _ => s
  | S n', String _ rest => drop_chars n' rest
  | S _, EmptyString => EmptyString
  end.

(** [s.replace(pat, rep)] for a string pattern: the first occurrence only. *)
Fixpoint replace (pat rep s : string) : string :=
  if String.prefix pat s then rep +:+ drop_chars (String.length pat) s
  else match s with
       | EmptyString => EmptyString
       | String c rest => String c (replace pat rep rest)
       end.

Definition is_backlink (noteTitle notePath : string) (link : Link.t) : bool :=
  String.eqb (Link.target link) noteTitle
  || String.eqb (Link.target link) notePath.

Definition getBacklinks (notesCache : snapshot) (notePath : string)
  : list Link.t :=
  let noteTitle := replace ".md" "" notePath in
  foldl (fun backlinks note =>
           match Note.links note with
           | Some ls =>
               foldl (fun bl link =>
                        if is_backlink noteTitle notePath link
                        then bl ++ [link] else bl) backlinks ls
           | None => backlinks
           end) [] (map_values notesCache).

Example replace_examples :
  replace ".md" "" "docs/plan.md" = "docs/plan" ∧
  replace ".md" "" "a.md.md" = "a.md" ∧
  replace ".md" "" "x.mdx/y.md" = "xx/y.md" ∧
  replace ".md" "" "plain" = "plain".
Proof. vm_compute. done. Qed.

Example fixture_backlinks :
  getBacklinks (updateNotes fixture) "note2.md"
  = [Link.mk "note1.md" "note2" internal].
Proof. vm_compute. reflexivity. Qed.

Lemma push_if_elem {X} (f : X -> bool) (ls : list X) (bl : list X) x :
  x ∈ foldl (fun bl l => if f l then bl ++ [l] else bl) bl ls <->
  x ∈ bl ∨ (x ∈ ls ∧ f x = true).
Proof.
  revert bl. induction ls as [|l ls IH]; intros bl; simpl.
  - split; [by left | by intros [?|[?%elem_of_nil _]]].
  - rewrite IH, elem_of_cons. destruct (f l) eqn:Hl.
    + rewrite elem_of_app, list_elem_of_singleton. split.
      * intros [[?| ->]|[? ?]]; [by left | right; split; [by left | done]
                                 | right; split; [by right | done]].
      * intros [?|[[->|?] ?]]; [by left; left | by left; right | by right].
    + split.
      * intros [?|[? ?]]; [by left | right; split; [by right | done]].
      * intros [?|[[->|?] ?]]; [by left | congruence | by right].
Qed.

Lemma getBacklinks_elem (notesCache : snapshot) (notePath : string) b :
  b ∈ getBacklinks notesCache notePath <->
  ∃ note, note ∈ map_values notesCache ∧
          b ∈ default [] (Note.links note) ∧
          (Link.target b = replace ".md" "" notePath ∨
           Link.target b = notePath).
Proof.
  unfold getBacklinks.
  set (f := is_backlink (replace ".md" "" notePath) notePath).
  assert (∀ vals bl,
            b ∈ foldl (fun backlinks note =>
                         match Note.links note with
                         | Some ls =>
                             foldl (fun bl link =>
                                      if f link then bl ++ [link] else bl)
                                   backlinks ls
                         | None => backlinks
                         end) bl vals <->
            b ∈ bl ∨ ∃ note, note ∈ vals ∧
                             b ∈ default [] (Note.links note) ∧ f b = true)
    as Hgen.
  { induction vals as [|n vals IH]; intros bl; simpl.
    - split; [by left | by intros [?|(? & ?%elem_of_nil & _)]].
    - rewrite IH.
      assert (b ∈ match Note.links n with
                  | Some ls =>
                      foldl (fun bl link => if f link then bl ++ [link] else bl)
                            bl ls
                  | None => bl
                  end <->
              b ∈ bl ∨ (b ∈ default [] (Note.links n) ∧ f b = true)) as ->.
      { destruct (Note.links n) as [ls|]; simpl; [apply push_if_elem|].
        split; [by left | by intros [?|[?%elem_of_nil _]]]. }
      split.
      + intros [[?|[? ?]]|(m & ? & ? & ?)];
          [by left | right; exists n | right; exists m];
          (split_and!; try done); [left | by right].
      + intros [?|(m & [->|?]%elem_of_cons & ? & ?)];
          [by left; left | by left; right | right; by exists m]. }
  rewrite Hgen. unfold f, is_backlink.
  setoid_rewrite orb_true_iff. setoid_rewrite String.eqb_eq.
  split; [by intros [?%elem_of_nil|?] | by right].
Qed.

(** X15: for a note of the cache whose path is its title (the path with
    the first ".md" removed) followed by ".md", the title not ending with
    ".md" itself, every backlink that the connector computes is a link of
    some note whose target the service's resolver maps to this very note;
    and when links carry the path of the note they stand in, the backlink
    is the reverse of an edge that [findPath] follows. *)
Theorem getBacklinks_resolve (ns : list Note.t) (p : string) (b : Link.t) :
  let notes := updateNotes ns in
  is_Some (map_get notes p) ->
  p = replace ".md" "" p +:+ ".md" ->
  ¬ ends_with (replace ".md" "" p) ".md" ->
  b ∈ getBacklinks notes p ->
  resolveNotePath notes (Link.target b) = p ∧
  ((∀ n l, n ∈ map_values notes -> l ∈ default [] (Note.links n) ->
           Link.source l = Note.path n) ->
   edge notes (Link.source b) p).
Proof.
  intros notes Hp Hpath Htitle Hb.
  pose proof (updateNotes_wf ns) as Hwf. fold notes in Hwf.
  apply getBacklinks_elem in Hb as (note & Hnote & Hlink & Htarget).
  assert (map_has notes p = true) as Hhas
    by (by apply map_has_true, map_get_is_Some).
  assert (resolveNotePath notes (Link.target b) = p) as Hres.
  { unfold resolveNotePath. destruct Htarget as [->| ->].
    - apply endsWith_false in Htitle. rewrite Htitle, <- Hpath.
      by rewrite Hhas.
    - assert (JS.endsWith p ".md" = true) as ->.
      { apply endsWith_spec. by exists (replace ".md" "" p). }
      by rewrite Hhas. }
  split; [done|]. intros Hsrc.
  rewrite (Hsrc note b Hnote Hlink).
  destruct (Note.links note) as [ls|] eqn:Hls;
    [|by apply elem_of_nil in Hlink].
  exists note, ls, b. split_and!; [by apply snapshot_get_value | done..].
Qed.

Lemma getBacklinks_resolve_witness :
  let notes := updateNotes fixture in
  let b := Link.mk "note1.md" "note2" internal in
  resolveNotePath notes (Link.target b) = "note2.md" ∧
  ((∀ n l, n ∈ map_values notes -> l ∈ default [] (Note.links n) ->
           Link.source l = Note.path n) ->
   edge notes (Link.source b) "note2.md").
Proof.
  apply (getBacklinks_resolve fixture "note2.md").
  - vm_compute. eauto.
  - vm_compute. reflexivity.
  - apply endsWith_false. vm_compute. reflexivity.
  - vm_compute. left.
Defined.

(** * Two more facts about the graph and the traversal *)

(** X16: every edge of the built graph has weight 1 and starts at a note
    of the snapshot, whose note node is in the graph; it is the edge of one
    of that note's link records, or a tagged-with edge to the node of one
    of its tags, or the in-folder edge to the node of its folder. *)
Theorem buildGraph_edges_from_notes (ns : list Note.t) (e : GraphEdge.t) :
  let notes := updateNotes ns in
  e ∈ KnowledgeGraph.edges (buildGraph notes) ->
  GraphEdge.weight e = 1 ∧
  ∃ note, map_get notes (GraphEdge.source e) = Some note ∧
    note_graph_node note ∈ KnowledgeGraph.nodes (buildGraph notes) ∧
    ((∃ link, link ∈ default [] (Note.links note) ∧
              e = link_edge notes note link) ∨
     (∃ tag, tag ∈ default [] (Note.tags note) ∧ e = tag_edge note tag) ∨
     (has_folder note = true ∧
      e = GraphEdge.mk (Note.path note)
                       ("folder:" +:+ getFolder (Note.path note))
                       "in-folder" 1)).
Proof.
  intros notes He. pose proof (updateNotes_wf ns) as Hwf. fold notes in Hwf.
  unfold buildGraph in He. simpl in He. rewrite build_loop_edges in He.
  simpl in He. apply list_elem_of_In, in_concat in He as (es & Hes & He).
  apply list_elem_of_In in Hes, He.
  apply list_elem_of_fmap in Hes as (note & -> & Hnote).
  assert (GraphEdge.source e = Note.path note ∧ GraphEdge.weight e = 1 ∧
          ((∃ link, link ∈ default [] (Note.links note) ∧
                    e = link_edge notes note link) ∨
           (∃ tag, tag ∈ default [] (Note.tags note) ∧ e = tag_edge note tag) ∨
           (has_folder note = true ∧
            e = GraphEdge.mk (Note.path note)
                             ("folder:" +:+ getFolder (Note.path note))
                             "in-folder" 1))) as (Hs & Hw & Hkind).
  { unfold note_edges in He.
    apply elem_of_app in He as [He|[He|He]%elem_of_app].
    - apply list_elem_of_fmap in He as (link & -> & Hl).
      split_and!; [done | done | left; by exists link].
    - apply list_elem_of_fmap in He as (tag & -> & Ht).
      split_and!; [done | done | right; left; by exists tag].
    - unfold folder_edges in He. destruct (has_folder note) eqn:Hf;
        [|by apply elem_of_nil in He].
      apply list_elem_of_singleton in He as ->.
      split_and!; [done | done | right; right; done]. }
  split; [done|]. exists note. rewrite Hs.
  split_and!; [by apply snapshot_get_value | | done].
  assert (note_graph_node note
          ∈ filter is_note_node (KnowledgeGraph.nodes (buildGraph notes)))
    as Hnode; [|by apply list_elem_of_filter in Hnode as [_ ?]].
  unfold buildGraph. cbn [KnowledgeGraph.nodes].
  rewrite build_loop_note_nodes. apply elem_of_app. right.
  apply list_elem_of_fmap. by exists note.
Qed.

Lemma buildGraph_edges_from_notes_witness :
  let notes := updateNotes [draft_note; tagged_note] in
  let e := GraphEdge.mk "work/plan.md" "tag:todo" "tagged-with" 1 in
  GraphEdge.weight e = 1 ∧
  ∃ note, map_get notes (GraphEdge.source e) = Some note ∧
    note_graph_node note ∈ KnowledgeGraph.nodes (buildGraph notes) ∧
    ((∃ link, link ∈ default [] (Note.links note) ∧
              e = link_edge notes note link) ∨
     (∃ tag, tag ∈ default [] (Note.tags note) ∧ e = tag_edge note tag) ∨
     (has_folder note = true ∧
      e = GraphEdge.mk (Note.path note)
                       ("folder:" +:+ getFolder (Note.path note))
                       "in-folder" 1)).
Proof.
  apply (buildGraph_edges_from_notes [draft_note; tagged_note]).
  vm_compute. do 2 right. left.
Defined.

(** X17: with a depth bound of at least 1, [getRelatedNotes] for a note of
    the snapshot returns every other note of the snapshot that one of its
    links resolves to or that is the source of one of its backlinks. *)
Theorem getRelatedNotes_neighbours (ns : list Note.t) (start : string)
    (maxDepth : Z) (note other : Note.t) :
  let notes := updateNotes ns in
  1 <= maxDepth ->
  map_get notes start = Some note ->
  other ∈ map_values notes ->
  Note.path other ≠ start ->
  Note.path other ∈ neighbours notes note ->
  other ∈ getRelatedNotes notes start maxDepth.
Proof.
  intros notes Hd Hget Hother Hne Hnb.
  pose proof (updateNotes_wf ns) as Hwf. fold notes in Hwf.
  pose proof (snapshot_get_value notes other Hwf Hother) as Ho.
  unfold getRelatedNotes. apply list_elem_of_omap.
  exists (Note.path other). split; [|done].
  eapply related_neighbours; eauto.
Qed.

Lemma getRelatedNotes_neighbours_witness :
  let notes := updateNotes detour in
  Note.mk "B.md" "B" "" None (Some [wiki "B" "X"])
          (Some [wiki "A" "B"; wiki "Q" "B"])
  ∈ getRelatedNotes notes "A.md" 3.
Proof.
  apply (getRelatedNotes_neighbours detour "A.md" 3
           (Note.mk "A.md" "A" "" None (Some [wiki "A" "P"; wiki "A" "B"])
                    (Some []))).
  - lia.
  - vm_compute. reflexivity.
  - vm_compute. do 3 right. left.
  - vm_compute. discriminate.
  - vm_compute. right. left.
Defined.

(** * A bound that never cuts *)

Section DeepTraversal.
Context (notes : snapshot) (maxDepth : Z).
Hypothesis bound_covers : Z.of_nat (length notes) <= maxDepth.

(** The paths on the recursion stack are distinct notes, so there are no
    more of them than notes. *)
Lemma stack_length (stack : list string) :
  NoDup stack -> (∀ u, u ∈ stack -> is_Some (map_get notes u)) ->
  (length stack <= length notes)%nat.
Proof.
  intros Hnd Hnotes. rewrite <- (length_fmap fst notes).
  apply submseteq_length, NoDup_submseteq; [done|].
  intros u Hu. by apply map_get_is_Some, Hnotes.
Qed.

(** Every visited path that is not on the stack has all its neighbours
    visited. *)
Definition closed (stack : list string) (st : trav_state) : Prop :=
  ∀ u v, u ∈ t_visited st -> u ∉ stack -> adjacent notes u v ->
         v ∈ t_visited st.

Definition stack_ok (stack : list string) (depth : Z) (st : trav_state)
  : Prop :=
  Z.of_nat (length stack) = depth ∧ NoDup stack ∧
  ∀ u, u ∈ stack -> u ∈ t_visited st ∧ is_Some (map_get notes u).

Lemma stack_ok_grows stack depth st st' :
  t_visited st ⊆ t_visited st' -> stack_ok stack depth st ->
  stack_ok stack depth st'.
Proof.
  intros Hsub (Hlen & Hnd & Hst). split_and!; [done | done|].
  intros u Hu. destruct (Hst u Hu). split; [set_solver | done].
Qed.

Lemma traverse_closed fuel :
  ∀ path depth st stack,
    (Z.to_nat (maxDepth + 1 - depth) < fuel)%nat ->
    stack_ok stack depth st -> closed stack st ->
    closed stack (traverse fuel notes maxDepth path depth st) ∧
    path ∈ t_visited (traverse fuel notes maxDepth path depth st).
Proof.
  induction fuel as [|fuel IH]; intros path depth st stack Hfuel Hstack Hcl;
    [lia|].
  pose proof Hstack as (Hlen & Hnd & Hst).
  assert (length stack <= length notes)%nat as Hshort
    by (apply stack_length; [done | intros u Hu; by apply Hst]).
  simpl. destruct (Z.gtb_spec depth maxDepth) as [Hgt|Hle]; [lia|]. simpl.
  case_bool_decide as Hv; [done|].
  assert (path ∉ stack) as Hps by (intros Hin; by apply Hv, Hst).
  destruct (map_get notes path) as [note|] eqn:Hget.
  2:{ split; simpl; [|set_solver]. intros u v Hu Hus Huv.
      simpl in *. apply elem_of_union in Hu as [->%elem_of_singleton|Hu].
      - destruct Huv as (n & Hn & _). congruence.
      - apply elem_of_union. right. by apply (Hcl u v). }
  set (st2 := if depth >? 0
              then mk_trav (set_add path (t_related st))
                           ({[path]} ∪ t_visited st)
              else mk_trav (t_related st) ({[path]} ∪ t_visited st)).
  assert (t_visited st2 = {[path]} ∪ t_visited st) as Hv2
    by (unfold st2; by destruct (depth >? 0)).
  set (stack' := stack ++ [path]).
  set (J := fun s : trav_state =>
              t_visited st2 ⊆ t_visited s ∧ closed stack' s).
  assert (J st2) as HJ2.
  { split; [done|]. intros u v Hu Hus Huv. rewrite Hv2 in *.
    unfold stack' in Hus. rewrite elem_of_app, list_elem_of_singleton in Hus.
    apply elem_of_union in Hu as [->%elem_of_singleton|Hu]; [tauto|].
    apply elem_of_union. right. apply (Hcl u v); tauto. }
  assert (∀ s, J s -> stack_ok stack' (depth + 1) s) as Hok.
  { intros s [Hsub _]. split_and!.
    - unfold stack'. rewrite length_app. simpl. lia.
    - apply NoDup_app. split_and!; [done | | apply NoDup_singleton].
      by intros u Hu ->%list_elem_of_singleton.
    - intros u [Hu| ->%list_elem_of_singleton]%elem_of_app.
      + destruct (Hst u Hu). split; [|done]. apply Hsub. rewrite Hv2.
        set_solver.
      + split; [|by rewrite Hget]. apply Hsub. rewrite Hv2. set_solver. }
  assert (∀ q s, J s ->
                 J (traverse fuel notes maxDepth q (depth + 1) s) ∧
                 q ∈ t_visited (traverse fuel notes maxDepth q (depth + 1) s))
    as Hchild.
  { intros q s Hs.
    destruct (IH q (depth + 1) s stack') as [Hc Hq];
      [lia | by apply Hok | by destruct Hs|].
    split; [|done]. split; [|done]. destruct Hs as [Hsub _].
    etransitivity; [exact Hsub|]. apply traverse_grows. }
  assert (∀ {X} (g : X -> string) (xs : list X) s,
            J s ->
            let s' := foldl (fun s x => traverse fuel notes maxDepth (g x)
                                                 (depth + 1) s) s xs in
            J s' ∧ t_visited s ⊆ t_visited s' ∧
            ∀ x, x ∈ xs -> g x ∈ t_visited s') as Hfold.
  { intros X g xs. induction xs as [|x xs IHxs]; intros s Hs; simpl.
    - split_and!; [done | done | by intros ? ?%elem_of_nil].
    - destruct (Hchild (g x) s Hs) as [Hs1 Hx].
      destruct (IHxs _ Hs1) as (Hs2 & Hsub & Hall).
      split_and!; [done | |].
      + etransitivity; [apply traverse_grows | exact Hsub].
      + intros y [->|Hy]%elem_of_cons; [by apply Hsub | by apply Hall]. }
  destruct (Hfold _ (fun l => resolveNotePath notes (Link.target l))
                  (default [] (Note.links note)) st2 HJ2)
    as (HJ3 & Hsub3 & Hl3).
  destruct (Hfold _ Link.source (default [] (Note.backlinks note)) _ HJ3)
    as (HJ4 & Hsub4 & Hb4).
  simpl in HJ4, Hsub4, Hb4, HJ3, Hsub3, Hl3.
  set (st3 := foldl _ st2 (default [] (Note.links note))) in *.
  set (st4 := foldl _ st3 (default [] (Note.backlinks note))) in *.
  enough (closed stack st4 ∧ path ∈ t_visited st4) as Henough.
  { fold st2. unfold st4, st3 in Henough.
    by destruct (Note.links note), (Note.backlinks note). }
  destruct HJ4 as [Hsub Hcl4]. split.
  - intros u v Hu Hus Huv.
    destruct (decide (u = path)) as [->|Hne].
    + destruct Huv as (n & Hn & Hnb). rewrite Hget in Hn. injection Hn as <-.
      apply elem_of_app in Hnb as [Hnb|Hnb];
        apply list_elem_of_fmap in Hnb as (x & -> & Hx).
      * by apply Hsub4, Hl3.
      * by apply Hb4.
    + apply (Hcl4 u v); [done | | done]. unfold stack'.
      rewrite elem_of_app, list_elem_of_singleton. tauto.
  - apply Hsub. rewrite Hv2. set_solver.
Qed.

Lemma related_reaches (start p : string) :
  rtc (adjacent notes) start p -> p ≠ start -> is_Some (map_get notes p) ->
  p ∈ related notes start maxDepth.
Proof.
  intros Hreach Hne Hp.
  assert (is_Some (map_get notes start)) as [note Hget].
  { destruct Hreach as [|x y z (n & Hn & _) _]; [done | eauto]. }
  unfold related.
  set (final := traverse (Z.to_nat (maxDepth + 2)) notes maxDepth start 0
                         (mk_trav [] ∅)).
  destruct (traverse_closed (Z.to_nat (maxDepth + 2)) start 0 (mk_trav [] ∅) [])
    as [Hcl Hstart].
  { lia. }
  { split_and!; [done | constructor | by intros ? ?%elem_of_nil]. }
  { intros u v Hu. by apply not_elem_of_empty in Hu. }
  fold final in Hcl, Hstart.
  assert (p ∈ t_visited final) as Hvis.
  { assert (∀ a b, rtc (adjacent notes) a b -> a ∈ t_visited final ->
                   b ∈ t_visited final) as Hall; [|by apply (Hall start)].
    induction 1 as [|x y z Hxy _ IH]; [done|]. intros Hx.
    apply IH. apply (Hcl x y); [done | apply not_elem_of_nil | done]. }
  assert (visited_related notes start final) as Hvr.
  { unfold final.
    replace (Z.to_nat (maxDepth + 2)) with (S (Z.to_nat (maxDepth + 1)))
      by lia.
    rewrite traverse_start, Hget. destruct (Z.ltb_spec maxDepth 0); [lia|].
    apply children_visited_related.
    intros x Hx. simpl in Hx. by apply elem_of_singleton in Hx. }
  by apply Hvr.
Qed.
End DeepTraversal.

(** X18: with a depth bound of at least the number of notes the bound never
    cuts the traversal short: the related set is exactly the set of notes
    of the snapshot, other than the start, that can be reached from the
    start by steps along resolved links and back along backlinks. *)
Theorem related_large_bound (ns : list Note.t) (start p : string)
    (maxDepth : Z) :
  let notes := updateNotes ns in
  Z.of_nat (length notes) <= maxDepth ->
  (p ∈ related notes start maxDepth <->
   rtc (adjacent notes) start p ∧ p ≠ start ∧ is_Some (map_get notes p)).
Proof.
  intros notes Hbig. split.
  - intros Hp. split_and!.
    + destruct (traverse_within notes maxDepth start
                  (Z.to_nat (maxDepth + 2)) start 0 (mk_trav [] ∅))
        with (p := p) as (k & _ & _ & Hk);
        [lia | constructor | by intros ? ?%elem_of_nil | done|].
      by eapply rtc_nsteps_2.
    + intros ->. by apply (related_facts notes start maxDepth).
    + by eapply related_known.
  - intros (Hreach & Hne & Hnote). by apply related_reaches.
Qed.

Lemma related_large_bound_witness :
  "X.md" ∈ related (updateNotes detour) "A.md" 5 <->
  rtc (adjacent (updateNotes detour)) "A.md" "X.md" ∧ "X.md" ≠ "A.md" ∧
  is_Some (map_get (updateNotes detour) "X.md").
Proof.
  apply (related_large_bound detour "A.md" "X.md" 5).
  vm_compute. discriminate.
Defined.

(** X30: what does hold between two depth bounds.  A bound of 0 gives the
    empty set; the set for a bound of at most 1 is contained in the set for
    every larger bound; and the set for any bound is contained in the set
    for a bound of at least the number of notes. *)
Theorem related_nested_bounds (ns : list Note.t) (start : string)
    (d1 d2 : Z) :
  let notes := updateNotes ns in
  (d1 <= d2 ∧ d1 <= 1) ∨ Z.of_nat (length notes) <= d2 ->
  related notes start 0 = [] ∧
  ∀ p, p ∈ related notes start d1 -> p ∈ related notes start d2.
Proof.
  intros notes Hcase. split; [by apply related_depth_zero|].
  destruct Hcase as [[H12 H1]|Hbig].
  - destruct (decide (d1 <= 0)) as [Hz|Hpos].
    + rewrite (related_depth_zero _ _ d1) by done. by intros ? ?%elem_of_nil.
    + assert (d1 = 1) as -> by lia.
      intros p (note & Hget & Hp & Hne & Hnote)%related_one_neighbours.
      by eapply related_neighbours.
  - intros p Hp. apply related_reaches; [done | | |].
    + destruct (traverse_within notes d1 start
                  (Z.to_nat (d1 + 2)) start 0 (mk_trav [] ∅))
        with (p := p) as (k & _ & _ & Hk);
        [lia | constructor | by intros ? ?%elem_of_nil | done|].
      by eapply rtc_nsteps_2.
    + intros ->. by apply (related_facts notes start d1).
    + by eapply related_known.
Qed.

Lemma related_nested_bounds_witness :
  related (updateNotes detour) "A.md" 0 = [] ∧
  ∀ p, p ∈ related (updateNotes detour) "A.md" 2 ->
       p ∈ related (updateNotes detour) "A.md" 5.
Proof.
  apply (related_nested_bounds detour "A.md" 2 5).
  right. vm_compute. discriminate.
Defined.

(** * The local connector's queries

    [searchNotes], [getStats] and [listTags] of [LocalConnector]
    ([src/connectors/LocalConnector.ts]) start with [getAllNotes], which
    returns the values of the connector's cache in insertion order and
    first reloads an empty cache from the vault.  The handlers of
    [index.ts] pass the same array to [updateNotes] before they ask the
    graph service.

    The connector is stateful: every operation below returns the cache it
    leaves together with its result. *)

(** [VaultOperationResult<T>]: [{ success: true, data }] or
    [{ success: false, error }]. *)
Inductive VaultOperationResult (T : Type) :=
  | succeeded (data : T)
  | failed (error : string).

Arguments succeeded {T} data.
Arguments failed {T} error.

(** What [refreshCache] finds depends on the files of the vault, so its
    outcome is an input of the model: the cache it leaves, or the message
    of the error it throws.  (It throws while it lists the files, before
    it touches the cache; a file that cannot be read is skipped.) *)
Inductive Refresh :=
  | reloaded (cache : snapshot)
  | threw (message : string).

(** [getAllNotes]: an empty cache is reloaded first; the result is the
    array of the cache's values, or the failure that reports the error. *)
Definition getAllNotes (notesCache : snapshot) (refresh : Refresh)
  : snapshot * VaultOperationResult (list Note.t) :=
  if Z.of_nat (length notesCache) =? 0 then
    match refresh with
    | reloaded cache => (cache, succeeded (map_values cache))
    | threw message =>
        (notesCache, failed ("Failed to get all notes: " +:+ message))
    end
  else (notesCache, succeeded (map_values notesCache)).

(** [s.includes(q)] on strings: [q] occurs in [s] at some position. *)
Fixpoint includes_str (s q : string) : bool :=
  String.prefix q s ||
  match s with
  | EmptyString => false
  | String _ rest => includes_str rest q
  end.

(** [SearchOptions].  The type declares [query] as a string, but the
    [search_notes] handler passes the request's arguments through
    unchecked, so [query] too may be [undefined]. *)
Module SearchOptions.
Record t := mk {
  query : option string;
  tags : option (list string);
  folder : option string;
  limit : option Z;
  includeContent : option bool;
}.
End SearchOptions.

(** [options.tags!.some(tag => note.tags!.includes(tag))], after the guard
    [if (!note.tags) return false]. *)
Definition some_tag (wanted : list string) (note : Note.t) : bool :=
  match Note.tags note with
  | None => false
  | Some noteTags => existsb (includes noteTags) wanted
  end.

(** The filter of the [query] step; [query] is already in lower case. *)
Definition query_hit (options : SearchOptions.t) (query : string)
    (note : Note.t) : bool :=
  let inTitle := includes_str (JS.toLowerCase (Note.title note)) query in
  let inContent :=
    match SearchOptions.includeContent options with
    | Some true => includes_str (JS.toLowerCase (Note.content note)) query
    | _ => false
    end in
  inTitle || inContent.

(** The steps of [searchNotes] on the array [getAllNotes] returned: an
    absent or empty [folder] or [query], an absent or empty [tags] and an
    absent, zero or negative [limit] switch their step off. *)
Definition search_results (options : SearchOptions.t) (data : list Note.t)
  : list Note.t :=
  let results := data in
  let results :=
    match SearchOptions.folder options with
    | Some folder =>
        if negb (String.eqb folder "")
        then List.filter
               (fun note => JSString.startsWith (Note.path note) folder)
               results
        else results
    | None => results
    end in
  let results :=
    match SearchOptions.tags options with
    | Some tags =>
        if 0 <? Z.of_nat (length tags)
        then List.filter (some_tag tags) results
        else results
    | None => results
    end in
  let results :=
    match SearchOptions.query options with
    | Some q =>
        if negb (String.eqb q "")
        then let query := JS.toLowerCase q in
             List.filter (query_hit options query) results
        else results
    | None => results
    end in
  match SearchOptions.limit options with
  | Some limit =>
      if negb (limit =? 0) && (0 <? limit)
      then JS.slice0 results limit
      else results
  | None => results
  end.

(** [searchNotes]: the failure of [getAllNotes] is returned as it is. *)
Definition searchNotes (notesCache : snapshot) (refresh : Refresh)
    (options : SearchOptions.t)
  : snapshot * VaultOperationResult (list Note.t) :=
  let '(cache, allNotes) := getAllNotes notesCache refresh in
  match allNotes with
  | failed error => (cache, failed error)
  | succeeded data => (cache, succeeded (search_results options data))
  end.

(** [getStats]: the note count, and the two accumulators of the loop that
    depend on links and tags only.  ([totalWords] goes through the regular
    expressions of [countWords] and [lastModified] through file dates;
    neither is part of the note model.) *)
Module VaultStats.
Record t := mk {
  noteCount : Z;
  totalLinks : Z;
  tags : list (string * Z);
}.
End VaultStats.

Definition stats_note (st : Z * list (string * Z)) (note : Note.t)
  : Z * list (string * Z) :=
  let totalLinks :=
    match Note.links note with
    | Some ls => st.1 + Z.of_nat (length ls)
    | None => st.1
    end in
  let tags :=
    match Note.tags note with
    | Some ts => foldl (fun m tag => bump m tag 1) st.2 ts
    | None => st.2
    end in
  (totalLinks, tags).

Definition getStats (notesCache : snapshot) (refresh : Refresh)
  : snapshot * VaultOperationResult VaultStats.t :=
  let '(cache, allNotes) := getAllNotes notesCache refresh in
  match allNotes with
  | failed _ => (cache, failed "Failed to get notes for stats")
  | succeeded notes =>
      let st := foldl stats_note (0, []) notes in
      (cache,
       succeeded (VaultStats.mk (Z.of_nat (length notes)) st.1 st.2))
  end.

(** The default order of [Array.prototype.sort]: strings by their code
    units. *)
Definition compare_strings (a b : string) : Z :=
  match String.compare a b with
  | Lt => -1
  | Eq => 0
  | Gt => 1
  end.

(** [listTags]: the set of all tags, sorted; when [getAllNotes] fails the
    set stays empty and the result is still a success. *)
Definition collect_tags (tags : list string) (note : Note.t) : list string :=
  match Note.tags note with
  | Some ts => add_all tags ts
  | None => tags
  end.

Definition listTags (notesCache : snapshot) (refresh : Refresh)
  : snapshot * VaultOperationResult (list string) :=
  let '(cache, notes) := getAllNotes notesCache refresh in
  let tags :=
    match notes with
    | succeeded data => foldl collect_tags [] data
    | failed _ => []
    end in
  (cache, succeeded (JS.sort compare_strings tags)).

Example search_reloads_an_empty_cache :
  (searchNotes [] (reloaded (updateNotes fixture))
     (SearchOptions.mk (Some "NOTE 2") None None None None)).2
  = succeeded (List.filter (fun n => String.eqb (Note.path n) "note2.md")
                           fixture).
Proof. vm_compute. reflexivity. Qed.

(** ** Searching *)

(** [q] occurs in [s]. *)
Definition occurs (q s : string) : Prop := ∃ a b, s = a +:+ q +:+ b.

Lemma includes_str_spec (s q : string) :
  includes_str s q = true <-> occurs q s.
Proof.
  unfold occurs. induction s as [|c s IH].
  - change (includes_str "" q) with (JSString.startsWith "" q || false).
    rewrite orb_false_r, startsWith_spec. split.
    + intros [rest E]. by exists "", rest.
    + intros (a & b & E). destruct a; [by exists b | discriminate E].
  - change (includes_str (String c s) q)
      with (JSString.startsWith (String c s) q || includes_str s q).
    rewrite orb_true_iff, IH, startsWith_spec. split.
    + intros [[rest E]|(a & b & E)]; [by exists "", rest|].
      exists (String c a), b. by rewrite E.
    + intros (a & b & E). destruct a as [|c' a].
      * left. by exists b.
      * right. exists a, b.
        change (String c s = String c' (a +:+ q +:+ b)) in E. by injection E.
Qed.

Lemma some_tag_spec (wanted : list string) (note : Note.t) :
  some_tag wanted note = true <->
  ∃ t noteTags, Note.tags note = Some noteTags ∧ t ∈ wanted ∧ t ∈ noteTags.
Proof.
  unfold some_tag. destruct (Note.tags note) as [nts|].
  - rewrite existsb_exists. unfold includes. split.
    + intros (t & Ht%list_elem_of_In & Hin%bool_decide_eq_true). by exists t, nts.
    + intros (t & ? & [= <-] & Ht & Hin). exists t.
      split; [by apply list_elem_of_In | by apply bool_decide_eq_true].
  - split; [done | by intros (? & ? & ? & _)].
Qed.

Lemma query_hit_spec (options : SearchOptions.t) (query : string)
    (note : Note.t) :
  query_hit options query note = true <->
  occurs query (JS.toLowerCase (Note.title note)) ∨
  (SearchOptions.includeContent options = Some true ∧
   occurs query (JS.toLowerCase (Note.content note))).
Proof.
  unfold query_hit. rewrite orb_true_iff, includes_str_spec.
  apply or_iff_compat_l.
  destruct (SearchOptions.includeContent options) as [[]|].
  - rewrite includes_str_spec. naive_solver.
  - naive_solver.
  - naive_solver.
Qed.

Lemma elem_of_filter_if {A} (c : bool) (P : A -> bool) (l : list A) (x : A) :
  x ∈ (if c then List.filter P l else l) <-> x ∈ l ∧ (c = true -> P x = true).
Proof.
  destruct c.
  - rewrite list_elem_of_In, filter_In, <- list_elem_of_In. naive_solver.
  - naive_solver.
Qed.

Lemma sublist_filter_if {A} (c : bool) (P : A -> bool) (l : list A) :
  sublist (if c then List.filter P l else l) l.
Proof.
  destruct c; [|done]. induction l as [|x l IH]; simpl; [done|].
  destruct (P x); by constructor.
Qed.

(** The options with the limit taken away, with another query, and with a
    folder only. *)
Definition no_limit (o : SearchOptions.t) : SearchOptions.t :=
  SearchOptions.mk (SearchOptions.query o) (SearchOptions.tags o)
                   (SearchOptions.folder o) None
                   (SearchOptions.includeContent o).

Definition with_query (o : SearchOptions.t) (q : string) : SearchOptions.t :=
  SearchOptions.mk (Some q) (SearchOptions.tags o) (SearchOptions.folder o)
                   (SearchOptions.limit o) (SearchOptions.includeContent o).

Definition folder_only (folder : string) : SearchOptions.t :=
  SearchOptions.mk None None (Some folder) None None.

(** What a note has to satisfy to pass the three filters. *)
Definition passes (options : SearchOptions.t) (note : Note.t) : Prop :=
  (∀ f, SearchOptions.folder options = Some f -> f ≠ "" ->
        ∃ rest, Note.path note = f +:+ rest) ∧
  (∀ ts, SearchOptions.tags options = Some ts -> ts ≠ [] ->
         ∃ t noteTags, Note.tags note = Some noteTags ∧ t ∈ ts ∧ t ∈ noteTags) ∧
  (∀ q, SearchOptions.query options = Some q -> q ≠ "" ->
        occurs (JS.toLowerCase q) (JS.toLowerCase (Note.title note)) ∨
        (SearchOptions.includeContent options = Some true ∧
         occurs (JS.toLowerCase q) (JS.toLowerCase (Note.content note)))).

Lemma folder_step (o : option string) (results : list Note.t) :
  match o with
  | Some folder =>
      if negb (String.eqb folder "")
      then List.filter
             (fun note => JSString.startsWith (Note.path note) folder) results
      else results
  | None => results
  end =
  (if match o with Some f => negb (String.eqb f "") | None => false end
   then List.filter
          (fun note => JSString.startsWith (Note.path note) (default "" o))
          results
   else results).
Proof. destruct o as [f|]; [|done]. simpl. by destruct (String.eqb f ""). Qed.

Lemma tags_step (o : option (list string)) (results : list Note.t) :
  match o with
  | Some tags =>
      if 0 <? Z.of_nat (length tags)
      then List.filter (some_tag tags) results
      else results
  | None => results
  end =
  (if match o with Some ts => 0 <? Z.of_nat (length ts) | None => false end
   then List.filter (some_tag (default [] o)) results
   else results).
Proof. destruct o as [ts|]; [|done]. simpl. by destruct (0 <? _). Qed.

Lemma query_step (options : SearchOptions.t) (o : option string)
    (results : list Note.t) :
  match o with
  | Some q =>
      if negb (String.eqb q "")
      then let query := JS.toLowerCase q in
           List.filter (query_hit options query) results
      else results
  | None => results
  end =
  (if match o with Some q => negb (String.eqb q "") | None => false end
   then List.filter (query_hit options (JS.toLowerCase (default "" o))) results
   else results).
Proof. destruct o as [q|]; [|done]. simpl. by destruct (String.eqb q ""). Qed.

Lemma search_results_unlimited_elem (data : list Note.t)
    (options : SearchOptions.t) (note : Note.t) :
  note ∈ search_results (no_limit options) data <->
  note ∈ data ∧ passes options note.
Proof.
  unfold search_results, no_limit, passes. simpl.
  rewrite folder_step, tags_step, (query_step _ (SearchOptions.query options)).
  rewrite !elem_of_filter_if.
  destruct (SearchOptions.folder options) as [f|],
           (SearchOptions.tags options) as [ts|],
           (SearchOptions.query options) as [q|]; simpl.
  all: rewrite ?negb_true_iff, ?startsWith_spec, ?some_tag_spec,
         ?query_hit_spec; simpl.
  all: repeat match goal with
       | |- context [String.eqb ?a ?b] => destruct (String.eqb_spec a b)
       | |- context [0 <? Z.of_nat (length ?l)] =>
           destruct l; simpl
       end.
  all: try (split; [intros [[[? ?] ?] ?] | intros [? (? & ? & ?)]]; naive_solver).
Qed.

Lemma search_results_limit (data : list Note.t) (options : SearchOptions.t) :
  search_results options data =
  match SearchOptions.limit options with
  | Some limit =>
      if negb (limit =? 0) && (0 <? limit)
      then JS.slice0 (search_results (no_limit options) data) limit
      else search_results (no_limit options) data
  | None => search_results (no_limit options) data
  end.
Proof. done. Qed.

Lemma search_results_sublist (data : list Note.t) (options : SearchOptions.t) :
  sublist (search_results (no_limit options) data) data.
Proof.
  unfold search_results, no_limit. simpl.
  rewrite folder_step, tags_step,
    (query_step _ (SearchOptions.query options)).
  etrans; [apply sublist_filter_if|].
  etrans; [apply sublist_filter_if|]. apply sublist_filter_if.
Qed.

(** X19: [searchNotes] leaves the cache as [getAllNotes] does and returns
    its failure unchanged.  On the array [getAllNotes] hands over (the
    values of the cache, reloaded first when it was empty) and without a
    limit, it returns in array order exactly the notes that pass every
    filter that is switched on: the path starts with the folder string,
    the note shares a tag with the wanted ones, and the lower-cased query
    occurs in the lower-cased title (or, when content is included, in the
    lower-cased content).  A positive limit keeps the first [limit] of
    them; a zero or negative limit keeps them all. *)
Theorem searchNotes_spec (notesCache : snapshot) (refresh : Refresh)
    (options : SearchOptions.t) :
  (searchNotes notesCache refresh options).1 =
    (getAllNotes notesCache refresh).1 ∧
  (∀ error, (getAllNotes notesCache refresh).2 = failed error ->
            (searchNotes notesCache refresh options).2 = failed error) ∧
  (∀ data, (getAllNotes notesCache refresh).2 = succeeded data ->
     ∃ hits all,
       (searchNotes notesCache refresh options).2 = succeeded hits ∧
       (searchNotes notesCache refresh (no_limit options)).2 = succeeded all ∧
       (∀ note, note ∈ all <-> note ∈ data ∧ passes options note) ∧
       sublist all data ∧
       (∀ l, SearchOptions.limit options = Some l -> 0 < l ->
             hits = take (Z.to_nat l) all) ∧
       ((∀ l, SearchOptions.limit options = Some l -> l <= 0) -> hits = all)).
Proof.
  unfold searchNotes.
  destruct (getAllNotes notesCache refresh) as [cache [data|error]]; simpl.
  - split_and!; [done | done |]. intros ? [= <-].
    exists (search_results options data),
           (search_results (no_limit options) data).
    split_and!; [done | done | | | |].
    + intros note. apply search_results_unlimited_elem.
    + apply search_results_sublist.
    + intros l Hl Hpos. rewrite search_results_limit, Hl.
      destruct (Z.eqb_spec l 0); [lia|]. destruct (Z.ltb_spec 0 l); [|lia].
      simpl. apply slice0_take. lia.
    + intros Hno. rewrite search_results_limit.
      destruct (SearchOptions.limit options) as [l|]; [|done].
      specialize (Hno l eq_refl).
      destruct (Z.eqb_spec l 0); [done|]. by destruct (Z.ltb_spec 0 l); [lia|].
  - split_and!; [done | by intros ? [= <-] | done].
Qed.

(** X20: the search does not look at the case of the query: two queries
    with the same lower-case form give the same result and leave the same
    cache, whatever the cache, the vault and the other options are. *)
Theorem searchNotes_query_case (notesCache : snapshot) (refresh : Refresh)
    (options : SearchOptions.t) (q1 q2 : string) :
  JS.toLowerCase q1 = JS.toLowerCase q2 ->
  searchNotes notesCache refresh (with_query options q1) =
  searchNotes notesCache refresh (with_query options q2).
Proof.
  intros Hq. unfold searchNotes.
  destruct (getAllNotes notesCache refresh) as [cache [data|error]]; [|done].
  do 2 f_equal. unfold search_results, with_query. simpl.
  destruct (String.eqb_spec q1 "") as [->|H1], (String.eqb_spec q2 "") as [->|H2];
    simpl.
  - done.
  - destruct q2; [done | discriminate Hq].
  - destruct q1; [done | discriminate Hq].
  - unfold query_hit. simpl. by rewrite Hq.
Qed.

Lemma searchNotes_query_case_witness :
  searchNotes [] (reloaded (updateNotes fixture))
    (with_query (SearchOptions.mk None None None (Some 2) (Some true)) "NOTE") =
  searchNotes [] (reloaded (updateNotes fixture))
    (with_query (SearchOptions.mk None None None (Some 2) (Some true)) "note").
Proof.
  apply (searchNotes_query_case [] (reloaded (updateNotes fixture))
           (SearchOptions.mk None None None (Some 2) (Some true))
           "NOTE" "note").
  reflexivity.
Defined.

Lemma string_app_inv_head (a x y : string) : a +:+ x = a +:+ y -> x = y.
Proof.
  induction a as [|c a IH]; [done|]. intros E.
  change (String c (a +:+ x) = String c (a +:+ y)) in E.
  injection E as E. by apply IH.
Qed.

Lemma in_folder_spec (folder : string) (note : Note.t) :
  in_folder folder note = true ->
  (∃ rest, Note.path note = folder +:+ "/" +:+ rest) ∨
  (folder = "." ∧ JSString.has_char "/" (Note.path note) = false).
Proof.
  unfold in_folder. rewrite orb_true_iff, startsWith_spec, String.eqb_eq.
  setoid_rewrite string_app_assoc.
  intros [Hpre|Hf]; [by left|].
  destruct (JSString.has_char "/" (Note.path note)) eqn:Hs.
  - left. destruct (getFolder_split _ Hs) as (last & _ & E).
    exists last. by rewrite <- Hf.
  - right. split; [|done]. rewrite <- Hf. unfold getFolder.
    apply lastIndexOf_absent in Hs. by rewrite Hs.
Qed.

(** The values of the service's map are notes it was given. *)
Lemma updateNotes_values_elem (ns : list Note.t) (n : Note.t) :
  n ∈ map_values (updateNotes ns) -> n ∈ ns.
Proof.
  intros Hn.
  pose proof (snapshot_get_value _ n (updateNotes_wf ns) Hn) as Hget.
  unfold updateNotes in Hget. rewrite updateNotes_get_from in Hget.
  destruct (last (filter (fun m => Note.path m = Note.path n) ns)) as [m|] eqn:E;
    [|done].
  injection Hget as ->. apply last_Some_elem_of in E.
  by apply list_elem_of_filter in E as [_ ?].
Qed.

(** X21: the folder filter of [searchNotes] is a bare prefix test on the
    path.  With only a folder given, the hits are the notes of the array
    [getAllNotes] hands over whose path starts with the folder string.
    They include every note [getNotesByFolder] returns for a folder other
    than ["."] once the service holds that array, and besides them the
    notes of any folder whose name merely begins with the folder string,
    which [getNotesByFolder] leaves out. *)
Theorem searchNotes_folder_prefix (notesCache : snapshot) (refresh : Refresh)
    (folder : string) :
  (∀ error, (getAllNotes notesCache refresh).2 = failed error ->
            (searchNotes notesCache refresh (folder_only folder)).2
            = failed error) ∧
  (∀ data, (getAllNotes notesCache refresh).2 = succeeded data ->
     ∃ hits,
       (searchNotes notesCache refresh (folder_only folder)).2
       = succeeded hits ∧
       (folder ≠ "" ->
        ∀ note, note ∈ hits <->
                note ∈ data ∧ ∃ rest, Note.path note = folder +:+ rest) ∧
       (folder ≠ "." ->
        ∀ note, note ∈ getNotesByFolder (updateNotes data) folder ->
                note ∈ hits) ∧
       (∀ note c more name,
          note ∈ data -> c ≠ "/"%char ->
          JSString.has_char "/" name = false ->
          Note.path note = folder +:+ String c more +:+ "/" +:+ name ->
          note ∈ hits ∧ note ∉ getNotesByFolder (updateNotes data) folder)).
Proof.
  unfold searchNotes.
  destruct (getAllNotes notesCache refresh) as [cache [data|error]]; simpl;
    [|split; [by intros ? [= <-] | done]].
  split; [done|]. intros ? [= <-].
  exists (search_results (folder_only folder) data). split; [done|].
  assert (∀ n, n ∈ search_results (folder_only folder) data <->
               n ∈ data ∧
               (folder ≠ "" -> ∃ rest, Note.path n = folder +:+ rest)) as Hhits.
  { intros n. unfold search_results, folder_only. simpl.
    destruct (String.eqb_spec folder "") as [->|Hne]; simpl; [naive_solver|].
    rewrite list_elem_of_In, filter_In, <- list_elem_of_In, startsWith_spec.
    naive_solver. }
  split_and!.
  - intros Hne note. rewrite Hhits. naive_solver.
  - intros Hdot note Hin. apply Hhits. unfold getNotesByFolder in Hin.
    apply list_elem_of_In, filter_In in Hin as [Hin Hf].
    apply list_elem_of_In, updateNotes_values_elem in Hin.
    split; [done|]. intros _.
    apply in_folder_spec in Hf as [[rest E]|[? _]]; [|done].
    by exists ("/" +:+ rest).
  - intros note c more name Hin Hc Hname Hpath. split.
    + apply Hhits. split; [done|]. intros _. by eexists.
    + unfold getNotesByFolder.
      rewrite list_elem_of_In, filter_In, <- list_elem_of_In.
      intros [_ Hf]. unfold in_folder in Hf.
      apply orb_true_iff in Hf as [Hpre|Hf].
      * apply startsWith_spec in Hpre as [rest E].
        rewrite Hpath, string_app_assoc in E.
        apply string_app_inv_head in E.
        change (String c (more +:+ "/" +:+ name) = String "/" rest) in E.
        congruence.
      * apply String.eqb_eq in Hf.
        rewrite Hpath in Hf.
        rewrite <- (string_app_assoc folder (String c more)) in Hf.
        rewrite getFolder_join in Hf by done.
        apply (f_equal String.length) in Hf.
        rewrite string_app_length in Hf. simpl in Hf. lia.
Qed.

(** ** From the cache to the service *)

Lemma updateNotes_from_values (c m : snapshot) :
  NoDup (m.*1 ++ c.*1) -> c.*1 = (Note.path <$> map_values c) ->
  foldl (fun m note => map_set m (Note.path note) note) m (map_values c)
  = m ++ c.
Proof.
  revert m. induction c as [|[k n] c IH]; intros m Hnd Hk.
  - by rewrite app_nil_r.
  - unfold map_values in *. rewrite !fmap_cons in Hk. simpl in Hk.
    injection Hk as -> Hrest. rewrite fmap_cons. simpl.
    rewrite fmap_cons in Hnd. simpl in Hnd.
    rewrite map_set_fresh.
    + rewrite IH; [by rewrite <- app_assoc | | done].
      by rewrite fmap_app, <- app_assoc.
    + apply NoDup_app in Hnd as (_ & Hdisj & _).
      intros Hin. apply (Hdisj _ Hin). by left.
Qed.

(** Notes with distinct paths are stored one by one, in their order. *)
Lemma updateNotes_distinct (ns : list Note.t) :
  NoDup (Note.path <$> ns) -> map_values (updateNotes ns) = ns.
Proof.
  intros Hnd. set (c := (fun n => (Note.path n, n)) <$> ns).
  assert (map_values c = ns) as Hv.
  { unfold c, map_values. rewrite <- list_fmap_compose. apply list_fmap_id. }
  assert (c.*1 = Note.path <$> ns) as Hk
    by (unfold c; by rewrite <- list_fmap_compose).
  unfold updateNotes. rewrite <- Hv at 1.
  rewrite updateNotes_from_values; [done | by rewrite Hk | by rewrite Hv].
Qed.

(** X24: when [getAllNotes] succeeds, its array holds the values of the
    cache it leaves, which is the given cache when that is not empty and
    the reloaded cache otherwise; and when every note of that cache is
    stored under its own path, handing the array to [updateNotes], as the
    handlers do, gives the service a map with the same entries in the same
    order. *)
Theorem getAllNotes_updateNotes (notesCache : snapshot) (refresh : Refresh)
    (cache : snapshot) (data : list Note.t) :
  getAllNotes notesCache refresh = (cache, succeeded data) ->
  NoDup cache.*1 ->
  cache.*1 = (Note.path <$> map_values cache) ->
  ((notesCache ≠ [] ∧ cache = notesCache) ∨
   (notesCache = [] ∧ refresh = reloaded cache)) ∧
  data = map_values cache ∧
  updateNotes data = cache.
Proof.
  intros Hget Hnd Hk.
  assert (((notesCache ≠ [] ∧ cache = notesCache) ∨
           (notesCache = [] ∧ refresh = reloaded cache)) ∧
          data = map_values cache) as [Hcase ->].
  { unfold getAllNotes in Hget. destruct notesCache as [|e rest].
    - simpl in Hget. destruct refresh as [c|m]; [|done].
      injection Hget as -> <-. split; [by right | done].
    - change (Z.of_nat (length (e :: rest)) =? 0) with false in Hget.
      injection Hget as <- <-. split; [by left | done]. }
  split_and!; [done | done |].
  unfold updateNotes. by rewrite updateNotes_from_values.
Qed.

Lemma getAllNotes_updateNotes_witness :
  ((([] : snapshot) ≠ [] ∧ updateNotes fixture = []) ∨
   (([] : snapshot) = [] ∧
    reloaded (updateNotes fixture) = reloaded (updateNotes fixture))) ∧
  map_values (updateNotes fixture) = map_values (updateNotes fixture) ∧
  updateNotes (map_values (updateNotes fixture)) = updateNotes fixture.
Proof.
  apply (getAllNotes_updateNotes [] (reloaded (updateNotes fixture))
           (updateNotes fixture) (map_values (updateNotes fixture))).
  - reflexivity.
  - apply (bool_decide_unpack _). vm_compute. exact I.
  - vm_compute. reflexivity.
Defined.

(** ** Vault statistics *)

(** The edges that stand for links: neither tag nor folder edges. *)
Definition link_kind (e : GraphEdge.t) : Prop :=
  GraphEdge.type e ≠ "tagged-with" ∧ GraphEdge.type e ≠ "in-folder".

#[local] Instance link_kind_dec (e : GraphEdge.t) : Decision (link_kind e).
Proof. unfold link_kind. apply _. Defined.

Lemma stats_fold (vals : list Note.t) (st : Z * list (string * Z)) :
  foldl stats_note st vals =
  (st.1 + Z.of_nat (length (concat ((fun n => default [] (Note.links n))
                                      <$> vals))),
   foldl count_tags st.2 vals).
Proof.
  revert st. induction vals as [|n vals IH]; intros [z m]; simpl.
  - f_equal. lia.
  - rewrite IH. unfold stats_note, count_tags. simpl.
    destruct (Note.links n) as [ls|]; simpl; [|done].
    by rewrite length_app, Nat2Z.inj_add, Z.add_assoc.
Qed.

Lemma note_link_edges (notes : snapshot) (note : Note.t) :
  filter link_kind (note_edges notes note) =
  link_edge notes note <$> default [] (Note.links note).
Proof.
  unfold note_edges. rewrite !filter_app.
  assert (filter link_kind (tag_edge note <$> default [] (Note.tags note)) = [])
    as ->.
  { induction (default [] (Note.tags note)) as [|t ts IH]; [done|].
    rewrite fmap_cons, filter_cons_False; [done|]. by intros [H _]. }
  assert (filter link_kind (folder_edges note) = []) as ->.
  { unfold folder_edges. destruct (has_folder note); [|done].
    rewrite filter_cons_False; [done|]. by intros [_ H]. }
  rewrite !app_nil_r.
  induction (default [] (Note.links note)) as [|l ls IH]; [done|].
  rewrite fmap_cons, filter_cons_True, IH; [done|].
  split; simpl; by destruct (Link.type l).
Qed.

Lemma link_edges_count (notes : snapshot) (vals : list Note.t) :
  length (filter link_kind (concat (note_edges notes <$> vals))) =
  length (concat ((fun n => default [] (Note.links n)) <$> vals)).
Proof.
  induction vals as [|n vals IH]; [done|].
  rewrite !fmap_cons. cbn [concat].
  rewrite filter_app, !length_app, IH, note_link_edges, length_fmap. done.
Qed.

Lemma stats_agree (notes : snapshot) :
  let st := foldl stats_note (0, []) (map_values notes) in
  Z.of_nat (length (map_values notes)) =
    GraphAnalysis.totalNodes (analyzeGraph notes) ∧
  st.1 = Z.of_nat (length (filter link_kind
                             (KnowledgeGraph.edges (buildGraph notes)))) ∧
  st.1 <= GraphAnalysis.totalEdges (analyzeGraph notes) ∧
  getAllTags notes = JS.sort (fun x y => y.2 - x.2) st.2.
Proof.
  intros st.
  assert (st.1 = Z.of_nat (length (filter link_kind
                             (KnowledgeGraph.edges (buildGraph notes)))))
    as Hl.
  { unfold st, buildGraph. cbn [KnowledgeGraph.edges].
    rewrite stats_fold, build_loop_edges.
    cbn [b_edges fst app]. rewrite link_edges_count. lia. }
  split_and!.
  - unfold analyzeGraph, buildGraph.
    cbn [GraphAnalysis.totalNodes KnowledgeGraph.nodes].
    change (fun n => GraphNode.type n = note_node) with is_note_node.
    rewrite build_loop_note_nodes. cbn [b_nodes].
    by rewrite filter_nil, app_nil_l, length_fmap.
  - done.
  - rewrite Hl.
    change (GraphAnalysis.totalEdges (analyzeGraph notes))
      with (Z.of_nat (length (KnowledgeGraph.edges (buildGraph notes)))).
    pose proof (length_filter link_kind
                  (KnowledgeGraph.edges (buildGraph notes))). lia.
  - unfold st, getAllTags. by rewrite stats_fold.
Qed.

(** X22: [getStats] leaves the cache as [getAllNotes] does and answers its
    failure with the failure "Failed to get notes for stats".  Otherwise
    [noteCount] is the length of the array handed over, and when the notes
    of the array have distinct paths the statistics agree with the graph
    service fed with the same array: [noteCount] is the analysis's
    [totalNodes]; [totalLinks] is the number of edges of the built graph
    that are neither tag nor folder edges, so it never exceeds
    [totalEdges]; and [getAllTags] is the statistics' tag table sorted by
    count. *)
Theorem getStats_agrees (notesCache : snapshot) (refresh : Refresh) :
  (getStats notesCache refresh).1 = (getAllNotes notesCache refresh).1 ∧
  (∀ error, (getAllNotes notesCache refresh).2 = failed error ->
            (getStats notesCache refresh).2
            = failed "Failed to get notes for stats") ∧
  (∀ data, (getAllNotes notesCache refresh).2 = succeeded data ->
     ∃ s,
       (getStats notesCache refresh).2 = succeeded s ∧
       VaultStats.noteCount s = Z.of_nat (length data) ∧
       (NoDup (Note.path <$> data) ->
        let notes := updateNotes data in
        VaultStats.noteCount s = GraphAnalysis.totalNodes (analyzeGraph notes) ∧
        VaultStats.totalLinks s =
          Z.of_nat (length (filter link_kind
                              (KnowledgeGraph.edges (buildGraph notes)))) ∧
        VaultStats.totalLinks s <= GraphAnalysis.totalEdges (analyzeGraph notes) ∧
        getAllTags notes =
          JS.sort (fun x y => y.2 - x.2) (VaultStats.tags s))).
Proof.
  unfold getStats.
  destruct (getAllNotes notesCache refresh) as [cache [data|error]]; simpl;
    [|split_and!; [done | by intros ? [= <-] | done]].
  split_and!; [done | done |]. intros ? [= <-]. eexists.
  split; [done|]. cbn [VaultStats.noteCount VaultStats.totalLinks
                       VaultStats.tags]. split; [done|].
  intros Hnd. pose proof (stats_agree (updateNotes data)) as H.
  rewrite (updateNotes_distinct data Hnd) in H. exact H.
Qed.

(** ** The tag list *)

(** The order of the default sort. *)
Definition code_unit_lt (a b : string) : Prop := String.compare a b = Lt.

Lemma string_compare_trans (a b c : string) :
  String.compare a b ≠ Gt -> String.compare b c ≠ Gt ->
  String.compare a c ≠ Gt.
Proof.
  revert b c. induction a as [|x a IH]; intros [|y b] [|z c]; simpl; try done.
  unfold Ascii.compare.
  destruct (N.compare_spec (N_of_ascii x) (N_of_ascii y)) as [E1|L1|G1];
    [| |done].
  - rewrite E1. destruct (N.compare (N_of_ascii y) (N_of_ascii z));
      [apply IH | done | done].
  - destruct (N.compare_spec (N_of_ascii y) (N_of_ascii z)) as [E2|L2|G2];
      [| |done]; intros _ _.
    + rewrite <- E2. by rewrite (proj2 (N.compare_lt_iff _ _) L1).
    + by rewrite (proj2 (N.compare_lt_iff _ _) (N.lt_trans _ _ _ L1 L2)).
Qed.

Lemma compare_strings_trans (a b c : string) :
  compare_strings a b <= 0 -> compare_strings b c <= 0 ->
  compare_strings a c <= 0.
Proof.
  unfold compare_strings. pose proof (string_compare_trans a b c) as H.
  destruct (String.compare a b), (String.compare b c), (String.compare a c);
    try lia; intros _ _; exfalso; by apply H.
Qed.

Lemma compare_strings_total (a b : string) :
  compare_strings a b <= 0 ∨ compare_strings b a <= 0.
Proof.
  unfold compare_strings. rewrite (String.compare_antisym a b).
  destruct (String.compare b a); simpl; lia.
Qed.

Lemma collect_tags_spec (vals : list Note.t) (l : list string) :
  let r := foldl collect_tags l vals in
  (NoDup l -> NoDup r) ∧
  ∀ t, t ∈ r <->
       t ∈ l ∨ ∃ n, n ∈ vals ∧ t ∈ default [] (Note.tags n).
Proof.
  revert l. induction vals as [|n vals IH]; intros l; simpl.
  - split; [done|]. intros t.
    split; [by left | intros [?|(n & ?%elem_of_nil & _)]; done].
  - destruct (IH (collect_tags l n)) as [Hnd Hel].
    assert ((NoDup l -> NoDup (collect_tags l n)) ∧
            ∀ t, t ∈ collect_tags l n <->
                 t ∈ l ∨ t ∈ default [] (Note.tags n)) as [Hnd1 Hel1].
    { unfold collect_tags. destruct (Note.tags n) as [ts|]; simpl.
      - split; [apply add_all_NoDup|]. intros t. apply add_all_elem.
      - split; [done|]. intros t. split; [by left | by intros [?|?%elem_of_nil]]. }
    split; [by intros ?%Hnd1%Hnd|].
    intros t. rewrite Hel, Hel1. split.
    + intros [[?|?]|(n' & ? & ?)]; [by left | right; exists n | right; exists n'];
        (split; [|done]); [left | by right].
    + intros [?|(n' & [->|?]%elem_of_cons & ?)];
        [by left; left | by left; right | right; by exists n'].
Qed.

Lemma sorted_strict (l : list string) :
  StronglySorted (before compare_strings) l -> NoDup l ->
  StronglySorted code_unit_lt l.
Proof.
  induction 1 as [|x l Hl IH Hx]; intros Hnd; [constructor|].
  apply NoDup_cons in Hnd as [Hxl Hnd]. constructor; [by apply IH|].
  apply Forall_forall. intros y Hy.
  rewrite Forall_forall in Hx. specialize (Hx y Hy).
  unfold before, compare_strings in Hx. unfold code_unit_lt.
  destruct (String.compare x y) eqn:E; [|done|lia].
  apply String.compare_eq_iff in E as ->. done.
Qed.

(** X23: [listTags] always succeeds and leaves the cache as [getAllNotes]
    does.  Its list is strictly increasing in the order of the code units,
    so it holds no tag twice; it is empty when [getAllNotes] fails;
    otherwise a tag is listed exactly when it stands on some note of the
    array handed over, and when the notes of the array have distinct paths
    the list holds the same tags as [getAllTags] of the service fed with
    that array. *)
Theorem listTags_spec (notesCache : snapshot) (refresh : Refresh) :
  (listTags notesCache refresh).1 = (getAllNotes notesCache refresh).1 ∧
  ∃ tags,
    (listTags notesCache refresh).2 = succeeded tags ∧
    StronglySorted code_unit_lt tags ∧
    (∀ error, (getAllNotes notesCache refresh).2 = failed error ->
              tags = []) ∧
    (∀ data, (getAllNotes notesCache refresh).2 = succeeded data ->
       (∀ t, t ∈ tags <->
             ∃ n, n ∈ data ∧ t ∈ default [] (Note.tags n)) ∧
       (NoDup (Note.path <$> data) ->
        tags ≡ₚ (getAllTags (updateNotes data)).*1)).
Proof.
  unfold listTags.
  destruct (getAllNotes notesCache refresh) as [cache [data|error]]; simpl.
  - split; [done|]. eexists. split; [done|].
    destruct (collect_tags_spec data []) as [Hnd Hel].
    specialize (Hnd (NoDup_nil_2 (A:=string))).
    set (tags := JS.sort compare_strings (foldl collect_tags [] data)).
    assert (∀ t, t ∈ tags <->
                 ∃ n, n ∈ data ∧ t ∈ default [] (Note.tags n)) as Hin.
    { intros t. unfold tags. rewrite sort_elem, Hel.
      split; [by intros [?%elem_of_nil|?] | by right]. }
    assert (NoDup tags) as Hnd'
      by (unfold tags; by rewrite (sort_perm compare_strings)).
    split_and!.
    + apply sorted_strict; [|done]. unfold tags.
      apply sort_sorted;
        [apply compare_strings_trans | apply compare_strings_total].
    + done.
    + intros ? [= <-]. split; [done|]. intros Hpaths.
      apply NoDup_Permutation; [done | |].
      * unfold getAllTags. rewrite (sort_perm _ _).
        apply count_tags_NoDup. constructor.
      * intros t. rewrite Hin. unfold getAllTags. rewrite (sort_perm _ _).
        rewrite count_tags_keys, (updateNotes_distinct data Hpaths).
        split; [by right | by intros [?%elem_of_nil|?]].
  - split; [done|]. exists []. split_and!; [done | constructor | done | done].
Qed.

(** ** More on the suggestions *)

(** X25: whatever the limit, [suggestRelatedNotes] lists no candidate
    twice, never lists the note itself, and every entry names a note of the
    snapshot and carries a positive score; for a path that is no note of
    the snapshot the result is empty. *)
Theorem suggestRelatedNotes_distinct (ns : list Note.t) (p : string) (k : Z) :
  let notes := updateNotes ns in
  let r := suggestRelatedNotes notes p k in
  (map_get notes p = None -> r = []) ∧
  NoDup r.*1 ∧
  (∀ q s, (q, s) ∈ r -> q ≠ p ∧ is_Some (map_get notes q) ∧ 0 < s).
Proof.
  intros notes r. unfold r, suggestRelatedNotes.
  destruct (map_get notes p) as [note|] eqn:Hget.
  - destruct (suggest_scores_spec notes p note (updateNotes_wf ns))
      as [Hnd Hsc].
    split_and!; [done | |].
    + unfold JS.slice0. rewrite fmap_take.
      eapply sublist_NoDup; [|apply sublist_take].
      by rewrite (sort_perm _ _).
    + intros q s Hin%slice0_elem%sort_elem.
      destruct (Hsc q s Hin) as (Hpos & Hne & c & Hc & _). eauto.
  - split_and!; [done | constructor | by intros q s ?%elem_of_nil].
Qed.

(** * Links in the content ([src/utils/markdown.ts])

    [extractInternalLinks] and [extractEmbedLinks] run a global regular
    expression over the content with [exec]: each call finds the leftmost
    match that starts at or after the end of the previous one.  Both
    patterns are a literal opening, one or two runs of a negated character
    class, and the literal ["]]"].  Every class excludes ["]"], and after a
    run the pattern goes on with ["]"] or ["|"], which the run's class
    excludes as well; so giving back characters of a greedy run never
    leads to a match, and an attempt at a position is decided by the
    longest runs alone. *)

(** [s.trim()]: on the modelled range the white space and the line
    terminators are the class [\s]. *)
Fixpoint trimStart (s : string) : string :=
  match s with
  | EmptyString => EmptyString
  | String c rest => if JS.is_space c then trimStart rest else s
  end.

Fixpoint trimEnd (s : string) : string :=
  match s with
  | EmptyString => EmptyString
  | String c rest =>
      match trimEnd rest with
      | EmptyString =>
          if JS.is_space c then EmptyString else String c EmptyString
      | kept => String c kept
      end
  end.

Definition trim (s : string) : string := trimEnd (trimStart s).

(** The longest prefix of [s] whose characters are in the class [p], and
    what follows it. *)
Fixpoint span (p : ascii -> bool) (s : string) : string * string :=
  match s with
  | EmptyString => (EmptyString, EmptyString)
  | String c rest =>
      if p c
      then let '(run, after) := span p rest in (String c run, after)
      else (EmptyString, s)
  end.

(** The classes [[^\]]] and [[^\]|]]. *)
Definition not_close (c : ascii) : bool := negb (Ascii.eqb c "]").

Definition not_close_bar (c : ascii) : bool :=
  negb (Ascii.eqb c "]") && negb (Ascii.eqb c "|").

(** A literal at the start of [s]: what follows it. *)
Definition literal (lit s : string) : option string :=
  if String.prefix lit s then Some (drop_chars (String.length lit) s)
  else None.

(** One attempt of [/\[\[([^\]|]+)(\|([^\]]+))?\]\]/] at the start of [s]:
    the groups 1 and 3, and what follows the match.  When the optional
    group is entered and fails, the pattern would go on with ["]]"] where
    ["|"] stands, so the attempt fails. *)
Definition match_link (s : string)
  : option ((string * option string) * string) :=
  match literal "[[" s with
  | None => None
  | Some s1 =>
      let '(target, s2) := span not_close_bar s1 in
      if String.eqb target "" then None
      else match literal "|" s2 with
           | Some s3 =>
               let '(text, s4) := span not_close s3 in
               if String.eqb text "" then None
               else match literal "]]" s4 with
                    | Some after => Some ((target, Some text), after)
                    | None => None
                    end
           | None =>
               match literal "]]" s2 with
               | Some after => Some ((target, None), after)
               | None => None
               end
           end
  end.

(** One attempt of [/!\[\[([^\]]+)\]\]/] at the start of [s]. *)
Definition match_embed (s : string) : option (string * string) :=
  match literal "![[" s with
  | None => None
  | Some s1 =>
      let '(target, s2) := span not_close s1 in
      if String.eqb target "" then None
      else match literal "]]" s2 with
           | Some after => Some (target, after)
           | None => None
           end
  end.

(** The loop [while ((match = regex.exec(content)) !== null)]: on a match
    the search goes on behind it, otherwise one character further.  Every
    turn drops at least one character, so the recursion is written on a
    [fuel] that the callers set above the length of the content (see
    [scan_fuel]). *)
Section Scan.
Context {M : Type} (match_at : string -> option (M * string)).

Fixpoint scan (fuel : nat) (s : string) : list M :=
  match fuel with
  | O => []
  | S fuel' =>
      match match_at s with
      | Some (m, after) => m :: scan fuel' after
      | None =>
          match s with
          | EmptyString => []
          | String _ rest => scan fuel' rest
          end
      end
  end.
End Scan.

(** [extractInternalLinks].  The link record of the service model has no
    [text] field, so the text stands beside the link. *)
Definition internal_link (sourcePath : string) (m : string * option string)
  : Link.t * string :=
  let target := trim m.1 in
  let text :=
    match m.2 with
    | Some alias => if String.eqb (trim alias) "" then target else trim alias
    | None => target
    end in
  (Link.mk sourcePath target internal, text).

Definition extractInternalLinks (content sourcePath : string)
  : list (Link.t * string) :=
  internal_link sourcePath
    <$> scan match_link (S (String.length content)) content.

(** [extractEmbedLinks] *)
Definition embed_link (sourcePath target : string) : Link.t :=
  Link.mk sourcePath (trim target) embed.

Definition extractEmbedLinks (content sourcePath : string) : list Link.t :=
  embed_link sourcePath
    <$> scan match_embed (S (String.length content)) content.

(** The [links] field that [parseNote] sets: both lists, or [undefined]
    when there is no link. *)
Definition parsed_links (content path : string) : option (list Link.t) :=
  let links :=
    (extractInternalLinks content path).*1 ++ extractEmbedLinks content path in
  if 0 <? Z.of_nat (length links) then Some links else None.

Example links_of_a_line :
  extractInternalLinks "See [[Note A]] and [[dir/b.md| the B ]]." "x.md" =
  [(Link.mk "x.md" "Note A" internal, "Note A");
   (Link.mk "x.md" "dir/b.md" internal, "the B")].
Proof. vm_compute. reflexivity. Qed.

Example embed_is_reported_twice :
  parsed_links "![[pic.png]]" "x.md" =
  Some [Link.mk "x.md" "pic.png" internal; Link.mk "x.md" "pic.png" embed].
Proof. vm_compute. reflexivity. Qed.

(** ** Runs and literals *)

Fixpoint all_chars (p : ascii -> bool) (s : string) : bool :=
  match s with
  | EmptyString => true
  | String c rest => p c && all_chars p rest
  end.

Lemma drop_chars_app (p r : string) : drop_chars (String.length p) (p +:+ r) = r.
Proof. induction p as [|c p IH]; [by destruct r | done]. Qed.

Lemma literal_spec (lit s r : string) :
  literal lit s = Some r <-> s = lit +:+ r.
Proof.
  unfold literal. destruct (String.prefix lit s) eqn:E.
  - apply (startsWith_spec s lit) in E as [rest ->].
    rewrite drop_chars_app. split; [by intros [= <-]|].
    by intros ->%string_app_inv_head.
  - split; [done|]. intros ->.
    assert (JSString.startsWith (lit +:+ r) lit = true) as H
      by (apply startsWith_spec; eauto).
    unfold JSString.startsWith in H. congruence.
Qed.

Lemma literal_app (lit r : string) : literal lit (lit +:+ r) = Some r.
Proof. by apply literal_spec. Qed.

Lemma span_app (p : ascii -> bool) (r s : string) :
  all_chars p r = true ->
  (∀ c s', s = String c s' -> p c = false) ->
  span p (r +:+ s) = (r, s).
Proof.
  intros Hr Hs. induction r as [|c r IH].
  - change ("" +:+ s) with s. destruct s as [|c s']; [done|].
    simpl. by rewrite (Hs c s' eq_refl).
  - simpl in Hr. apply andb_true_iff in Hr as [Hc Hr].
    change (String c r +:+ s) with (String c (r +:+ s)). simpl.
    by rewrite Hc, (IH Hr).
Qed.

Lemma span_inv (p : ascii -> bool) (s r s' : string) :
  span p s = (r, s') ->
  s = r +:+ s' ∧ all_chars p r = true ∧
  (∀ c s'', s' = String c s'' -> p c = false).
Proof.
  revert r. induction s as [|c s IH]; intros r; simpl.
  - intros [= <- <-]. done.
  - destruct (p c) eqn:Hc.
    + destruct (span p s) as [run after]. intros [= <- <-].
      destruct (IH run eq_refl) as (-> & Hrun & Hafter).
      split_and!; [done | by simpl; rewrite Hc | done].
    + intros [= <- <-]. split_and!; [done..|]. by intros ? ? [= <- <-].
Qed.

Lemma all_not_close (s : string) :
  all_chars not_close s = true <-> JSString.has_char "]" s = false.
Proof.
  induction s as [|c s IH]; simpl; [done|].
  rewrite andb_true_iff, orb_false_iff, IH. unfold not_close.
  by rewrite negb_true_iff.
Qed.

Lemma all_not_close_bar (s : string) :
  all_chars not_close_bar s = true <->
  JSString.has_char "]" s = false ∧ JSString.has_char "|" s = false.
Proof.
  induction s as [|c s IH]; simpl; [done|].
  rewrite andb_true_iff, !orb_false_iff, IH. unfold not_close_bar.
  rewrite andb_true_iff, !negb_true_iff. tauto.
Qed.

(** ** One attempt *)

Lemma match_link_plain (t post : string) :
  t ≠ "" -> all_chars not_close_bar t = true ->
  match_link ("[[" +:+ t +:+ "]]" +:+ post) = Some ((t, None), post).
Proof.
  intros Ht Hall. unfold match_link. rewrite literal_app.
  rewrite span_app; [|done|by intros ? ? [= <- <-]].
  apply String.eqb_neq in Ht. rewrite Ht.
  change (literal "|" ("]]" +:+ post)) with (@None string).
  by rewrite literal_app.
Qed.

Lemma match_link_alias (t a post : string) :
  t ≠ "" -> all_chars not_close_bar t = true ->
  a ≠ "" -> all_chars not_close a = true ->
  match_link ("[[" +:+ t +:+ "|" +:+ a +:+ "]]" +:+ post)
  = Some ((t, Some a), post).
Proof.
  intros Ht Hall Ha Halla. unfold match_link. rewrite literal_app.
  rewrite span_app; [|done|by intros ? ? [= <- <-]].
  apply String.eqb_neq in Ht. rewrite Ht, literal_app.
  rewrite span_app; [|done|by intros ? ? [= <- <-]].
  apply String.eqb_neq in Ha. by rewrite Ha, literal_app.
Qed.

Lemma match_link_inv (s t : string) (a : option string) (after : string) :
  match_link s = Some ((t, a), after) ->
  t ≠ "" ∧ all_chars not_close_bar t = true ∧
  ((a = None ∧ s = "[[" +:+ t +:+ "]]" +:+ after) ∨
   (∃ x, a = Some x ∧ x ≠ "" ∧ all_chars not_close x = true ∧
         s = "[[" +:+ t +:+ "|" +:+ x +:+ "]]" +:+ after)).
Proof.
  unfold match_link.
  destruct (literal "[[" s) as [s1|] eqn:E1; [|done].
  apply literal_spec in E1 as ->.
  destruct (span not_close_bar s1) as [target s2] eqn:E2.
  apply span_inv in E2 as (-> & Hall & _).
  destruct (String.eqb_spec target "") as [|Hne]; [done|].
  destruct (literal "|" s2) as [s3|] eqn:E3.
  - apply literal_spec in E3 as ->.
    destruct (span not_close s3) as [text s4] eqn:E4.
    apply span_inv in E4 as (-> & Halla & _).
    destruct (String.eqb_spec text "") as [|Hnea]; [done|].
    destruct (literal "]]" s4) as [rest|] eqn:E5; [|done].
    apply literal_spec in E5 as ->. intros [= <- <- <-].
    split_and!; [done..|]. right. by exists text.
  - destruct (literal "]]" s2) as [rest|] eqn:E5; [|done].
    apply literal_spec in E5 as ->. intros [= <- <- <-].
    split_and!; [done..|]. by left.
Qed.

Lemma match_link_start (c : ascii) (rest : string) :
  c ≠ "["%char -> match_link (String c rest) = None.
Proof.
  intros Hc. unfold match_link, literal.
  destruct (String.prefix "[[" (String c rest)) eqn:E; [|done].
  apply (startsWith_spec (String c rest) "[[") in E as [r E].
  change (String c rest = String "[" ("[" +:+ r)) in E. congruence.
Qed.

Lemma match_embed_render (t post : string) :
  t ≠ "" -> all_chars not_close t = true ->
  match_embed ("![[" +:+ t +:+ "]]" +:+ post) = Some (t, post).
Proof.
  intros Ht Hall. unfold match_embed. rewrite literal_app.
  rewrite span_app; [|done|by intros ? ? [= <- <-]].
  apply String.eqb_neq in Ht. by rewrite Ht, literal_app.
Qed.

Lemma match_embed_inv (s t after : string) :
  match_embed s = Some (t, after) ->
  t ≠ "" ∧ all_chars not_close t = true ∧
  s = "![[" +:+ t +:+ "]]" +:+ after.
Proof.
  unfold match_embed.
  destruct (literal "![[" s) as [s1|] eqn:E1; [|done].
  apply literal_spec in E1 as ->.
  destruct (span not_close s1) as [target s2] eqn:E2.
  apply span_inv in E2 as (-> & Hall & _).
  destruct (String.eqb_spec target "") as [|Hne]; [done|].
  destruct (literal "]]" s2) as [rest|] eqn:E5; [|done].
  apply literal_spec in E5 as ->. by intros [= <- <-].
Qed.

Lemma match_embed_start (c : ascii) (rest : string) :
  c ≠ "!"%char -> match_embed (String c rest) = None.
Proof.
  intros Hc. unfold match_embed, literal.
  destruct (String.prefix "![[" (String c rest)) eqn:E; [|done].
  apply (startsWith_spec (String c rest) "![[") in E as [r E].
  change (String c rest = String "!" ("[[" +:+ r)) in E. congruence.
Qed.

(** ** The scanning loop *)

Section ScanFacts.
Context {M : Type} (match_at : string -> option (M * string)) (start : ascii).
Hypothesis consumes : ∀ s m after,
  match_at s = Some (m, after) -> ∃ matched, matched ≠ "" ∧ s = matched +:+ after.
Hypothesis starts : ∀ c rest, c ≠ start -> match_at (String c rest) = None.

Lemma consumes_length (s : string) (m : M) (after : string) :
  match_at s = Some (m, after) ->
  (String.length after < String.length s)%nat.
Proof.
  intros (matched & Hne & ->)%consumes. rewrite string_app_length.
  destruct matched; [done | simpl; lia].
Qed.

Lemma scan_S (f : nat) (s : string) :
  scan match_at (S f) s =
  match match_at s with
  | Some (m, after) => m :: scan match_at f after
  | None =>
      match s with
      | EmptyString => []
      | String _ rest => scan match_at f rest
      end
  end.
Proof. done. Qed.

(** The fuel does not matter once it is above the length. *)
Lemma scan_fuel (f1 f2 : nat) (s : string) :
  (String.length s < f1)%nat -> (String.length s < f2)%nat ->
  scan match_at f1 s = scan match_at f2 s.
Proof.
  revert f2 s. induction f1 as [|f1 IH]; intros [|f2] s H1 H2; try lia.
  simpl. destruct (match_at s) as [[m after]|] eqn:E.
  - apply consumes_length in E. f_equal. apply IH; lia.
  - destruct s as [|c rest]; [done|]. simpl in *. apply IH; lia.
Qed.

Lemma scan_hit (pre s : string) (m : M) (after : string) (f : nat) :
  JSString.has_char start pre = false ->
  match_at s = Some (m, after) ->
  (String.length (pre +:+ s) < f)%nat ->
  scan match_at f (pre +:+ s) = m :: scan match_at (S (String.length after)) after.
Proof.
  intros Hpre Hm. revert f. induction pre as [|c pre IH]; intros f Hf.
  - change ("" +:+ s) with s in *. destruct f as [|f]; [lia|].
    rewrite scan_S, Hm. f_equal. apply consumes_length in Hm.
    apply scan_fuel; lia.
  - simpl in Hpre. apply orb_false_iff in Hpre as [Hc Hpre].
    apply Ascii.eqb_neq in Hc.
    change (String c pre +:+ s) with (String c (pre +:+ s)) in *.
    destruct f as [|f]; [simpl in Hf; lia|]. simpl in Hf.
    rewrite scan_S, starts by done. apply IH; [done | lia].
Qed.

Lemma scan_found (f : nat) (s : string) (m : M) :
  m ∈ scan match_at f s ->
  ∃ pre s' after, s = pre +:+ s' ∧ match_at s' = Some (m, after).
Proof.
  revert s. induction f as [|f IH]; intros s; simpl.
  { by intros ?%elem_of_nil. }
  destruct (match_at s) as [[m' after]|] eqn:E.
  - intros [->|Hin]%elem_of_cons; [by exists "", s, after|].
    destruct (consumes _ _ _ E) as (matched & _ & ->).
    destruct (IH _ Hin) as (pre & s' & after' & -> & Hm).
    exists (matched +:+ pre), s', after'. by rewrite string_app_assoc.
  - destruct s as [|c rest]; [by intros ?%elem_of_nil|].
    intros (pre & s' & after' & -> & Hm)%IH.
    by exists (String c pre), s', after'.
Qed.

Lemma scan_none (f : nat) (s : string) :
  JSString.has_char start s = false -> scan match_at f s = [].
Proof.
  revert s. induction f as [|f IH]; intros s Hs; [done|]. simpl.
  destruct s as [|c rest].
  - destruct (match_at "") as [[m after]|] eqn:E; [|done].
    apply consumes_length in E. simpl in E. lia.
  - simpl in Hs. apply orb_false_iff in Hs as [Hc Hs].
    apply Ascii.eqb_neq in Hc. rewrite starts by done. by apply IH.
Qed.
End ScanFacts.

Lemma match_link_consumes (s : string) (m : string * option string)
    (after : string) :
  match_link s = Some (m, after) ->
  ∃ matched, matched ≠ "" ∧ s = matched +:+ after.
Proof.
  destruct m as [t a].
  intros (_ & _ & [[_ ->]|(x & _ & _ & _ & ->)])%match_link_inv.
  - exists ("[[" +:+ t +:+ "]]"). split; [done|].
    by rewrite !string_app_assoc.
  - exists ("[[" +:+ t +:+ "|" +:+ x +:+ "]]"). split; [done|].
    by rewrite !string_app_assoc.
Qed.

Lemma match_embed_consumes (s t after : string) :
  match_embed s = Some (t, after) ->
  ∃ matched, matched ≠ "" ∧ s = matched +:+ after.
Proof.
  intros (_ & _ & ->)%match_embed_inv.
  exists ("![[" +:+ t +:+ "]]"). split; [done|]. by rewrite !string_app_assoc.
Qed.

(** ** [trim] keeps a character out *)

Lemma trimStart_has_char (c : ascii) (s : string) :
  JSString.has_char c s = false -> JSString.has_char c (trimStart s) = false.
Proof.
  induction s as [|x s IH]; simpl; [done|].
  intros [Hx Hs]%orb_false_iff.
  destruct (JS.is_space x); [by apply IH|]. simpl. by rewrite Hx, Hs.
Qed.

Lemma trimEnd_has_char (c : ascii) (s : string) :
  JSString.has_char c s = false -> JSString.has_char c (trimEnd s) = false.
Proof.
  induction s as [|x s IH]; simpl; [done|].
  intros [Hx Hs]%orb_false_iff. specialize (IH Hs).
  destruct (trimEnd s) as [|y kept].
  - destruct (JS.is_space x); [done|]. simpl. by rewrite Hx.
  - change (JSString.has_char c (String x (String y kept)))
      with (Ascii.eqb x c || JSString.has_char c (String y kept)).
    by rewrite Hx, IH.
Qed.

Lemma trim_has_char (c : ascii) (s : string) :
  JSString.has_char c s = false -> JSString.has_char c (trim s) = false.
Proof. intros H. by apply trimEnd_has_char, trimStart_has_char. Qed.

Lemma has_char_app (c : ascii) (a b : string) :
  JSString.has_char c (a +:+ b) =
  JSString.has_char c a || JSString.has_char c b.
Proof.
  induction a as [|x a IH]; [done|].
  change (String x a +:+ b) with (String x (a +:+ b)). simpl.
  by rewrite IH, orb_assoc.
Qed.

Lemma extractInternalLinks_hit (pre s post src : string)
    (m : string * option string) :
  JSString.has_char "[" pre = false ->
  match_link s = Some (m, post) ->
  extractInternalLinks (pre +:+ s) src =
  internal_link src m :: extractInternalLinks post src.
Proof.
  intros Hpre Hm. unfold extractInternalLinks.
  by rewrite (scan_hit match_link "[" match_link_consumes match_link_start
                pre s m post) by (done || lia).
Qed.

Lemma extractEmbedLinks_hit (pre s post src t : string) :
  JSString.has_char "!" pre = false ->
  match_embed s = Some (t, post) ->
  extractEmbedLinks (pre +:+ s) src =
  embed_link src t :: extractEmbedLinks post src.
Proof.
  intros Hpre Hm. unfold extractEmbedLinks.
  by rewrite (scan_hit match_embed "!" match_embed_consumes match_embed_start
                pre s t post) by (done || lia).
Qed.

(** X26: writing a link and reading it back.  When the text before it has
    no ["["], the content [pre [[t]] post] yields the link to [t] trimmed,
    with the target as its text, followed by the links of [post]; and
    [pre [[t|alias]] post] yields the same link with the trimmed alias as
    its text (or the target, when the alias is blank). *)
Theorem extractInternalLinks_round_trip (pre t post src : string) :
  JSString.has_char "[" pre = false ->
  t ≠ "" ->
  JSString.has_char "]" t = false -> JSString.has_char "|" t = false ->
  extractInternalLinks (pre +:+ "[[" +:+ t +:+ "]]" +:+ post) src =
    (Link.mk src (trim t) internal, trim t)
      :: extractInternalLinks post src ∧
  ∀ alias, alias ≠ "" -> JSString.has_char "]" alias = false ->
    extractInternalLinks
      (pre +:+ "[[" +:+ t +:+ "|" +:+ alias +:+ "]]" +:+ post) src =
    (Link.mk src (trim t) internal,
     if String.eqb (trim alias) "" then trim t else trim alias)
      :: extractInternalLinks post src.
Proof.
  intros Hpre Ht H1 H2.
  assert (all_chars not_close_bar t = true) as Hall
    by (by apply all_not_close_bar).
  split.
  - by rewrite (extractInternalLinks_hit pre _ post src (t, None))
      by (done || by apply match_link_plain).
  - intros alias Ha Ha'. apply all_not_close in Ha'.
    by rewrite (extractInternalLinks_hit pre _ post src (t, Some alias))
      by (done || by apply match_link_alias).
Qed.

Lemma extractInternalLinks_round_trip_witness :
  extractInternalLinks ("See " +:+ "[[" +:+ " Note A " +:+ "]]" +:+ ".") "x.md" =
    (Link.mk "x.md" (trim " Note A ") internal, trim " Note A ")
      :: extractInternalLinks "." "x.md" ∧
  ∀ alias, alias ≠ "" -> JSString.has_char "]" alias = false ->
    extractInternalLinks
      ("See " +:+ "[[" +:+ " Note A " +:+ "|" +:+ alias +:+ "]]" +:+ ".")
      "x.md" =
    (Link.mk "x.md" (trim " Note A ") internal,
     if String.eqb (trim alias) "" then trim " Note A " else trim alias)
      :: extractInternalLinks "." "x.md".
Proof.
  apply (extractInternalLinks_round_trip "See " " Note A " "." "x.md").
  - reflexivity.
  - discriminate.
  - reflexivity.
  - reflexivity.
Defined.

(** X27: every link [extractInternalLinks] returns has the given source
    and the type [internal]; its target is the trimmed, non-empty run
    without ["]"] and ["|"] that stands behind a ["[["] of the content, so
    the target holds neither character; the run is closed by ["]]"], and
    the text is the target, or it is followed by ["|"], a non-empty alias
    without ["]"] and ["]]"], and the text is the trimmed alias (the
    target, when the alias is blank). *)
Theorem extractInternalLinks_sound (content src : string) (l : Link.t)
    (text : string) :
  (l, text) ∈ extractInternalLinks content src ->
  Link.source l = src ∧ Link.type l = internal ∧
  JSString.has_char "]" (Link.target l) = false ∧
  JSString.has_char "|" (Link.target l) = false ∧
  ∃ pre run post,
    run ≠ "" ∧
    JSString.has_char "]" run = false ∧ JSString.has_char "|" run = false ∧
    Link.target l = trim run ∧
    ((content = pre +:+ "[[" +:+ run +:+ "]]" +:+ post ∧ text = trim run) ∨
     (∃ alias,
        alias ≠ "" ∧ JSString.has_char "]" alias = false ∧
        content = pre +:+ "[[" +:+ run +:+ "|" +:+ alias +:+ "]]" +:+ post ∧
        text = if String.eqb (trim alias) "" then trim run else trim alias)).
Proof.
  unfold extractInternalLinks.
  intros ([run a] & [= -> ->] & Hin)%list_elem_of_fmap.
  apply (scan_found match_link match_link_consumes) in Hin
    as (pre & s' & post & -> & Hm).
  apply match_link_inv in Hm as (Hrun & Hall & Hshape).
  apply all_not_close_bar in Hall as [H1 H2]. simpl.
  split_and!; [done | done | by apply trim_has_char | by apply trim_has_char|].
  exists pre, run, post. split_and!; [done..|].
  destruct Hshape as [[-> ->]|(x & -> & Hx & Hallx & ->)]; [by left|].
  right. exists x. by rewrite <- all_not_close.
Qed.

Lemma extractInternalLinks_sound_witness :
  Link.source (Link.mk "x.md" "Note A" internal) = "x.md" ∧
  Link.type (Link.mk "x.md" "Note A" internal) = internal ∧
  JSString.has_char "]" (Link.target (Link.mk "x.md" "Note A" internal)) = false ∧
  JSString.has_char "|" (Link.target (Link.mk "x.md" "Note A" internal)) = false ∧
  ∃ pre run post,
    run ≠ "" ∧
    JSString.has_char "]" run = false ∧ JSString.has_char "|" run = false ∧
    Link.target (Link.mk "x.md" "Note A" internal) = trim run ∧
    (("See [[Note A| the A ]]." = pre +:+ "[[" +:+ run +:+ "]]" +:+ post ∧
      "the A" = trim run) ∨
     (∃ alias,
        alias ≠ "" ∧ JSString.has_char "]" alias = false ∧
        "See [[Note A| the A ]]." =
          pre +:+ "[[" +:+ run +:+ "|" +:+ alias +:+ "]]" +:+ post ∧
        "the A" = if String.eqb (trim alias) "" then trim run else trim alias)).
Proof.
  apply (extractInternalLinks_sound "See [[Note A| the A ]]." "x.md"
           (Link.mk "x.md" "Note A" internal) "the A").
  vm_compute. left.
Defined.

(** X28: [extractEmbedLinks] reads an embed back: when the text before it
    has no ["!"], the content [pre ![[t]] post] yields the embed of [t]
    trimmed, followed by the embeds of [post].  Every link it returns has
    the given source and the type [embed], and its target is the trimmed,
    non-empty run without ["]"] between a ["![["] and the next ["]]"] of
    the content.  Content without ["!"] has no embed. *)
Theorem extractEmbedLinks_spec (content src : string) :
  (∀ pre t post,
     content = pre +:+ "![[" +:+ t +:+ "]]" +:+ post ->
     JSString.has_char "!" pre = false ->
     t ≠ "" -> JSString.has_char "]" t = false ->
     extractEmbedLinks content src =
     Link.mk src (trim t) embed :: extractEmbedLinks post src) ∧
  (∀ l, l ∈ extractEmbedLinks content src ->
        Link.source l = src ∧ Link.type l = embed ∧
        JSString.has_char "]" (Link.target l) = false ∧
        ∃ pre run post,
          content = pre +:+ "![[" +:+ run +:+ "]]" +:+ post ∧
          run ≠ "" ∧ JSString.has_char "]" run = false ∧
          Link.target l = trim run) ∧
  (JSString.has_char "!" content = false -> extractEmbedLinks content src = []).
Proof.
  split_and!.
  - intros pre t post -> Hpre Ht Hall%all_not_close.
    by rewrite (extractEmbedLinks_hit pre _ post src t)
      by (done || by apply match_embed_render).
  - unfold extractEmbedLinks.
    intros l (run & -> & Hin)%list_elem_of_fmap.
    apply (scan_found match_embed match_embed_consumes) in Hin
      as (pre & s' & post & -> & Hm).
    apply match_embed_inv in Hm as (Hrun & Hall%all_not_close & ->). simpl.
    split_and!; [done | done | by apply trim_has_char|].
    by exists pre, run, post.
  - intros Hno. unfold extractEmbedLinks.
    by rewrite (scan_none match_embed "!" match_embed_consumes
                  match_embed_start).
Qed.

Lemma some_links_none (links : list Link.t) :
  (if 0 <? Z.of_nat (length links) then Some links else None) = None <->
  links = [].
Proof. by destruct links. Qed.

(** X29: the [links] field of a parsed note is never an empty array: it
    is absent exactly when neither extractor finds a link, which is the
    case for content without ["["]; every link in it has the note's path
    as its source; and an embed [![[t]]] whose target has no ["|"],
    standing behind text without ["["] and ["!"], is reported twice: first
    as an internal link to [t], then as an embed of [t]. *)
Theorem parsed_links_spec (content path : string) :
  parsed_links content path ≠ Some [] ∧
  (parsed_links content path = None <->
   extractInternalLinks content path = [] ∧
   extractEmbedLinks content path = []) ∧
  (∀ ls l, parsed_links content path = Some ls -> l ∈ ls ->
           Link.source l = path) ∧
  (JSString.has_char "[" content = false -> parsed_links content path = None) ∧
  (∀ pre t post,
     content = pre +:+ "![[" +:+ t +:+ "]]" +:+ post ->
     JSString.has_char "[" pre = false -> JSString.has_char "!" pre = false ->
     t ≠ "" ->
     JSString.has_char "]" t = false -> JSString.has_char "|" t = false ->
     ∃ rest,
       parsed_links content path =
         Some (Link.mk path (trim t) internal :: rest) ∧
       Link.mk path (trim t) embed ∈ rest).
Proof.
  assert (∀ l, l ∈ (extractInternalLinks content path).*1 ->
               Link.source l = path) as Hint.
  { unfold extractInternalLinks. rewrite <- list_fmap_compose.
    by intros l (m & -> & _)%list_elem_of_fmap. }
  assert (∀ l, l ∈ extractEmbedLinks content path -> Link.source l = path)
    as Hemb.
  { unfold extractEmbedLinks. by intros l (m & -> & _)%list_elem_of_fmap. }
  assert (parsed_links content path = None <->
          extractInternalLinks content path = [] ∧
          extractEmbedLinks content path = []) as Hnone.
  { unfold parsed_links. rewrite some_links_none. split.
    - intros [H1 H2]%app_eq_nil. by apply fmap_nil_inv in H1.
    - by intros [-> ->]. }
  split_and!.
  - unfold parsed_links.
    by destruct ((extractInternalLinks content path).*1
                 ++ extractEmbedLinks content path).
  - done.
  - unfold parsed_links. intros ls l.
    destruct ((extractInternalLinks content path).*1
              ++ extractEmbedLinks content path) as [|x xs] eqn:E; [done|].
    simpl. intros [= <-]. rewrite <- E. intros [?|?]%elem_of_app;
      [by apply Hint | by apply Hemb].
  - intros Hno. apply Hnone. unfold extractInternalLinks, extractEmbedLinks.
    rewrite (scan_none match_link "[" match_link_consumes match_link_start)
      by done.
    split; [done|].
    destruct (scan match_embed _ content) as [|t ts] eqn:E; [done|].
    assert (t ∈ scan match_embed (S (String.length content)) content) as Hin
      by (rewrite E; left).
    apply (scan_found match_embed match_embed_consumes) in Hin
      as (pre & s' & post & -> & (_ & _ & ->)%match_embed_inv).
    rewrite has_char_app in Hno. apply orb_false_iff in Hno as [_ Hno].
    done.
  - intros pre t post -> Hpre1 Hpre2 Ht H1 H2.
    assert (all_chars not_close_bar t = true) as Hall
      by (by apply all_not_close_bar).
    assert (all_chars not_close t = true) as Hall' by (by apply all_not_close).
    unfold parsed_links.
    rewrite (extractEmbedLinks_hit pre _ post path t)
      by (done || by apply match_embed_render).
    change (pre +:+ "![[" +:+ t +:+ "]]" +:+ post)
      with (pre +:+ "!" +:+ "[[" +:+ t +:+ "]]" +:+ post).
    rewrite <- (string_app_assoc pre "!").
    rewrite (extractInternalLinks_hit (pre +:+ "!") _ post path (t, None));
      [|by rewrite has_char_app, Hpre1 | by apply match_link_plain].
    rewrite fmap_cons. cbn [fst internal_link].
    eexists. split.
    + rewrite <- app_comm_cons. cbn [length]. done.
    + apply elem_of_app. right. left.
Qed.
